(** * gin-cage: a token-bucket rate limiter for gin, kept in redis

    A shallow embedding of the package [gincage] (the bucket
    [RedisBucket] with its constructors and its method [Walk], the
    middleware [limiter.WalkThrough], the errors of errors.go), the
    properties of its specification, and further properties of the code.

    Layout of the file:
    - machine integers, errors, strings ([strconv], [strings.Split]);
    - time ([time.Time], [time.Duration], the layout [time.RFC3339]);
    - the bucket, the body of the redis transaction and [Walk];
    - the middleware;
    - the interleaving machine of concurrent [Walk] calls;
    - lemmas and theorems. *)

From Stdlib Require Import ZArith Lia Ascii String List Bool.
From stdpp Require Import base tactics option list gmap strings.

Local Open Scope Z_scope.

(** ** Machine integers

    Go's [int] and [int64] (the package is used on 64-bit platforms) are
    integers of [Z] in the range below; arithmetic wraps around. *)

Definition minInt64 : Z := - 2 ^ 63.
Definition maxInt64 : Z := 2 ^ 63 - 1.
Definition maxUint64 : Z := 2 ^ 64 - 1.

Definition inInt64 (x : Z) : Prop := minInt64 <= x <= maxInt64.

(** The value of a 64-bit signed result whose mathematical value is [x]. *)
Definition wrap64 (x : Z) : Z := (x + 2 ^ 63) mod 2 ^ 64 - 2 ^ 63.

Definition add64 (x y : Z) : Z := wrap64 (x + y).
Definition sub64 (x y : Z) : Z := wrap64 (x - y).
Definition mul64 (x y : Z) : Z := wrap64 (x * y).
(** Go's [/] on integers truncates toward zero. *)
Definition quo64 (x y : Z) : Z := wrap64 (Z.quot x y).

(** ** Errors

    The sentinel errors of the package (errors.go), of go-redis
    ([redis.Nil], [redis.TxFailedErr]) and of strconv, the error values
    built by the libraries, and wrapping, which [errors.Is] looks
    through. *)

Inductive error : Type :=
| ErrNoTokensAwailable
| ErrBadSyntaxInStorage
| RedisNil
| TxFailedErr
| ErrSyntax
| ErrRange
| NewError (msg : string)
| NumError (fn num : string) (err : error)
| ParseError (layout value : string)
| StoreError (msg : string)
| Wrapped (msg : string) (err : error).

Definition error_eqb_flat (a b : error) : bool :=
  match a, b with
  | ErrNoTokensAwailable, ErrNoTokensAwailable => true
  | ErrBadSyntaxInStorage, ErrBadSyntaxInStorage => true
  | RedisNil, RedisNil => true
  | TxFailedErr, TxFailedErr => true
  | ErrSyntax, ErrSyntax => true
  | ErrRange, ErrRange => true
  | StoreError m, StoreError m' => bool_decide (m = m')
  | _, _ => false
  end.

(** [errors.Is err target] for a sentinel [target]: [err] or one of the
    errors it wraps is [target]. *)
Fixpoint errors_Is (err target : error) : bool :=
  error_eqb_flat err target ||
  match err with
  | NumError _ _ e => errors_Is e target
  | Wrapped _ e => errors_Is e target
  | _ => false
  end.

(** ** Strings: digits, [strconv.Itoa], [strconv.Atoi], [strings.Split] *)

Definition digitChar (d : Z) : ascii := ascii_of_nat (48 + Z.to_nat d).
Definition isDigit (c : ascii) : bool :=
  (48 <=? Z.of_nat (nat_of_ascii c)) && (Z.of_nat (nat_of_ascii c) <=? 57).
Definition digitVal (c : ascii) : Z := Z.of_nat (nat_of_ascii c) - 48.

(** The loop of strconv's [formatBits] in base 10: the digits of [u] are
    put in front of [acc], the last digit first. *)
Fixpoint formatDigits (fuel : nat) (u : Z) (acc : string) : string :=
  match fuel with
  | O => acc
  | S f =>
      if u <? 10 then String (digitChar u) acc
      else formatDigits f (u / 10) (String (digitChar (u mod 10)) acc)
  end.

(** A 64-bit value has at most 20 decimal digits. *)
Definition formatUint (u : Z) : string := formatDigits 20 u "".

Definition Itoa (i : Z) : string :=
  if i <? 0 then String "-"%char (formatUint (- i)) else formatUint i.

(** strconv's [ParseUint] in base 10 and 64 bits: a byte that is no digit
    is a syntax error, a value over 64 bits a range error, whichever
    comes first. *)
Definition uintCutoff : Z := maxUint64 / 10 + 1.

Fixpoint parseUintLoop (s : string) (n : Z) : error + Z :=
  match s with
  | EmptyString => inr n
  | String c s' =>
      if isDigit c then
        if uintCutoff <=? n then inl ErrRange
        else
          let n1 := n * 10 + digitVal c in
          if maxUint64 <? n1 then inl ErrRange else parseUintLoop s' n1
      else inl ErrSyntax
  end.

Definition ParseUint (s : string) : error + Z :=
  match s with
  | EmptyString => inl ErrSyntax
  | _ => parseUintLoop s 0
  end.

(** strconv's [ParseInt] in base 10 and 64 bits: an optional sign, then
    [ParseUint], then the range of [int64]. *)
Definition ParseInt (s : string) : error + Z :=
  match s with
  | EmptyString => inl ErrSyntax
  | String c s' =>
      let neg := bool_decide (c = "-"%char) in
      let body := if bool_decide (c = "+"%char) || neg then s' else s in
      match ParseUint body with
      | inl e => inl e
      | inr un =>
          if negb neg && (2 ^ 63 <=? un) then inl ErrRange
          else if neg && (2 ^ 63 <? un) then inl ErrRange
          else inr (if neg then - un else un)
      end
  end.

(** [strconv.Atoi]: the error is a [*NumError] naming the function and
    the input. *)
Definition Atoi (s : string) : error + Z :=
  match ParseInt s with
  | inl e => inl (NumError "Atoi" s e)
  | inr n => inr n
  end.

(** [strings.Split s sep] for a separator of one byte: the pieces of [s]
    between the occurrences of [sep]; one piece more than there are
    separators. *)
Fixpoint splitByte (sep : ascii) (s : string) : list string :=
  match s with
  | EmptyString => [EmptyString]
  | String c s' =>
      if bool_decide (c = sep) then EmptyString :: splitByte sep s'
      else
        match splitByte sep s' with
        | piece :: rest => String c piece :: rest
        | [] => [String c EmptyString]
        end
  end.

Definition countByte (sep : ascii) (s : string) : nat :=
  List.length (List.filter (fun c => bool_decide (c = sep)) (list_ascii_of_string s)).

Definition pipe : ascii := "|"%char.

(** ** Time

    A [time.Time] is an instant, in nanoseconds since the Unix epoch, shown
    in a zone whose offset is given in seconds east of UTC. A
    [time.Duration] is an [int64] count of nanoseconds. *)

Definition Duration : Type := Z.

Definition Nanosecond : Duration := 1.
Definition Second : Duration := 1000000000.
Definition Minute : Duration := 60 * Second.

Record Time : Type := mkTime { unixNano : Z; zoneOffset : Z }.

Definition unixSec (t : Time) : Z := unixNano t / Second.
Definition nsecOf (t : Time) : Z := unixNano t mod Second.

(** [t.Sub(u)]: the duration [t - u], or the largest or smallest duration
    when [t - u] does not fit one. *)
Definition Time_Sub (t u : Time) : Duration :=
  let d := unixNano t - unixNano u in
  if maxInt64 <? d then maxInt64 else if d <? minInt64 then minInt64 else d.

(** [t.Add(d)]; the zone stays. *)
Definition Time_Add (t : Time) (d : Duration) : Time :=
  mkTime (unixNano t + d) (zoneOffset t).

(** [time.Since(t)], when the clock reads [now]. *)
Definition Since (now t : Time) : Duration := Time_Sub now t.

(** The instant with its fraction of a second dropped. *)
Definition truncSecond (t : Time) : Time :=
  mkTime (unixSec t * Second) (zoneOffset t).

(** *** The calendar

    Days are counted from January 1 of year 1 of the proleptic Gregorian
    calendar, which is day 0; the Unix epoch is day 719162. *)

Definition unixEpochDay : Z := 719162.
Definition secondsPerDay : Z := 86400.

Definition isLeap (year : Z) : bool :=
  (year mod 4 =? 0) && (negb (year mod 100 =? 0) || (year mod 400 =? 0)).

(** Days of the year before month [m]; [m = 13] gives the year's length. *)
Definition daysBefore (leap : bool) (m : Z) : Z :=
  let l := if leap then 1 else 0 in
  if m <=? 1 then 0
  else if m =? 2 then 31
  else if m =? 3 then 59 + l
  else if m =? 4 then 90 + l
  else if m =? 5 then 120 + l
  else if m =? 6 then 151 + l
  else if m =? 7 then 181 + l
  else if m =? 8 then 212 + l
  else if m =? 9 then 243 + l
  else if m =? 10 then 273 + l
  else if m =? 11 then 304 + l
  else if m =? 12 then 334 + l
  else 365 + l.

Definition daysIn (m year : Z) : Z :=
  daysBefore (isLeap year) (m + 1) - daysBefore (isLeap year) m.

(** The month in which day [yday] (from 0) of a year falls: the first
    month that ends after it. *)
Fixpoint monthFrom (fuel : nat) (m : Z) (leap : bool) (yday : Z) : Z :=
  match fuel with
  | O => m
  | S f => if yday <? daysBefore leap (m + 1) then m else monthFrom f (m + 1) leap yday
  end.

Definition monthOf (leap : bool) (yday : Z) : Z := monthFrom 11 1 leap yday.

Definition daysBeforeYear (year : Z) : Z :=
  let y := year - 1 in
  365 * y + y / 4 - y / 100 + y / 400.

(** Year and day of the year of a day: cycles of 400 years, then of 100
    (the fourth is a day longer), of 4 and of 1. *)
Definition yearOfDay (d : Z) : Z * Z :=
  let n400 := d / 146097 in
  let d1 := d mod 146097 in
  let n100 := Z.min (d1 / 36524) 3 in
  let d2 := d1 - 36524 * n100 in
  let n4 := d2 / 1461 in
  let d3 := d2 mod 1461 in
  let n1 := Z.min (d3 / 365) 3 in
  (1 + 400 * n400 + 100 * n100 + 4 * n4 + n1, d3 - 365 * n1).

Definition dateOfDay (d : Z) : Z * Z * Z :=
  let '(year, yday) := yearOfDay d in
  let m := monthOf (isLeap year) yday in
  (year, m, yday - daysBefore (isLeap year) m + 1).

Definition dayOfDate (year m day : Z) : Z :=
  daysBeforeYear year + daysBefore (isLeap year) m + (day - 1).

(** Seconds since the start of day 0 on the clock of [t]'s zone. *)
Definition absSeconds (t : Time) : Z :=
  unixSec t + zoneOffset t + unixEpochDay * secondsPerDay.

Definition yearOf (t : Time) : Z := fst (yearOfDay (absSeconds t / secondsPerDay)).

(** *** The layout [time.RFC3339], "2006-01-02T15:04:05Z07:00" *)

Fixpoint zeros (n : nat) : string :=
  match n with O => EmptyString | S k => String "0"%char (zeros k) end.

(** The time package's [appendInt]: [x] in decimal, padded with zeros on
    the left to [width] digits, after a minus sign when negative. *)
Definition appendInt (x : Z) (width : nat) : string :=
  let ds := formatUint (Z.abs x) in
  let body := zeros (width - String.length ds) +:+ ds in
  if x <? 0 then String "-"%char body else body.

Definition formatZone (offset : Z) : string :=
  if offset =? 0 then "Z"
  else
    let zone := Z.quot offset 60 in
    let sign := if zone <? 0 then "-" else "+" in
    let zone := Z.abs zone in
    sign +:+ appendInt (Z.quot zone 60) 2 +:+ ":" +:+ appendInt (Z.rem zone 60) 2.

(** [t.Format(time.RFC3339)]: date and time of day on the zone's clock,
    whole seconds only, then the zone. *)
Definition formatRFC3339 (t : Time) : string :=
  let abs := absSeconds t in
  let '(year, month, day) := dateOfDay (abs / secondsPerDay) in
  let sod := abs mod secondsPerDay in
  appendInt year 4 +:+ "-" +:+ appendInt month 2 +:+ "-" +:+ appendInt day 2
  +:+ "T" +:+ appendInt (sod / 3600) 2 +:+ ":" +:+ appendInt (sod / 60 mod 60) 2
  +:+ ":" +:+ appendInt (sod mod 60) 2 +:+ formatZone (zoneOffset t).

(** A field of fixed width: all digits, and a value within [lo..hi]. *)
Definition parseField (cs : list ascii) (lo hi : Z) : option Z :=
  if forallb isDigit cs then
    let x := fold_left (fun x c => x * 10 + digitVal c) cs 0 in
    if (lo <=? x) && (x <=? hi) then Some x else None
  else None.

Fixpoint takeDigits (s : string) : list ascii * string :=
  match s with
  | EmptyString => ([], EmptyString)
  | String c s' =>
      if isDigit c then let '(ds, rest) := takeDigits s' in (c :: ds, rest)
      else ([], s)
  end.

(** The digits of a fraction of a second as nanoseconds: nine digits
    count, the others are dropped. *)
Definition nanosOf (ds : list ascii) : Z :=
  let ds9 := firstn 9 ds in
  fold_left (fun x c => x * 10 + digitVal c) ds9 0 * 10 ^ Z.of_nat (9 - List.length ds9).

(** A fraction of a second may follow the seconds, though the layout has
    none. *)
Definition parseFraction (s : string) : Z * string :=
  match s with
  | String c0 (String c1 s') =>
      if bool_decide (c0 = "."%char) && isDigit c1 then
        let '(ds, rest) := takeDigits (String c1 s') in (nanosOf ds, rest)
      else (0, s)
  | _ => (0, s)
  end.

Definition parseZone (s : string) : option Z :=
  match s with
  | String z EmptyString => if bool_decide (z = "Z"%char) then Some 0 else None
  | String sg (String h0 (String h1 (String c (String m0 (String m1 EmptyString))))) =>
      match parseField [h0; h1] 0 23, parseField [m0; m1] 0 59 with
      | Some hr, Some mm =>
          if (bool_decide (sg = "-"%char) || bool_decide (sg = "+"%char))
             && bool_decide (c = ":"%char)
          then Some (if bool_decide (sg = "-"%char) then - ((hr * 60 + mm) * 60)
                     else (hr * 60 + mm) * 60)
          else None
      | _, _ => None
      end
  | _ => None
  end.

(** The time package's [parseRFC3339], which [time.Parse] tries first on
    this layout: the timestamps RFC 3339 allows, "YYYY-MM-DDTHH:MM:SS", an
    optional fraction, then "Z" or "+hh:mm" or "-hh:mm". [None] is a
    string that is none. *)
Definition parseRFC3339 (s : string) : option Time :=
  match s with
  | String y0 (String y1 (String y2 (String y3 (String c4
    (String o0 (String o1 (String c7
    (String d0 (String d1 (String c10
    (String h0 (String h1 (String c13
    (String i0 (String i1 (String c16
    (String s0 (String s1 rest)))))))))))))))))) =>
      match parseField [y0; y1; y2; y3] 0 9999 with
      | Some year =>
        match parseField [o0; o1] 1 12 with
        | Some month =>
          match parseField [d0; d1] 1 (daysIn month year),
                parseField [h0; h1] 0 23,
                parseField [i0; i1] 0 59,
                parseField [s0; s1] 0 59 with
          | Some day, Some hour, Some min, Some sec =>
              if bool_decide (c4 = "-"%char) && bool_decide (c7 = "-"%char)
                 && bool_decide (c10 = "T"%char) && bool_decide (c13 = ":"%char)
                 && bool_decide (c16 = ":"%char)
              then
                let '(nsec, rest') := parseFraction rest in
                match parseZone rest' with
                | Some off =>
                    let secs := (dayOfDate year month day - unixEpochDay) * secondsPerDay
                                + hour * 3600 + min * 60 + sec - off in
                    Some (mkTime (secs * Second + nsec) off)
                | None => None
                end
              else None
          | _, _, _, _ => None
          end
        | None => None
        end
      | None => None
      end
  | _ => None
  end.

Definition RFC3339 : string := "2006-01-02T15:04:05Z07:00".

(** *** The general parser of the time package

    What [parseRFC3339] does not accept, [time.Parse] gives to the general
    parser [parse] with the layout. The layout is cut into the chunks
    "2006", "01", "02", "15", "04", "05" and "Z07:00", with the bytes
    "-", "-", "T", ":" and ":" between them, and the value is read chunk
    by chunk. This reads a little more than RFC 3339 allows: an hour of
    one digit, a comma before the fraction of a second, and a zone of up
    to 24 hours and up to 60 minutes. *)

(** [getnum]: the number in the first digit or the first two digits of
    [s] ([fixed] asks for two), and the rest of [s]. *)
Definition getnum (s : string) (fixed : bool) : option (Z * string) :=
  match s with
  | String c0 s1 =>
      if isDigit c0 then
        match s1 with
        | String c1 s2 =>
            if isDigit c1 then Some (digitVal c0 * 10 + digitVal c1, s2)
            else if fixed then None else Some (digitVal c0, s1)
        | EmptyString => if fixed then None else Some (digitVal c0, s1)
        end
      else None
  | EmptyString => None
  end.

(** [skip], for a prefix of one byte that is no space, as all the
    prefixes between the chunks of this layout are. *)
Definition skip (value : string) (prefix : ascii) : option string :=
  match value with
  | String c rest => if bool_decide (c = prefix) then Some rest else None
  | EmptyString => None
  end.

(** The chunk "2006": four bytes, the first a digit, which [atoi] must
    read to their end. *)
Definition longYear (value : string) : option (Z * string) :=
  match value with
  | String y0 (String y1 (String y2 (String y3 rest))) =>
      year ← parseField [y0; y1; y2; y3] 0 9999; Some (year, rest)
  | _ => None
  end.

Definition commaOrPeriod (c : ascii) : bool :=
  bool_decide (c = "."%char) || bool_decide (c = ","%char).

(** After the chunk "05": a fraction of a second that the layout does not
    have, behind a period or a comma. *)
Definition secondFraction (value : string) : Z * string :=
  match value with
  | String c0 (String c1 s') =>
      if commaOrPeriod c0 && isDigit c1 then
        let '(ds, rest) := takeDigits (String c1 s') in (nanosOf ds, rest)
      else (0, value)
  | _ => (0, value)
  end.

(** The chunk "Z07:00": "Z" for UTC, or a sign, two digits, a colon and
    two digits; the range test is [hr > 24] and [mm > 60]. The result is
    the offset in seconds. *)
Definition colonZone (value : string) : option (Z * string) :=
  match value with
  | String c0 rest0 =>
      if bool_decide (c0 = "Z"%char) then Some (0, rest0)
      else
        match rest0 with
        | String h0 (String h1 (String c (String m0 (String m1 rest)))) =>
            if bool_decide (c = ":"%char) then
              '(hr, _) ← getnum (String h0 (String h1 EmptyString)) true;
              '(mm, _) ← getnum (String m0 (String m1 EmptyString)) true;
              if (24 <? hr) || (60 <? mm) then None
              else if bool_decide (c0 = "+"%char) then Some ((hr * 60 + mm) * 60, rest)
              else if bool_decide (c0 = "-"%char) then Some (- ((hr * 60 + mm) * 60), rest)
              else None
            else None
        | _ => None
        end
  | EmptyString => None
  end.

(** [parse(time.RFC3339, value, UTC, Local)]: the chunks in their order,
    no text after the last, and the day of the month checked at the
    end. *)
Definition parse (value : string) : option Time :=
  '(year, value) ← longYear value;
  value ← skip value "-"%char;
  '(month, value) ← getnum value true;
  if (month <=? 0) || (12 <? month) then None else
  value ← skip value "-"%char;
  '(day, value) ← getnum value true;
  value ← skip value "T"%char;
  '(hour, value) ← getnum value false;
  if 24 <=? hour then None else
  value ← skip value ":"%char;
  '(min, value) ← getnum value true;
  if 60 <=? min then None else
  value ← skip value ":"%char;
  '(sec, value) ← getnum value true;
  if 60 <=? sec then None else
  let '(nsec, value) := secondFraction value in
  '(off, value) ← colonZone value;
  if bool_decide (value = EmptyString) then
    if (day <? 1) || (daysIn month year <? day) then None
    else
      let secs := (dayOfDate year month day - unixEpochDay) * secondsPerDay
                  + hour * 3600 + min * 60 + sec - off in
      Some (mkTime (secs * Second + nsec) off)
  else None.

(** [time.Parse(time.RFC3339, value)]: [parseRFC3339] first, then the
    general parser; the error is a [*time.ParseError]. *)
Definition Parse (value : string) : error + Time :=
  match parseRFC3339 value with
  | Some t => inr t
  | None =>
      match parse value with
      | Some t => inr t
      | None => inl (ParseError RFC3339 value)
      end
  end.

(** ** The redis server and the world a call runs in

    The server keeps, for every key, a value with its time to live and
    the number of times the key was written ([revs]): WATCH remembers that
    number and EXEC commits only when it is still the same. *)

Record entry : Type := mkEntry { value : string; ttl : Duration }.

Record redis : Type := mkRedis { data : gmap string entry; revs : gmap string nat }.

Definition revOf (key : string) (r : redis) : nat := default 0%nat (revs r !! key).

(** A write ([Some e]) or a removal ([None], also an expiry) of [key]. *)
Definition redisWrite (r : redis) (kv : string * option entry) : redis :=
  let '(key, v) := kv in
  mkRedis (match v with Some e => <[key := e]> (data r) | None => delete key (data r) end)
          (<[key := S (revOf key r)]> (revs r)).

Inductive command : Type :=
| CmdWatch (key : string)
| CmdGet (key : string)
| CmdExecSet (key : string) (val : string) (expiry : Duration).

(** The world of one client: the server, the commands the client has
    sent so far (the newest first), the number of clock readings and of
    [ctx.ClientIP()] calls it has made, and its environment: what the
    clock shows at each reading, the failure (network, timeout,
    protocol; [Some msg] is an error of the client library with that
    text) of each command, whether a command that failed had been run by
    the server all the same ([lost]: the failure was on the way back, the
    reply is lost), and what other clients write just before each
    command is served. A key that expires is a removal among these
    writes. *)
Record world : Type := mkWorld {
  server : redis;
  sent : list command;
  ticks : nat;
  ipLookups : nat;
  clock : nat -> Time;
  fault : nat -> option string;
  others : nat -> list (string * option entry);
  lost : nat -> bool
}.

Definition setServer (w : world) (r : redis) : world :=
  mkWorld r (sent w) (ticks w) (ipLookups w) (clock w) (fault w) (others w) (lost w).

(** Computations of the client: a result or an error, and the world after. *)
Definition M (A : Type) : Type := world -> (error + A) * world.

Global Instance M_ret : MRet M := fun A x w => (inr x, w).
Global Instance M_bind : MBind M := fun A B f m w =>
  match m w with
  | (inl e, w') => (inl e, w')
  | (inr x, w') => f x w'
  end.

Definition throw {A : Type} (e : error) : M A := fun w => (inl e, w).

(** A call whose error the caller looks at. *)
Definition catch {A : Type} (m : M A) : M (error + A) := fun w =>
  let '(r, w') := m w in (inr r, w').

Definition liftE {A : Type} (r : error + A) : M A :=
  match r with inl e => throw e | inr x => mret x end.

(** Sending a command that the server runs as [run] (the server after
    it, and its reply): the writes of the other clients that came before
    it are served and the command is recorded. When the environment makes
    it fail, the client has the error of the client library, and the
    server has run the command only when the failure was on the way
    back; otherwise the server runs it and the client has its reply. *)
Definition send {A : Type} (c : command) (run : redis -> redis * (error + A)) : M A :=
  fun w =>
    let n := List.length (sent w) in
    let r := foldl redisWrite (server w) (others w n) in
    let after r' := mkWorld r' (c :: sent w) (ticks w) (ipLookups w) (clock w) (fault w)
                      (others w) (lost w) in
    match fault w n with
    | Some msg => (inl (StoreError msg), after (if lost w n then fst (run r) else r))
    | None => (snd (run r), after (fst (run r)))
    end.

(** [time.Now()]. *)
Definition timeNow : M Time := fun w =>
  (inr (clock w (ticks w)),
   mkWorld (server w) (sent w) (S (ticks w)) (ipLookups w) (clock w) (fault w) (others w)
     (lost w)).

Definition timeSince (t : Time) : M Duration :=
  now ← timeNow; mret (Since now t).

(** A transaction: the key it watches and the key's revision at WATCH. *)
Record Tx : Type := mkTx { watched : string; seen : nat }.

(** [client.Watch(ctx, fn, key)]: WATCH, then the callback. (The UNWATCH
    that follows the callback changes nothing and is left out.) *)
Definition watchKey (key : string) : M Tx :=
  send (CmdWatch key) (fun r => (r, inr (mkTx key (revOf key r)))).

Definition clientWatch (fn : Tx -> M unit) (key : string) : M unit :=
  tx ← watchKey key;
  fn tx.

(** [tx.Get(ctx, key).Result()]: [redis.Nil] for a key that is not there. *)
Definition txGet (key : string) : M string :=
  send (CmdGet key) (fun r =>
    (r, match data r !! key with
        | Some e => inr (value e)
        | None => inl RedisNil
        end)).

(** [tx.TxPipelined] with one SET: MULTI, SET with the expiry, EXEC. The
    write is done when the watched key was not written since WATCH, and
    fails with [redis.TxFailedErr] otherwise. *)
Definition txPipelinedSet (tx : Tx) (key val : string) (expiry : Duration) : M unit :=
  send (CmdExecSet key val expiry) (fun r =>
    if bool_decide (revOf (watched tx) r = seen tx)
    then (redisWrite r (key, Some (mkEntry val expiry)), inr tt)
    else (r, inl TxFailedErr)).

(** ** The bucket

    The defaults are package variables, taken at the values they are
    declared with. [Close] hands the call on to the client library and
    is left out. *)

Definition MaxTokensCapDefault : Z := 10.
Definition NewTokenAppendTimeDefault : Duration := 10 * Second.
Definition DurationDefault : Duration := 30 * Minute.

Record BucketConfigs : Type := mkBucketConfigs {
  Host : string;
  Port : Z;
  Network : string;
  Capability : Z;
  cfgDuration : Duration;
  NewTokenAppendTime : Duration
}.

(** A [*redis.Client]; the server it talks to is the one of the world. *)
Record Client : Type := mkClient { clientNetwork : string; clientAddr : string }.

Record RedisBucket : Type := mkRedisBucket {
  core : option Client;
  cap : Z;
  dur : Duration;
  tokenAppendTime : Duration
}.

Definition NewRedisBucketWithClient (cfg : BucketConfigs) (c : option Client) : RedisBucket :=
  let capability := if Capability cfg <=? 0 then MaxTokensCapDefault else Capability cfg in
  let duration := if cfgDuration cfg <=? 0 then DurationDefault else cfgDuration cfg in
  let appendTime :=
    if NewTokenAppendTime cfg <=? 0 then NewTokenAppendTimeDefault else NewTokenAppendTime cfg in
  mkRedisBucket c capability duration appendTime.

(** [bytealg.IndexByteString]: where the first [c] of [s] stands, or -1. *)
Fixpoint IndexByteString (s : string) (c : ascii) : Z :=
  match s with
  | EmptyString => -1
  | String a s' =>
      if bool_decide (a = c) then 0
      else let i := IndexByteString s' c in if i <? 0 then -1 else i + 1
  end.

(** [net.JoinHostPort]: a host with a colon in it is taken for an IPv6
    address and put in brackets. *)
Definition JoinHostPort (host port : string) : string :=
  if 0 <=? IndexByteString host ":"%char then "[" +:+ host +:+ "]:" +:+ port
  else host +:+ ":" +:+ port.

(** [redis.NewClient] with the two options that [NewRedisBucket] sets. *)
Definition NewClient (network addr : string) : Client := mkClient network addr.

(** [NewRedisBucket]: the client is made and the server pinged before
    anything else; [ping c] is what [c.Ping(context.Background()).Err()]
    gives for the client [c], nil or the error. Go's [(nil, err)] is
    [inl err]. *)
Definition NewRedisBucket (cfg : BucketConfigs) (ping : Client -> option error)
  : error + RedisBucket :=
  let network := if bool_decide (Network cfg = "") then "tcp" else Network cfg in
  let c := NewClient network (JoinHostPort (Host cfg) (Itoa (Port cfg))) in
  match ping c with
  | Some err => inl err
  | None =>
      let capability := if Capability cfg <=? 0 then MaxTokensCapDefault else Capability cfg in
      let duration := if cfgDuration cfg <=? 0 then DurationDefault else cfgDuration cfg in
      let appendTime :=
        if NewTokenAppendTime cfg <=? 0 then NewTokenAppendTimeDefault
        else NewTokenAppendTime cfg in
      inr (mkRedisBucket (Some c) capability duration appendTime)
  end.

Definition keyOf (ip : string) : string := "ginratelimiter:" +:+ ip.

(** The record kept for an address: the tokens, "|", the time of the
    last refill. *)
Definition encodeRecord (tokens : Z) (t : Time) : string :=
  Itoa tokens +:+ "|" +:+ formatRFC3339 t.

(** Lines 159-171 of [Walk]: the record read back. *)
Definition decodeRecord (r : string) : error + (Z * Time) :=
  match splitByte pipe r with
  | [d0; d1] =>
      match Atoi d0 with
      | inl err => inl err
      | inr tokens =>
          match Parse d1 with
          | inl err => inl err
          | inr t => inr (tokens, t)
          end
      end
  | _ => inl ErrBadSyntaxInStorage
  end.

(** Lines 173-199 of [Walk]: the tokens that came in since [t]. *)
Definition refill (b : RedisBucket) (tokens : Z) (t : Time) : M (Z * Time) :=
  if tokens <? cap b then
    p ← timeSince t;
    if tokenAppendTime b <=? p then
      let add := quo64 p (tokenAppendTime b) in
      let add := Z.min add (sub64 (cap b) tokens) in
      let tokens := add64 tokens add in
      if tokens =? cap b then
        now ← timeNow; mret (tokens, now)
      else mret (tokens, Time_Add t (mul64 add (tokenAppendTime b)))
    else mret (tokens, t)
  else mret (tokens, t).

(** The callback that [Walk] gives to [Watch], in two parts. Lines
    151-204: the tokens and the time that the write will start from. A
    key that is not there is a full bucket as of now. *)
Definition walkRead (b : RedisBucket) (ip : string) : M (Z * Time) :=
  r ← catch (txGet (keyOf ip));
  match r with
  | inl err =>
      if negb (errors_Is err RedisNil) then throw err
      else now ← timeNow; mret (cap b, now)
  | inr r =>
      '(tokens, t) ← liftE (decodeRecord r);
      '(tokens, t) ← refill b tokens t;
      if tokens <=? 0 then throw ErrNoTokensAwailable else mret (tokens, t)
  end.

(** Lines 206-210: one token less is written, with the bucket's expiry. *)
Definition walkWrite (b : RedisBucket) (ip : string) (tx : Tx) (tokens : Z) (t : Time)
  : M unit :=
  txPipelinedSet tx (keyOf ip) (encodeRecord (sub64 tokens 1) t) (dur b).

Definition walkTx (b : RedisBucket) (ip : string) (tx : Tx) : M unit :=
  '(tokens, t) ← walkRead b ip;
  walkWrite b ip tx tokens t.

(** The loop of [Walk]: it goes round again on [redis.TxFailedErr] and on
    nothing else. [None] stands for a loop that has not ended within
    [fuel] rounds. *)
Fixpoint walkLoop (fuel : nat) (b : RedisBucket) (ip : string) (w : world)
  : option (option error * world) :=
  match fuel with
  | O => None
  | S f =>
      match clientWatch (walkTx b ip) (keyOf ip) w with
      | (inl err, w') =>
          if negb (errors_Is err TxFailedErr) then Some (Some err, w')
          else walkLoop f b ip w'
      | (inr _, w') => Some (None, w')
      end
  end.


(** What [Walk] reads of a [*gin.Context], and the response the
    middleware writes to it. *)
Inductive any : Type :=
| ErrorStruct (Error : string)
| OtherValue (repr : string).

Record Context : Type := mkContext {
  ClientIP : string;
  aborted : bool;
  status : option Z;
  body : option any
}.

(** [ctx.ClientIP()]. *)
Definition lookupClientIP (ctx : Context) : M string := fun w =>
  (inr (ClientIP ctx),
   mkWorld (server w) (sent w) (ticks w) (S (ipLookups w)) (clock w) (fault w) (others w)
     (lost w)).

Definition RedisBucket_Walk (fuel : nat) (b : RedisBucket) (ctx : Context) (w : world)
  : option (option error * world) :=
  match core b with
  | None => Some (Some (NewError "redis core is nil"), w)
  | Some _ =>
      match lookupClientIP ctx w with
      | (inr ip, w') => walkLoop fuel b ip w'
      | (inl err, w') => Some (Some err, w')
      end
  end.

(** The calls of a server, one after the other: the errors they
    returned, the first call first. *)
Fixpoint walkAll (fuel : nat) (b : RedisBucket) (ctxs : list Context) (w : world)
  : option (list (option error) * world) :=
  match ctxs with
  | [] => Some ([], w)
  | ctx :: rest =>
      match RedisBucket_Walk fuel b ctx w with
      | Some (r, w') =>
          match walkAll fuel b rest w' with
          | Some (rs, w'') => Some (r :: rs, w'')
          | None => None
          end
      | None => None
      end
  end.

(** ** The middleware *)

(** The interface [Bucket]; [Walk] is given the rounds it may take. *)
Class Bucket (B : Type) : Type := {
  Walk : nat -> B -> Context -> world -> option (option error * world)
}.

Global Instance RedisBucket_Bucket : Bucket RedisBucket := {|
  Walk := RedisBucket_Walk
|}.

Definition DefaultServerError : any := ErrorStruct "server error occured".
Definition DefaultTooManyRequestsError : any :=
  ErrorStruct "too many requests, try again later".

(** An [io.Writer] that keeps what it is given: of each [err.Error()]
    written, the error. *)
Definition Writer : Type := list error.

Record limiter (B : Type) : Type := mkLimiter {
  bucket : B;
  logger : Writer;
  serverError : any;
  tooManyRequestsError : any
}.
Arguments mkLimiter {B}.
Arguments bucket {B}.
Arguments logger {B}.
Arguments serverError {B}.
Arguments tooManyRequestsError {B}.

(** [NewLimiter]; its [context.Context] is not used. *)
Definition NewLimiter {B : Type} (bkt : B) (log : Writer)
    (srvErr tooMany : any) : limiter B :=
  mkLimiter bkt log srvErr tooMany.

(** [ctx.AbortWithStatusJSON(code, obj)]. *)
Definition AbortWithStatusJSON (ctx : Context) (code : Z) (obj : any) : Context :=
  mkContext (ClientIP ctx) true (Some code) (Some obj).

(** The handler that [WalkThrough] returns, run on a request: the
    context and the writer after it, and the world. *)
Definition WalkThrough {B : Type} `{Bucket B} (fuel : nat) (l : limiter B)
    (ctx : Context) (w : world) : option (Context * Writer * world) :=
  match Walk fuel (bucket l) ctx w with
  | None => None
  | Some (Some err, w') =>
      if errors_Is err ErrNoTokensAwailable then
        Some (AbortWithStatusJSON ctx 429 (tooManyRequestsError l), logger l, w')
      else
        Some (AbortWithStatusJSON ctx 500 (serverError l), logger l ++ [err], w')
  | Some (None, w') => Some (ctx, logger l, w')
  end.

(** ** Concurrent calls

    Calls of [Walk] by several processes against one server. A call
    talks to the server three times in a round (WATCH, GET, EXEC); what
    it does in between is its own. A process is where its call stands
    and the world as it sees it; the server is shared, and a step of the
    machine is one process doing its next piece on the server as it is
    then. *)

Inductive pc : Type :=
| AtLoop
| InTx (tx : Tx)
| Ready (tx : Tx) (tokens : Z) (t : Time)
| Returned (r : option error).

Record process : Type := mkProcess { at_ : pc; view : world }.

(** How the loop of [Walk] goes on after a round that failed. *)
Definition afterError (err : error) : pc :=
  if negb (errors_Is err TxFailedErr) then Returned (Some err) else AtLoop.

Definition processStep (b : RedisBucket) (ip : string) (shared : redis) (p : process)
  : redis * process :=
  let w := setServer (view p) shared in
  match at_ p with
  | AtLoop =>
      match watchKey (keyOf ip) w with
      | (inr tx, w') => (server w', mkProcess (InTx tx) w')
      | (inl err, w') => (server w', mkProcess (afterError err) w')
      end
  | InTx tx =>
      match walkRead b ip w with
      | (inr (tokens, t), w') => (server w', mkProcess (Ready tx tokens t) w')
      | (inl err, w') => (server w', mkProcess (afterError err) w')
      end
  | Ready tx tokens t =>
      match walkWrite b ip tx tokens t w with
      | (inr _, w') => (server w', mkProcess (Returned None) w')
      | (inl err, w') => (server w', mkProcess (afterError err) w')
      end
  | Returned r => (shared, p)
  end.

Definition isReturned (p : process) : bool :=
  match at_ p with Returned _ => true | _ => false end.

Record machine : Type := mkMachine { shared : redis; procs : list process }.

(** One step: a process that has not returned does its next piece. *)
Inductive machineStep (b : RedisBucket) (ip : string) : machine -> machine -> Prop :=
| machineStep_at (m : machine) (i : nat) (p : process) :
    procs m !! i = Some p ->
    isReturned p = false ->
    machineStep b ip m
      (mkMachine (fst (processStep b ip (shared m) p))
                 (<[i := snd (processStep b ip (shared m) p)]> (procs m))).

(** Runs of [n] steps. *)
Inductive machineRun (b : RedisBucket) (ip : string) : nat -> machine -> machine -> Prop :=
| machineRun_nil (m : machine) : machineRun b ip 0 m m
| machineRun_step (n : nat) (m1 m2 m3 : machine) :
    machineStep b ip m1 m2 -> machineRun b ip n m2 m3 ->
    machineRun b ip (S n) m1 m3.

(** The machine run by a schedule: the processes that step, in order.
    [None] is a schedule that names a process that is not there or has
    returned. *)
Fixpoint runSchedule (b : RedisBucket) (ip : string) (sched : list nat) (m : machine)
  : option machine :=
  match sched with
  | [] => Some m
  | i :: rest =>
      match procs m !! i with
      | Some p =>
          if isReturned p then None
          else runSchedule b ip rest
                 (mkMachine (fst (processStep b ip (shared m) p))
                            (<[i := snd (processStep b ip (shared m) p)]> (procs m)))
      | None => None
      end
  end.

(** A process alone with the server: [n] steps of it. *)
Fixpoint runAlone (b : RedisBucket) (ip : string) (n : nat) (p : process) : process :=
  match n with
  | O => p
  | S k => runAlone b ip k (snd (processStep b ip (server (view p)) p))
  end.

Definition returnedWith (r : option error) (p : process) : bool :=
  match at_ p, r with
  | Returned None, None => true
  | Returned (Some e), Some e' => errors_Is e e'
  | _, _ => false
  end.

Definition countReturned (r : option error) (m : machine) : nat :=
  List.length (List.filter (returnedWith r) (procs m)).

(** ** Notions of the statements *)

(** Every byte of [s] satisfies [P]. *)
Fixpoint allChars (P : ascii -> bool) (s : string) : bool :=
  match s with
  | EmptyString => true
  | String c s' => P c && allChars P s'
  end.

(** The number that the digits of [s] add to [n]. *)
Fixpoint strVal (s : string) (n : Z) : Z :=
  match s with
  | EmptyString => n
  | String c s' => strVal s' (n * 10 + digitVal c)
  end.

(** The bytes of a number written by [Itoa] and of a timestamp. *)
Definition numberChar (c : ascii) : bool := isDigit c || bool_decide (c = "-"%char).
Definition stampChar (c : ascii) : bool :=
  isDigit c || bool_decide (c = "-"%char) || bool_decide (c = "T"%char)
  || bool_decide (c = ":"%char) || bool_decide (c = "Z"%char) || bool_decide (c = "+"%char).

(** A zone of whole minutes, less than a day from UTC. *)
Definition validZone (off : Z) : Prop := off mod 60 = 0 /\ -86400 < off < 86400.

(** The times that the layout can show: a year of four digits in a zone
    of whole minutes. *)
Definition validStamp (t : Time) : Prop :=
  0 <= yearOf t <= 9999 /\ validZone (zoneOffset t).

(** [s] is [x] written with [width] digits. *)
Definition isField (s : string) (width : nat) (x : Z) : Prop :=
  String.length s = width /\ allChars isDigit s = true /\ strVal s 0 = x.

(** A bucket as the constructors make it: capacity, refill interval and
    expiry are positive (and of their types). *)
Definition wfBucket (b : RedisBucket) : Prop :=
  0 < cap b <= maxInt64 /\ 0 < tokenAppendTime b <= maxInt64 /\ 0 < dur b <= maxInt64.

(** The world after [n] more readings of the clock. *)
Definition advance (n : nat) (w : world) : world :=
  mkWorld (server w) (sent w) (n + ticks w) (ipLookups w) (clock w) (fault w) (others w)
    (lost w).

(** The tokens that a computation returned. *)
Definition tokensOf (r : (error + Z * Time) * world) : option Z :=
  match r with
  | (inr (tokens, _), _) => Some tokens
  | (inl _, _) => None
  end.

(** The server as the next command of the client finds it: the writes
    of the others that came before it are done. *)
Definition served (w : world) : redis :=
  foldl redisWrite (server w) (others w (List.length (sent w))).

(** The world once command [c] was sent and its turn has come. *)
Definition afterSend (c : command) (w : world) : world :=
  mkWorld (served w) (c :: sent w) (ticks w) (ipLookups w) (clock w) (fault w) (others w)
    (lost w).

(** What the others write before the client's commands number [from],
    [from + 1], ..., [count] of them. *)
Definition arrivals (w : world) (from count : nat) : list (string * option entry) :=
  concat (List.map (others w) (seq from count)).

(** The world after one more [ctx.ClientIP()]. *)
Definition lookedUp (w : world) : world :=
  mkWorld (server w) (sent w) (ticks w) (S (ipLookups w)) (clock w) (fault w) (others w)
    (lost w).

(** The worlds have one environment. *)
Definition sameEnv (w w' : world) : Prop :=
  clock w' = clock w /\ fault w' = fault w /\ others w' = others w /\ lost w' = lost w.

(** ** Examples: a bucket of three tokens, one every ten seconds, and a
    world where nothing fails, nobody else writes, and the clock stands
    at [now]. *)

Definition exampleBucket : RedisBucket :=
  NewRedisBucketWithClient (mkBucketConfigs "localhost" 6379 "" 3 0 0)
    (Some (mkClient "tcp" "localhost:6379")).

Definition exampleContext : Context := mkContext "192.0.2.7" false None None.

Definition emptyRedis : redis := mkRedis ∅ ∅.

Definition stillWorld (r : redis) (now : Time) : world :=
  mkWorld r [] 0 0 (fun _ => now) (fun _ => None) (fun _ => []) (fun _ => false).

(** 2024-02-29 12:34:56 UTC. *)
Definition exampleTime : Time := mkTime (1709210096 * Second) 0.

Definition oneRecord (key val : string) : redis :=
  redisWrite emptyRedis (key, Some (mkEntry val DurationDefault)).

(** The commands of one round: it ended at the WATCH, or at the GET,
    or at the EXEC of the record made from what was read. *)
Definition roundCommands (b : RedisBucket) (ip : string) (w : world) (cmds : list command)
  : Prop :=
  cmds = [CmdWatch (keyOf ip)]
  \/ cmds = [CmdGet (keyOf ip); CmdWatch (keyOf ip)]
  \/ exists tokens t w2,
       walkRead b ip (afterSend (CmdWatch (keyOf ip)) w) = (inr (tokens, t), w2)
       /\ cmds = [CmdExecSet (keyOf ip) (encodeRecord (sub64 tokens 1) t) (dur b);
                  CmdGet (keyOf ip); CmdWatch (keyOf ip)].

(** A record written by this bucket (here or in another process): an
    encoded record whose tokens are within the capacity. *)
Definition goodRecord (b : RedisBucket) (val : string) : Prop :=
  exists tokens t, val = encodeRecord tokens t /\ 0 <= tokens <= cap b.

Definition goodRedis (b : RedisBucket) (r : redis) : Prop :=
  forall key e, data r !! key = Some e -> goodRecord b (value e).

Definition goodWrite (b : RedisBucket) (kv : string * option entry) : Prop :=
  match snd kv with
  | Some e => goodRecord b (value e)
  | None => True
  end.

Definition goodOthers (b : RedisBucket) (w : world) : Prop :=
  forall n, Forall (goodWrite b) (others w n).

Definition goodCommand (b : RedisBucket) (c : command) : Prop :=
  match c with
  | CmdExecSet _ val _ => goodRecord b val
  | _ => True
  end.

(** The next [k] commands of the client do not fail, and nobody else
    writes before they are served. *)
Definition calm (k : nat) (w : world) : Prop :=
  forall i, (i < k)%nat ->
    fault w (List.length (sent w) + i) = None /\ others w (List.length (sent w) + i) = [].

(** The key that a command names. *)
Definition commandKey (c : command) : string :=
  match c with
  | CmdWatch key => key
  | CmdGet key => key
  | CmdExecSet key _ _ => key
  end.

(** The writes of the others leave [key] alone. *)
Definition sparesKey (key : string) (l : list (string * option entry)) : Prop :=
  Forall (fun kv => fst kv <> key) l.

(** A world where the others write once, between the client's first
    WATCH and its first EXEC: a record for [key] arrives before command
    number 1 (the GET). *)
Definition contendedWorld (r : redis) (now : Time) (key val : string) : world :=
  mkWorld r [] 0 0 (fun _ => now) (fun _ => None)
    (fun n => if bool_decide (n = 1%nat) then [(key, Some (mkEntry val DurationDefault))]
              else [])
    (fun _ => false).

(** A world in which every reading of the clock falls in the second
    that starts at [start], a refill interval or more after its start;
    no command fails and nobody else writes. *)
Definition lateView (b : RedisBucket) (start : Z) (v : world) : Prop :=
  (forall n, fault v n = None) /\ (forall n, others v n = [])
  /\ (forall n, start + tokenAppendTime b <= unixNano (clock v n) < start + Second
                /\ validStamp (clock v n)).

(** A world whose clock does not go back and stays in one zone, with
    all its readings from [t0] to [t1]; no command fails and nobody else
    writes. *)
Definition steadyView (t0 t1 zone : Z) (v : world) : Prop :=
  (forall n, fault v n = None) /\ (forall n, others v n = [])
  /\ (forall i j, (i <= j)%nat -> unixNano (clock v i) <= unixNano (clock v j))
  /\ (forall n, t0 <= unixNano (clock v n) <= t1 /\ validStamp (clock v n)
                /\ zoneOffset (clock v n) = zone).

(** The calls that returned nil. *)
Definition admitted (rs : list (option error)) : nat :=
  List.length (List.filter (fun r => match r with None => true | Some _ => false end) rs).

(** Example: a bucket of one token, one every tenth of a second. *)
Definition quickBucket : RedisBucket :=
  NewRedisBucketWithClient (mkBucketConfigs "localhost" 6379 "" 1 0 100000000)
    (Some (mkClient "tcp" "localhost:6379")).

(** A world where someone else writes the key before every command. *)
Definition besetWorld (r : redis) (now : Time) (key val : string) : world :=
  mkWorld r [] 0 0 (fun _ => now) (fun _ => None)
    (fun _ => [(key, Some (mkEntry val DurationDefault))]) (fun _ => false).

(** A world where the third command of the client (the EXEC of its
    first round) is run by the server and its reply is lost. *)
Definition lostReplyWorld (r : redis) (now : Time) (msg : string) : world :=
  mkWorld r [] 0 0 (fun _ => now)
    (fun n => if bool_decide (n = 2%nat) then Some msg else None) (fun _ => [])
    (fun _ => true).

(** A world where every command fails. *)
Definition failingWorld (r : redis) (now : Time) (msg : string) : world :=
  mkWorld r [] 0 0 (fun _ => now) (fun _ => Some msg) (fun _ => []) (fun _ => false).

(** The errors that the loop of [Walk] returns: those of the client
    library, the package's own two, and those of decoding. *)
Definition walkError (err : error) : Prop :=
  (exists msg, err = StoreError msg)
  \/ err = ErrNoTokensAwailable
  \/ err = ErrBadSyntaxInStorage
  \/ (exists d k, err = NumError "Atoi" d k /\ (k = ErrSyntax \/ k = ErrRange))
  \/ (exists v, err = ParseError RFC3339 v).

(** ** Notions for concurrent calls

    A run during which no refill comes due: every reading of every
    clock lies in one window, shorter than the refill interval, that
    starts on a whole second [start]; no command fails, and no client
    other than the processes of the machine writes. *)

Definition quietTime (b : RedisBucket) (start : Z) (c : Time) : Prop :=
  start <= unixNano c < start + tokenAppendTime b /\ validStamp c.

Definition quietView (b : RedisBucket) (start : Z) (v : world) : Prop :=
  (forall n, fault v n = None) /\ (forall n, others v n = [])
  /\ (forall n, quietTime b start (clock v n)).

(** The writes of the key so far, the key's revision having been [rev0]
    at the start. *)
Definition commits (key : string) (rev0 : nat) (r : redis) : Z :=
  Z.of_nat (revOf key r) - Z.of_nat rev0.

(** The record of the key: none before the first write, and after it
    the capacity less the writes. *)
Definition storeOK (b : RedisBucket) (key : string) (start : Z) (rev0 : nat) (r : redis)
  : Prop :=
  0 <= commits key rev0 r <= cap b
  /\ match data r !! key with
     | None => commits key rev0 r = 0
     | Some e =>
         1 <= commits key rev0 r
         /\ exists t, e = mkEntry (encodeRecord (cap b - commits key rev0 r) t) (dur b)
                      /\ quietTime b start t
     end.

(** Where a process may stand: a transaction has seen a revision that
    was; one ready to write that has seen the present revision holds the
    tokens of the record; one turned away has found no tokens left. *)
Definition procOK (b : RedisBucket) (key : string) (start : Z) (rev0 : nat) (r : redis)
    (p : process) : Prop :=
  quietView b start (view p)
  /\ match at_ p with
     | AtLoop => True
     | InTx tx => watched tx = key /\ (seen tx <= revOf key r)%nat
     | Ready tx tokens t =>
         watched tx = key /\ (seen tx <= revOf key r)%nat /\ quietTime b start t
         /\ (seen tx = revOf key r -> tokens = cap b - commits key rev0 r /\ 1 <= tokens)
     | Returned None => True
     | Returned (Some e) => e = ErrNoTokensAwailable /\ commits key rev0 r = cap b
     end.

Definition machineOK (b : RedisBucket) (ip : string) (start : Z) (rev0 : nat) (m : machine)
  : Prop :=
  storeOK b (keyOf ip) start rev0 (shared m)
  /\ Forall (procOK b (keyOf ip) start rev0 (shared m)) (procs m)
  /\ Z.of_nat (countReturned None m) = commits (keyOf ip) rev0 (shared m).

(** The steps a process has before it at most, were no one else to
    write: fewer with each step of its own. *)
Definition rank (key : string) (r : redis) (p : process) : nat :=
  match at_ p with
  | Returned _ => 0
  | Ready tx _ _ => if bool_decide (seen tx = revOf key r) then 1 else 4
  | InTx tx => if bool_decide (seen tx = revOf key r) then 2 else 5
  | AtLoop => 3
  end.

(** A bound on the steps the machine has before it: the ranks, and for
    every write still possible what that write can add to them. *)
Definition measure (b : RedisBucket) (key : string) (rev0 : nat) (m : machine) : nat :=
  (sum_list (List.map (rank key (shared m)) (procs m))
   + 3 * List.length (procs m) * Z.to_nat (cap b - commits key rev0 (shared m)))%nat.

(** Processes about to call [Walk], each with its own clock. *)
Definition startProcess (v : world) : process := mkProcess AtLoop v.

(** Example: a bucket of one token and two processes racing for it. *)
Definition raceBucket : RedisBucket :=
  NewRedisBucketWithClient (mkBucketConfigs "localhost" 6379 "" 1 0 0)
    (Some (mkClient "tcp" "localhost:6379")).

Definition raceStart : machine :=
  mkMachine emptyRedis
    (List.map startProcess [stillWorld emptyRedis exampleTime; stillWorld emptyRedis exampleTime]).

(** Two processes racing for the one token of [raceBucket], their clocks
    at 12:34:56.9 and at 12:35:06.5: 9.6 seconds apart, less than the ten
    seconds of the refill interval. *)
Definition raceAcrossSeconds : list world :=
  [stillWorld emptyRedis (Time_Add exampleTime 900000000);
   stillWorld emptyRedis (Time_Add exampleTime (10 * Second + 500000000))].

(** Three processes racing for the one token of [quickBucket], all their
    clocks at 12:34:56.5. *)
Definition raceWithinSecond : list world :=
  replicate 3 (stillWorld emptyRedis (Time_Add exampleTime 500000000)).

(** The scenario of the specification: six calls from one address, the
    first four at once, the fifth ten seconds later, the sixth forty
    seconds after the first. The clock is read once in each of the first
    five calls and twice in the sixth. *)
Definition scenarioWorld : world :=
  mkWorld emptyRedis [] 0 0
    (fun n => if (n <? 4)%nat then exampleTime
              else if (n <? 5)%nat then Time_Add exampleTime (10 * Second)
              else Time_Add exampleTime (40 * Second))
    (fun _ => None) (fun _ => []) (fun _ => false).

Definition outcomes (r : option (list (option error) * world)) (key : string)
  : option (list (option error) * option string) :=
  match r with
  | Some (rs, w) => Some (rs, value <$> (data (server w) !! key))
  | None => None
  end.

(** Two calls 9.6 seconds apart, at 12:34:56.9 and at 12:35:06.5. *)
Definition acrossSecondsWorld : world :=
  mkWorld emptyRedis [] 0 0
    (fun n => if (n <? 1)%nat then Time_Add exampleTime 900000000
              else Time_Add exampleTime (10 * Second + 500000000))
    (fun _ => None) (fun _ => []) (fun _ => false).

(** Unfolding the computations of the client. *)
Ltac munfold :=
  repeat (progress unfold mbind, mret, M_bind, M_ret, throw, catch, liftE, timeSince,
            timeNow);
  cbv beta iota.

(** The summary of a round that ended on an error of its read. *)
Ltac round_read_error H :=
  let He := fresh in let Hi := fresh in let cmds := fresh "cmds" in
  let Hs := fresh in let Hc := fresh in let Hsv := fresh in
  let H1 := fresh in let H2 := fresh in
  destruct H as (He & Hi & cmds & Hs & Hc & Hsv & H1 & H2);
  split; [exact He |]; split; [exact Hi |]; exists cmds;
  split; [exact Hs |]; split; [exact Hc |];
  split; [left; exact Hsv |]; split; [exact H1 | exact H2].

(** * Lemmas *)

(** ** Integers *)

Lemma wrap64_small (x : Z) : inInt64 x -> wrap64 x = x.
Proof.
  unfold inInt64, wrap64, minInt64, maxInt64. intros H.
  rewrite Z.mod_small by lia. lia.
Qed.

Lemma wrap64_range (x : Z) : inInt64 (wrap64 x).
Proof.
  unfold inInt64, wrap64, minInt64, maxInt64.
  pose proof (Z.mod_pos_bound (x + 2 ^ 63) (2 ^ 64) ltac:(lia)). lia.
Qed.

(** ** Strings *)

#[local] Arguments String.append : simpl nomatch.
#[local] Arguments formatDigits : simpl never.

Lemma append_nil_r (s : string) : s +:+ "" = s.
Proof. induction s as [|c s IH]; simpl; [done | by rewrite IH]. Qed.

Lemma append_assoc (a b c : string) : (a +:+ b) +:+ c = a +:+ (b +:+ c).
Proof. induction a as [|x a IH]; simpl; [done | by rewrite IH]. Qed.

Lemma length_append (a b : string) :
  String.length (a +:+ b) = (String.length a + String.length b)%nat.
Proof. induction a as [|x a IH]; simpl; [done | by rewrite IH]. Qed.

Lemma allChars_append (P : ascii -> bool) (a b : string) :
  allChars P (a +:+ b) = allChars P a && allChars P b.
Proof.
  induction a as [|x a IH]; simpl; [done |]. rewrite IH. by rewrite andb_assoc.
Qed.

Lemma allChars_mono (P Q : ascii -> bool) (s : string) :
  (forall c, P c = true -> Q c = true) -> allChars P s = true -> allChars Q s = true.
Proof.
  intros HPQ. induction s as [|c s IH]; simpl; [done |].
  intros [Hc Hs]%andb_true_iff. rewrite (HPQ c Hc). simpl. auto.
Qed.

Lemma strVal_append (a b : string) (n : Z) : strVal (a +:+ b) n = strVal b (strVal a n).
Proof. revert n. induction a as [|x a IH]; intros n; simpl; [done | apply IH]. Qed.

Lemma isDigit_bounds (c : ascii) : isDigit c = true -> 0 <= digitVal c <= 9.
Proof.
  unfold isDigit, digitVal. intros [H1 H2]%andb_true_iff.
  apply Z.leb_le in H1. apply Z.leb_le in H2. lia.
Qed.

Lemma digitChar_ok (d : Z) :
  0 <= d <= 9 -> isDigit (digitChar d) = true /\ digitVal (digitChar d) = d.
Proof.
  intros Hd. unfold isDigit, digitVal, digitChar.
  rewrite nat_ascii_embedding by lia.
  split; [apply andb_true_iff; split; apply Z.leb_le; lia | lia].
Qed.

Lemma isDigit_not_sign (c : ascii) :
  isDigit c = true -> c <> "-"%char /\ c <> "+"%char /\ c <> pipe.
Proof. intros H. repeat split; intros ->; vm_compute in H; discriminate. Qed.

Lemma zeroChar_ok : isDigit "0"%char = true /\ digitVal "0"%char = 0.
Proof. split; reflexivity. Qed.

#[local] Opaque digitChar digitVal isDigit.

Lemma strVal_ge (s : string) (n : Z) :
  allChars isDigit s = true -> 0 <= n -> n <= strVal s n.
Proof.
  revert n. induction s as [|c s IH]; intros n; simpl; [lia |].
  intros [Hc Hs]%andb_true_iff Hn. apply isDigit_bounds in Hc.
  specialize (IH (n * 10 + digitVal c) Hs ltac:(lia)). lia.
Qed.

(** ** [strconv] *)

Lemma formatDigits_S (f : nat) (u : Z) (acc : string) :
  formatDigits (S f) u acc =
  if u <? 10 then String (digitChar u) acc
  else formatDigits f (u / 10) (String (digitChar (u mod 10)) acc).
Proof. reflexivity. Qed.

Lemma formatDigits_spec (fuel : nat) :
  forall (u : Z) (acc : string),
    (0 < fuel)%nat -> 0 <= u < 10 ^ Z.of_nat fuel ->
    exists ds,
      formatDigits fuel u acc = ds +:+ acc
      /\ allChars isDigit ds = true
      /\ strVal ds 0 = u
      /\ (0 < String.length ds)%nat
      /\ (forall k : nat, (0 < k)%nat -> u < 10 ^ Z.of_nat k -> (String.length ds <= k)%nat).
Proof.
  induction fuel as [|f IH]; intros u acc Hf Hu; [lia |].
  - rewrite formatDigits_S. destruct (Z.ltb_spec u 10) as [Hlt | Hge].
    + exists (String (digitChar u) "").
      destruct (digitChar_ok u ltac:(lia)) as [Hd Hv].
      simpl. rewrite Hd, Hv. repeat split; auto with lia.
    + assert (Hq : 0 <= u / 10 < 10 ^ Z.of_nat f).
      { rewrite Nat2Z.inj_succ, Z.pow_succ_r in Hu by lia.
        split; [apply Z.div_pos; lia | apply Z.div_lt_upper_bound; lia]. }
      assert (Hf' : (0 < f)%nat).
      { destruct f; [simpl in Hq; pose proof (Z.div_le_lower_bound u 10 1); lia | lia]. }
      destruct (IH (u / 10) (String (digitChar (u mod 10)) acc) Hf' Hq)
        as (ds & Heq & Hall & Hval & Hlen & Hk).
      pose proof (Z.mod_pos_bound u 10 ltac:(lia)) as Hm.
      destruct (digitChar_ok (u mod 10) ltac:(lia)) as [Hd Hv].
      exists (ds +:+ String (digitChar (u mod 10)) "").
      rewrite Heq, append_assoc. simpl. split; [done |].
      rewrite allChars_append, Hall. simpl. rewrite Hd. split; [done |].
      rewrite strVal_append, Hval. simpl. rewrite Hv.
      split; [pose proof (Z.div_mod u 10); lia |].
      rewrite length_append. simpl. split; [lia |].
      intros k Hk0 Huk. destruct k as [|k]; [lia |].
      destruct k as [|k]; [simpl in Huk; lia |].
      assert (String.length ds <= S k)%nat; [| lia].
      apply Hk; [lia |].
      rewrite Nat2Z.inj_succ, Z.pow_succ_r in Huk by lia.
      apply Z.div_lt_upper_bound; lia.
Qed.

Lemma formatUint_spec (u : Z) :
  0 <= u <= maxUint64 ->
  exists ds,
    formatUint u = ds
    /\ allChars isDigit ds = true
    /\ strVal ds 0 = u
    /\ (0 < String.length ds)%nat
    /\ (forall k : nat, (0 < k)%nat -> u < 10 ^ Z.of_nat k -> (String.length ds <= k)%nat).
Proof.
  intros Hu. unfold formatUint.
  destruct (formatDigits_spec 20 u "") as (ds & Heq & H); [lia | |].
  { unfold maxUint64 in Hu. simpl. lia. }
  exists ds. rewrite Heq, append_nil_r. auto.
Qed.

Lemma parseUintLoop_digits (s : string) :
  forall n : Z,
    allChars isDigit s = true -> 0 <= n -> strVal s n <= maxUint64 ->
    parseUintLoop s n = inr (strVal s n).
Proof.
  induction s as [|c s IH]; intros n Hall Hn Hmax; simpl; [done |].
  simpl in Hall. apply andb_true_iff in Hall as [Hc Hs]. rewrite Hc.
  pose proof (isDigit_bounds c Hc) as Hd.
  simpl in Hmax.
  pose proof (strVal_ge s (n * 10 + digitVal c) Hs ltac:(lia)) as Hge.
  destruct (Z.leb_spec uintCutoff n) as [Hcut | Hcut].
  { change uintCutoff with 1844674407370955162 in Hcut.
    change maxUint64 with 18446744073709551615 in *. lia. }
  destruct (Z.ltb_spec maxUint64 (n * 10 + digitVal c)); [lia |].
  apply IH; auto with lia.
Qed.

Lemma ParseUint_formatUint (u : Z) :
  0 <= u <= maxUint64 -> ParseUint (formatUint u) = inr u.
Proof.
  intros Hu. destruct (formatUint_spec u Hu) as (ds & -> & Hall & Hval & Hlen & _).
  unfold ParseUint. destruct ds as [|c ds]; [simpl in Hlen; lia |].
  rewrite parseUintLoop_digits; rewrite ?Hval; auto with lia.
Qed.

Lemma Atoi_Itoa (i : Z) : inInt64 i -> Atoi (Itoa i) = inr i.
Proof.
  unfold inInt64, minInt64, maxInt64. intros Hi. unfold Atoi, Itoa.
  destruct (Z.ltb_spec i 0) as [Hneg | Hpos].
  - unfold ParseInt.
    rewrite (bool_decide_eq_true_2 ("-"%char = "-"%char)) by done.
    rewrite orb_true_r. rewrite ParseUint_formatUint by (unfold maxUint64; lia).
    simpl negb. simpl andb.
    destruct (Z.ltb_spec (2 ^ 63) (- i)); [lia |]. f_equal. lia.
  - destruct (formatUint_spec i ltac:(unfold maxUint64; lia))
      as (ds & Heq & Hall & Hval & Hlen & _).
    pose proof (ParseUint_formatUint i ltac:(unfold maxUint64; lia)) as HP.
    rewrite Heq in *. destruct ds as [|c ds]; [simpl in Hlen; lia |].
    unfold ParseInt. simpl in Hall. apply andb_true_iff in Hall as [Hc _].
    destruct (isDigit_not_sign c Hc) as (Hm & Hp & _).
    rewrite !bool_decide_eq_false_2 by done. simpl orb. cbv beta iota. rewrite HP. simpl negb.
    simpl andb. destruct (Z.leb_spec (2 ^ 63) i); [lia | done].
Qed.

Lemma formatDigits_chars (P : ascii -> bool) (fuel : nat) :
  (forall c, isDigit c = true -> P c = true) ->
  forall (u : Z) (acc : string),
    0 <= u -> allChars P acc = true -> allChars P (formatDigits fuel u acc) = true.
Proof.
  intros HP. induction fuel as [|f IH]; intros u acc Hu Hacc; [done |].
  rewrite formatDigits_S. destruct (Z.ltb_spec u 10) as [Hlt | Hge].
  - simpl. rewrite Hacc, andb_true_r. apply HP, digitChar_ok. lia.
  - apply IH; [apply Z.div_pos; lia |]. simpl. rewrite Hacc, andb_true_r.
    apply HP, digitChar_ok. pose proof (Z.mod_pos_bound u 10 ltac:(lia)). lia.
Qed.

Lemma Itoa_chars (i : Z) : allChars numberChar (Itoa i) = true.
Proof.
  assert (HP : forall c, isDigit c = true -> numberChar c = true).
  { intros c Hc. unfold numberChar. by rewrite Hc. }
  unfold Itoa, formatUint. destruct (Z.ltb_spec i 0).
  - simpl. rewrite formatDigits_chars by (done || lia). done.
  - apply formatDigits_chars; done || lia.
Qed.

(** ** [strings.Split] *)

Lemma splitByte_nonempty (sep : ascii) (s : string) : splitByte sep s <> [].
Proof.
  induction s as [|c s IH]; simpl; [done |].
  case_bool_decide; [done |]. by destruct (splitByte sep s).
Qed.

Lemma length_splitByte (sep : ascii) (s : string) :
  List.length (splitByte sep s) = S (countByte sep s).
Proof.
  unfold countByte. induction s as [|c s IH]; simpl; [done |].
  case_bool_decide; simpl; [by rewrite IH |].
  pose proof (splitByte_nonempty sep s). destruct (splitByte sep s); [done |].
  simpl in *. done.
Qed.

Lemma splitByte_none (sep : ascii) (s : string) :
  allChars (fun c => negb (bool_decide (c = sep))) s = true -> splitByte sep s = [s].
Proof.
  induction s as [|c s IH]; simpl; [done |].
  intros [Hc Hs]%andb_true_iff. apply negb_true_iff in Hc. rewrite Hc.
  by rewrite (IH Hs).
Qed.

Lemma splitByte_two (sep : ascii) (a b : string) :
  allChars (fun c => negb (bool_decide (c = sep))) a = true ->
  allChars (fun c => negb (bool_decide (c = sep))) b = true ->
  splitByte sep (a +:+ String sep b) = [a; b].
Proof.
  intros Ha Hb. induction a as [|c a IH]; simpl.
  - rewrite bool_decide_eq_true_2 by done. by rewrite splitByte_none.
  - simpl in Ha. apply andb_true_iff in Ha as [Hc Ha]. apply negb_true_iff in Hc.
    rewrite Hc. by rewrite (IH Ha).
Qed.

Lemma numberChar_not_pipe (c : ascii) :
  numberChar c = true -> negb (bool_decide (c = pipe)) = true.
Proof.
  intros H. apply negb_true_iff, bool_decide_eq_false_2. intros ->.
  vm_compute in H. discriminate.
Qed.

Lemma stampChar_not_pipe (c : ascii) :
  stampChar c = true -> negb (bool_decide (c = pipe)) = true.
Proof.
  intros H. apply negb_true_iff, bool_decide_eq_false_2. intros ->.
  vm_compute in H. discriminate.
Qed.

(** ** The calendar *)

Lemma isLeap_cycles (a b c e : Z) :
  0 <= b <= 3 -> 0 <= c <= 24 -> 0 <= e <= 3 ->
  isLeap (1 + 400 * a + 100 * b + 4 * c + e)
  = (e =? 3) && (negb (c =? 24) || (b =? 3)).
Proof.
  intros Hb Hc He. unfold isLeap.
  set (y := 1 + 400 * a + 100 * b + 4 * c + e).
  assert (H4 : y mod 4 = (1 + e) mod 4).
  { unfold y. replace (1 + 400 * a + 100 * b + 4 * c + e)
      with ((1 + e) + (100 * a + 25 * b + c) * 4) by lia.
    apply Z.mod_add. lia. }
  assert (H100 : y mod 100 = (1 + 4 * c + e) mod 100).
  { unfold y. replace (1 + 400 * a + 100 * b + 4 * c + e)
      with ((1 + 4 * c + e) + (4 * a + b) * 100) by lia.
    apply Z.mod_add. lia. }
  assert (H400 : y mod 400 = (1 + 100 * b + 4 * c + e) mod 400).
  { unfold y. replace (1 + 400 * a + 100 * b + 4 * c + e)
      with ((1 + 100 * b + 4 * c + e) + a * 400) by lia.
    apply Z.mod_add. lia. }
  rewrite H4, H100, H400.
  assert (He' : e = 0 \/ e = 1 \/ e = 2 \/ e = 3) by lia.
  destruct He' as [-> | [-> | [-> | ->]]]; try reflexivity.
  change ((1 + 3) mod 4 =? 0) with true. simpl andb.
  destruct (Z.eqb_spec c 24) as [-> | Hc24].
  - change ((1 + 4 * 24 + 3) mod 100 =? 0) with true. simpl.
    destruct (Z.eqb_spec b 3) as [-> | Hb3]; [reflexivity |].
    apply Z.eqb_neq. rewrite Z.mod_small by lia. lia.
  - replace ((1 + 4 * c + 3) mod 100 =? 0) with false; [reflexivity |].
    symmetry. apply Z.eqb_neq. rewrite Z.mod_small by lia. lia.
Qed.

Lemma daysBeforeYear_cycles (a b c e : Z) :
  0 <= b <= 3 -> 0 <= c <= 24 -> 0 <= e <= 3 ->
  daysBeforeYear (1 + 400 * a + 100 * b + 4 * c + e)
  = 146097 * a + 36524 * b + 1461 * c + 365 * e.
Proof.
  intros Hb Hc He. unfold daysBeforeYear.
  replace (1 + 400 * a + 100 * b + 4 * c + e - 1) with (400 * a + 100 * b + 4 * c + e) by lia.
  assert (H4 : (400 * a + 100 * b + 4 * c + e) / 4 = 100 * a + 25 * b + c).
  { symmetry. apply Z.div_unique with (r := e); lia. }
  assert (H100 : (400 * a + 100 * b + 4 * c + e) / 100 = 4 * a + b).
  { symmetry. apply Z.div_unique with (r := 4 * c + e); lia. }
  assert (H400 : (400 * a + 100 * b + 4 * c + e) / 400 = a).
  { symmetry. apply Z.div_unique with (r := 100 * b + 4 * c + e); lia. }
  rewrite H4, H100, H400. lia.
Qed.

Lemma daysBefore_13 (leap : bool) : daysBefore leap 13 = if leap then 366 else 365.
Proof. by destruct leap. Qed.

(** A day is the days before its year plus its day of the year, which
    the year has. *)
Lemma yearOfDay_spec (d : Z) :
  let '(year, yday) := yearOfDay d in
  daysBeforeYear year + yday = d
  /\ 0 <= yday < daysBefore (isLeap year) 13.
Proof.
  unfold yearOfDay.
  pose proof (Z.div_mod d 146097 ltac:(lia)) as E1.
  pose proof (Z.mod_pos_bound d 146097 ltac:(lia)) as B1.
  set (a := d / 146097) in *. set (d1 := d mod 146097) in *.
  pose proof (Z.div_mod d1 36524 ltac:(lia)) as E2.
  pose proof (Z.mod_pos_bound d1 36524 ltac:(lia)) as B2.
  set (q2 := d1 / 36524) in *.
  assert (Hq2 : 0 <= q2 <= 4) by lia.
  set (b := Z.min q2 3).
  assert (Hb : 0 <= b <= 3) by lia.
  set (d2 := d1 - 36524 * b).
  assert (Hd2 : 0 <= d2 <= 36524) by lia.
  assert (Hd2' : b < 3 -> d2 < 36524) by lia.
  pose proof (Z.div_mod d2 1461 ltac:(lia)) as E3.
  pose proof (Z.mod_pos_bound d2 1461 ltac:(lia)) as B3.
  set (c := d2 / 1461) in *. set (d3 := d2 mod 1461) in *.
  assert (Hc : 0 <= c <= 24) by lia.
  pose proof (Z.div_mod d3 365 ltac:(lia)) as E4.
  pose proof (Z.mod_pos_bound d3 365 ltac:(lia)) as B4.
  set (q4 := d3 / 365) in *.
  assert (Hq4 : 0 <= q4 <= 4) by lia.
  set (e := Z.min q4 3).
  assert (He : 0 <= e <= 3) by lia.
  rewrite daysBeforeYear_cycles, isLeap_cycles by assumption.
  split; [lia |]. rewrite daysBefore_13.
  destruct (Z.eqb_spec e 3) as [He3 | He3]; simpl andb.
  - destruct (Z.eqb_spec c 24) as [Hc24 | Hc24]; simpl.
    + destruct (Z.eqb_spec b 3) as [Hb3 | Hb3]; lia.
    + lia.
  - lia.
Qed.

Lemma monthOf_spec (leap : bool) (yday : Z) :
  0 <= yday < daysBefore leap 13 ->
  1 <= monthOf leap yday <= 12
  /\ daysBefore leap (monthOf leap yday) <= yday < daysBefore leap (monthOf leap yday + 1).
Proof.
  intros H. unfold monthOf, monthFrom.
  rewrite daysBefore_13 in H.
  destruct leap; destruct H as [H0 H1];
    repeat match goal with
    | |- context [if ?x <? ?y then _ else _] =>
        let y' := eval vm_compute in y in
        change y with y'; destruct (Z.ltb_spec x y')
    end;
    repeat match goal with
    | |- context [daysBefore ?l ?m] =>
        let v := eval vm_compute in (daysBefore l m) in
        change (daysBefore l m) with v
    end;
    lia.
Qed.

Lemma dateOfDay_spec (d : Z) :
  let '(year, m, day) := dateOfDay d in
  1 <= m <= 12 /\ 1 <= day <= daysIn m year /\ dayOfDate year m day = d.
Proof.
  unfold dateOfDay. pose proof (yearOfDay_spec d) as H.
  destruct (yearOfDay d) as [year yday]. destruct H as [Hd Hy].
  destruct (monthOf_spec (isLeap year) yday Hy) as [Hm Hb].
  unfold daysIn, dayOfDate. repeat split; lia.
Qed.

Lemma daysIn_le (m year : Z) : 1 <= m <= 12 -> daysIn m year <= 31.
Proof.
  intros Hm. unfold daysIn.
  assert (Hcases : m = 1 \/ m = 2 \/ m = 3 \/ m = 4 \/ m = 5 \/ m = 6 \/ m = 7
                   \/ m = 8 \/ m = 9 \/ m = 10 \/ m = 11 \/ m = 12) by lia.
  destruct (isLeap year);
    repeat (destruct Hcases as [-> | Hcases]; [vm_compute; discriminate |]);
    subst; vm_compute; discriminate.
Qed.

Lemma clock_spec (sod : Z) :
  0 <= sod < 86400 ->
  0 <= sod / 3600 <= 23 /\ 0 <= sod / 60 mod 60 <= 59 /\ 0 <= sod mod 60 <= 59
  /\ sod / 3600 * 3600 + sod / 60 mod 60 * 60 + sod mod 60 = sod.
Proof. intros H. Z.div_mod_to_equations. lia. Qed.

(** ** The layout *)

Lemma strVal_zeros (k : nat) : strVal (zeros k) 0 = 0.
Proof.
  induction k as [|k IH]; simpl; [done |].
  destruct zeroChar_ok as [_ ->]. apply IH.
Qed.

Lemma allChars_zeros (k : nat) : allChars isDigit (zeros k) = true.
Proof.
  induction k as [|k IH]; simpl; [done |].
  destruct zeroChar_ok as [-> _]. apply IH.
Qed.

Lemma length_zeros (k : nat) : String.length (zeros k) = k.
Proof. induction k as [|k IH]; simpl; [done | by rewrite IH]. Qed.

(** A number that fits its width is written with just that many digits. *)
Lemma appendInt_digits (x : Z) (width : nat) :
  (0 < width)%nat -> 0 <= x < 10 ^ Z.of_nat width -> x <= maxUint64 ->
  String.length (appendInt x width) = width
  /\ allChars isDigit (appendInt x width) = true
  /\ strVal (appendInt x width) 0 = x.
Proof.
  intros Hw Hx Hmax. unfold appendInt.
  destruct (Z.ltb_spec x 0); [lia |]. rewrite Z.abs_eq by lia.
  destruct (formatUint_spec x ltac:(lia)) as (ds & -> & Hall & Hval & Hlen & Hk).
  specialize (Hk width Hw ltac:(lia)).
  rewrite length_append, length_zeros, allChars_append, allChars_zeros, Hall.
  rewrite strVal_append, strVal_zeros. repeat split; [lia | done].
Qed.

Lemma appendInt_chars (x : Z) (width : nat) :
  allChars stampChar (appendInt x width) = true.
Proof.
  assert (HP : forall c, isDigit c = true -> stampChar c = true).
  { intros c Hc. unfold stampChar. by rewrite Hc. }
  assert (Hbody : allChars stampChar
            (zeros (width - String.length (formatUint (Z.abs x))) +:+ formatUint (Z.abs x)) = true).
  { rewrite allChars_append. apply andb_true_iff. split.
    - eapply allChars_mono; [exact HP | apply allChars_zeros].
    - apply formatDigits_chars; [exact HP | lia | done]. }
  unfold appendInt. destruct (x <? 0); [| exact Hbody].
  simpl. by rewrite Hbody.
Qed.

Lemma parseField_string (s : string) (lo hi : Z) :
  allChars isDigit s = true -> lo <= strVal s 0 <= hi ->
  parseField (list_ascii_of_string s) lo hi = Some (strVal s 0).
Proof.
  intros Hall Hr. unfold parseField.
  assert (Hf : forallb isDigit (list_ascii_of_string s) = allChars isDigit s).
  { clear. induction s as [|c s IH]; simpl; [done | by rewrite IH]. }
  assert (Hv : forall n, fold_left (fun x c => x * 10 + digitVal c) (list_ascii_of_string s) n
                         = strVal s n).
  { clear. induction s as [|c s IH]; intros n; simpl; [done | apply IH]. }
  rewrite Hf, Hall, Hv.
  destruct (Z.leb_spec lo (strVal s 0)); [| lia].
  destruct (Z.leb_spec (strVal s 0) hi); [done | lia].
Qed.

Lemma string_length_2 (s : string) :
  String.length s = 2%nat -> exists a b, s = String a (String b "").
Proof. destruct s as [|a [|b [|c s]]]; try discriminate. eauto. Qed.

Lemma string_length_4 (s : string) :
  String.length s = 4%nat ->
  exists a b c d, s = String a (String b (String c (String d ""))).
Proof.
  destruct s as [|a [|b [|c [|d [|e s]]]]]; try discriminate. eauto 6.
Qed.

Lemma appendInt_isField (x : Z) (width : nat) :
  (0 < width)%nat -> 0 <= x < 10 ^ Z.of_nat width -> x <= maxUint64 ->
  isField (appendInt x width) width x.
Proof. apply appendInt_digits. Qed.

Lemma parseField_2 (a b : ascii) (x lo hi : Z) :
  isField (String a (String b "")) 2 x -> lo <= x <= hi ->
  parseField [a; b] lo hi = Some x.
Proof.
  intros (_ & Hall & Hval) Hr.
  change [a; b] with (list_ascii_of_string (String a (String b ""))).
  rewrite parseField_string; [by rewrite Hval | done | by rewrite Hval].
Qed.

Lemma parseField_4 (a b c d : ascii) (x lo hi : Z) :
  isField (String a (String b (String c (String d "")))) 4 x -> lo <= x <= hi ->
  parseField [a; b; c; d] lo hi = Some x.
Proof.
  intros (_ & Hall & Hval) Hr.
  change [a; b; c; d]
    with (list_ascii_of_string (String a (String b (String c (String d ""))))).
  rewrite parseField_string; [by rewrite Hval | done | by rewrite Hval].
Qed.

(** Fields in their places, then a zone, are read back. *)
Lemma parseRFC3339_fields (sy sm sd sh si ss z : string) (year month day hour min sec off : Z) :
  isField sy 4 year -> isField sm 2 month -> isField sd 2 day ->
  isField sh 2 hour -> isField si 2 min -> isField ss 2 sec ->
  0 <= year <= 9999 -> 1 <= month <= 12 -> 1 <= day <= daysIn month year ->
  0 <= hour <= 23 -> 0 <= min <= 59 -> 0 <= sec <= 59 ->
  parseFraction z = (0, z) -> parseZone z = Some off ->
  parseRFC3339 (sy +:+ "-" +:+ sm +:+ "-" +:+ sd +:+ "T" +:+ sh +:+ ":" +:+ si +:+ ":"
                +:+ ss +:+ z)
  = Some (mkTime (((dayOfDate year month day - unixEpochDay) * secondsPerDay
                   + hour * 3600 + min * 60 + sec - off) * Second + 0) off).
Proof.
  intros Fy Fm Fd Fh Fi Fs Ry Rm Rd Rh Ri Rs Hfrac Hzone.
  destruct (string_length_4 sy (proj1 Fy)) as (y0 & y1 & y2 & y3 & ->).
  destruct (string_length_2 sm (proj1 Fm)) as (o0 & o1 & ->).
  destruct (string_length_2 sd (proj1 Fd)) as (d0 & d1 & ->).
  destruct (string_length_2 sh (proj1 Fh)) as (h0 & h1 & ->).
  destruct (string_length_2 si (proj1 Fi)) as (i0 & i1 & ->).
  destruct (string_length_2 ss (proj1 Fs)) as (s0 & s1 & ->).
  cbn [String.append]. unfold parseRFC3339.
  rewrite (parseField_4 _ _ _ _ year) by done.
  rewrite (parseField_2 _ _ month) by done.
  rewrite (parseField_2 _ _ day) by done.
  rewrite (parseField_2 _ _ hour) by done.
  rewrite (parseField_2 _ _ min) by done.
  rewrite (parseField_2 _ _ sec) by done.
  rewrite !bool_decide_eq_true_2 by done. cbn [andb].
  rewrite Hfrac, Hzone. done.
Qed.

Lemma formatZone_parse (off : Z) :
  validZone off ->
  parseFraction (formatZone off) = (0, formatZone off)
  /\ parseZone (formatZone off) = Some off.
Proof.
  intros [Hmod Hr]. unfold formatZone.
  destruct (Z.eqb_spec off 0) as [-> | Hne]; [done |].
  set (zone := Z.quot off 60).
  assert (Hoff : off = 60 * zone).
  { unfold zone. pose proof (Z.quot_rem off 60 ltac:(lia)) as Hqr.
    apply Z.rem_mod_eq_0 in Hmod; lia. }
  assert (Hz : -1440 < zone < 1440 /\ zone <> 0) by lia.
  set (a := Z.abs zone).
  assert (Ha : 0 < a < 1440) by lia.
  assert (Hq : Z.quot a 60 = a / 60) by (apply Z.quot_div_nonneg; lia).
  assert (Hm : Z.rem a 60 = a mod 60) by (apply Z.rem_mod_nonneg; lia).
  rewrite Hq, Hm.
  pose proof (Z.div_mod a 60 ltac:(lia)) as Ediv.
  pose proof (Z.mod_pos_bound a 60 ltac:(lia)) as Bmod.
  assert (Bdiv : 0 <= a / 60 <= 23) by lia.
  pose proof (appendInt_isField (a / 60) 2 ltac:(lia) ltac:(simpl; lia)
                ltac:(unfold maxUint64; lia)) as Fh.
  pose proof (appendInt_isField (a mod 60) 2 ltac:(lia) ltac:(simpl; lia)
                ltac:(unfold maxUint64; lia)) as Fm.
  destruct (string_length_2 _ (proj1 Fh)) as (h0 & h1 & Eh).
  destruct (string_length_2 _ (proj1 Fm)) as (m0 & m1 & Em).
  rewrite Eh, Em in *.
  destruct (Z.ltb_spec zone 0) as [Hneg | Hpos]; cbn [String.append];
    unfold parseFraction, parseZone;
    rewrite (parseField_2 _ _ (a / 60)) by (done || lia);
    rewrite (parseField_2 _ _ (a mod 60)) by (done || lia).
  - rewrite (bool_decide_eq_false_2 ("-"%char = "."%char)) by done.
    split; [done |]. rewrite (bool_decide_eq_true_2 ("-"%char = "-"%char)) by done.
    rewrite (bool_decide_eq_true_2 (":"%char = ":"%char)) by done.
    cbn [orb andb]. f_equal. lia.
  - rewrite (bool_decide_eq_false_2 ("+"%char = "."%char)) by done.
    split; [done |]. rewrite (bool_decide_eq_false_2 ("+"%char = "-"%char)) by done.
    rewrite (bool_decide_eq_true_2 ("+"%char = "+"%char)) by done.
    rewrite (bool_decide_eq_true_2 (":"%char = ":"%char)) by done.
    cbn [orb andb]. f_equal. lia.
Qed.

(** A time that the layout can show is read back as written, to the
    second. *)
Lemma Parse_formatRFC3339 (t : Time) :
  validStamp t -> Parse (formatRFC3339 t) = inr (truncSecond t).
Proof.
  intros [Hyear Hzone]. unfold Parse, formatRFC3339.
  unfold yearOf in Hyear.
  pose proof (dateOfDay_spec (absSeconds t / secondsPerDay)) as Hdate.
  unfold dateOfDay in *.
  destruct (yearOfDay (absSeconds t / secondsPerDay)) as [year yday].
  simpl in Hyear. destruct Hdate as (Hm & Hd & Hday).
  set (month := monthOf (isLeap year) yday) in *.
  set (day := yday - daysBefore (isLeap year) month + 1) in *.
  set (sod := absSeconds t mod secondsPerDay).
  assert (Hsod : 0 <= sod < 86400) by (apply Z.mod_pos_bound; done).
  destruct (clock_spec sod Hsod) as (Hh & Hi & Hs & Hsum).
  destruct (formatZone_parse _ Hzone) as [Hfrac Hpz].
  pose proof (daysIn_le month year Hm) as Hdays.
  rewrite (parseRFC3339_fields _ _ _ _ _ _ _ year month day (sod / 3600)
             (sod / 60 mod 60) (sod mod 60) (zoneOffset t));
    try done; try (apply appendInt_isField; simpl; unfold maxUint64; lia).
  f_equal. unfold truncSecond. f_equal.
  rewrite Hday. unfold absSeconds, secondsPerDay in *.
  pose proof (Z.div_mod (unixSec t + zoneOffset t + unixEpochDay * 86400) 86400 ltac:(lia)).
  fold sod in H. lia.
Qed.

Lemma formatZone_chars (off : Z) : allChars stampChar (formatZone off) = true.
Proof.
  unfold formatZone. destruct (off =? 0); [done |].
  rewrite !allChars_append, !appendInt_chars.
  by destruct (Z.quot off 60 <? 0).
Qed.

Lemma formatRFC3339_chars (t : Time) : allChars stampChar (formatRFC3339 t) = true.
Proof.
  unfold formatRFC3339.
  destruct (dateOfDay (absSeconds t / secondsPerDay)) as [[year month] day].
  rewrite !allChars_append, !appendInt_chars, formatZone_chars. done.
Qed.

(** ** The record *)

Lemma splitByte_encodeRecord (tokens : Z) (t : Time) :
  splitByte pipe (encodeRecord tokens t) = [Itoa tokens; formatRFC3339 t].
Proof.
  unfold encodeRecord. cbn [String.append]. apply splitByte_two.
  - eapply allChars_mono; [apply numberChar_not_pipe | apply Itoa_chars].
  - eapply allChars_mono; [apply stampChar_not_pipe | apply formatRFC3339_chars].
Qed.

(** What was written is read back with its tokens, when it is read back
    at all. *)
Lemma decodeRecord_encodeRecord_tokens (tokens : Z) (t : Time) :
  inInt64 tokens ->
  decodeRecord (encodeRecord tokens t)
  = match Parse (formatRFC3339 t) with
    | inl err => inl err
    | inr t' => inr (tokens, t')
    end.
Proof.
  intros Hi. unfold decodeRecord.
  by rewrite splitByte_encodeRecord, Atoi_Itoa.
Qed.

Lemma decodeRecord_encodeRecord (tokens : Z) (t : Time) :
  inInt64 tokens -> validStamp t ->
  decodeRecord (encodeRecord tokens t) = inr (tokens, truncSecond t).
Proof.
  intros Hi Ht.
  by rewrite decodeRecord_encodeRecord_tokens, Parse_formatRFC3339.
Qed.

(** ** The bucket *)

Lemma NewRedisBucketWithClient_wf (cfg : BucketConfigs) (c : option Client) :
  inInt64 (Capability cfg) -> inInt64 (cfgDuration cfg) -> inInt64 (NewTokenAppendTime cfg) ->
  wfBucket (NewRedisBucketWithClient cfg c).
Proof.
  unfold inInt64, wfBucket, NewRedisBucketWithClient. intros Hc Hd Ha. simpl.
  change maxInt64 with 9223372036854775807 in *.
  change MaxTokensCapDefault with 10. change DurationDefault with 1800000000000.
  change NewTokenAppendTimeDefault with 10000000000.
  destruct (Z.leb_spec (Capability cfg) 0), (Z.leb_spec (cfgDuration cfg) 0),
    (Z.leb_spec (NewTokenAppendTime cfg) 0); lia.
Qed.

Lemma Since_exact (now t : Time) :
  minInt64 <= unixNano now - unixNano t <= maxInt64 ->
  Since now t = unixNano now - unixNano t.
Proof.
  intros H. unfold Since, Time_Sub.
  destruct (Z.ltb_spec maxInt64 (unixNano now - unixNano t)); [lia |].
  destruct (Z.ltb_spec (unixNano now - unixNano t) minInt64); [lia | done].
Qed.

Lemma Since_range (now t : Time) : inInt64 (Since now t).
Proof.
  unfold Since, Time_Sub, inInt64.
  change maxInt64 with 9223372036854775807. change minInt64 with (-9223372036854775808).
  destruct (Z.ltb_spec 9223372036854775807 (unixNano now - unixNano t)); [lia |].
  destruct (Z.ltb_spec (unixNano now - unixNano t) (-9223372036854775808)); lia.
Qed.

(** The refill when the interval has passed, in numbers. *)
Lemma refill_passed (b : RedisBucket) (tokens : Z) (t : Time) (w : world) :
  wfBucket b -> tokens < cap b -> cap b - tokens <= maxInt64 ->
  tokenAppendTime b <= Since (clock w (ticks w)) t ->
  let add := Z.min (Since (clock w (ticks w)) t / tokenAppendTime b) (cap b - tokens) in
  1 <= add
  /\ refill b tokens t w
     = if tokens + add =? cap b
       then (inr (cap b, clock w (S (ticks w))), advance 2 w)
       else (inr (tokens + add, Time_Add t (add * tokenAppendTime b)), advance 1 w).
Proof.
  intros (Hcap & Hta & _) Hlt Hdiff Hp. simpl.
  pose proof (Since_range (clock w (ticks w)) t) as Hr.
  set (p := Since (clock w (ticks w)) t) in *.
  unfold inInt64 in Hr. change minInt64 with (-9223372036854775808) in *.
  change maxInt64 with 9223372036854775807 in *.
  assert (Hq : 1 <= p / tokenAppendTime b <= p).
  { split; [apply Z.div_le_lower_bound; lia |].
    apply Z.div_le_upper_bound; [lia |]. nia. }
  assert (Hmul : p / tokenAppendTime b * tokenAppendTime b <= p).
  { pose proof (Z.mul_div_le p (tokenAppendTime b) ltac:(lia)). lia. }
  set (add := Z.min (p / tokenAppendTime b) (cap b - tokens)).
  assert (Hadd : 1 <= add <= p / tokenAppendTime b) by lia.
  split; [lia |].
  unfold refill. destruct (Z.ltb_spec tokens (cap b)); [| lia].
  munfold. fold p. destruct (Z.leb_spec (tokenAppendTime b) p); [| lia].
  unfold quo64, sub64, add64, mul64.
  rewrite (Z.quot_div_nonneg p) by lia.
  rewrite (wrap64_small (p / tokenAppendTime b))
    by (unfold inInt64, minInt64, maxInt64; lia).
  rewrite (wrap64_small (cap b - tokens)) by (unfold inInt64, minInt64, maxInt64; lia).
  fold add.
  rewrite (wrap64_small (tokens + add)) by (unfold inInt64, minInt64, maxInt64; lia).
  destruct (Z.eqb_spec (tokens + add) (cap b)) as [-> | Hne]; [done |].
  rewrite wrap64_small; [done |].
  unfold inInt64, minInt64, maxInt64. nia.
Qed.

Lemma refill_early (b : RedisBucket) (tokens : Z) (t : Time) (w : world) :
  tokens < cap b -> Since (clock w (ticks w)) t < tokenAppendTime b ->
  refill b tokens t w = (inr (tokens, t), advance 1 w).
Proof.
  intros Hlt Hp. unfold refill. destruct (Z.ltb_spec tokens (cap b)); [| lia].
  munfold.
  destruct (Z.leb_spec (tokenAppendTime b) (Since (clock w (ticks w)) t)); [lia | done].
Qed.

Lemma refill_full (b : RedisBucket) (tokens : Z) (t : Time) (w : world) :
  cap b <= tokens -> refill b tokens t w = (inr (tokens, t), w).
Proof.
  intros Hge. unfold refill. destruct (Z.ltb_spec tokens (cap b)); [lia | done].
Qed.

Lemma parseUintLoop_range (s : string) :
  forall n un : Z, 0 <= n <= maxUint64 -> parseUintLoop s n = inr un -> 0 <= un <= maxUint64.
Proof.
  induction s as [|c s IH]; intros n un Hn; simpl.
  - by intros [= <-].
  - destruct (isDigit c) eqn:Hc; [| done].
    destruct (uintCutoff <=? n); [done |].
    destruct (Z.ltb_spec maxUint64 (n * 10 + digitVal c)); [done |].
    apply IH. pose proof (isDigit_bounds c Hc). lia.
Qed.

Lemma Atoi_range (s : string) (n : Z) : Atoi s = inr n -> inInt64 n.
Proof.
  unfold Atoi. destruct (ParseInt s) as [e | m] eqn:HP; [done |]. intros [= ->].
  unfold ParseInt in HP. destruct s as [|c s]; [done |]. cbv zeta in HP.
  match type of HP with context [ParseUint ?x] => set (body := x) in * end.
  destruct (ParseUint body) as [e | un] eqn:HU; [done |].
  assert (Hun : 0 <= un <= maxUint64).
  { unfold ParseUint in HU. destruct body; [done |].
    eapply parseUintLoop_range; [| exact HU]. unfold maxUint64. lia. }
  unfold inInt64, minInt64, maxInt64.
  destruct (bool_decide (c = "-"%char)); simpl in HP.
  - destruct (Z.ltb_spec (2 ^ 63) un); [done |]. injection HP as <-. lia.
  - destruct (Z.leb_spec (2 ^ 63) un); [done |]. injection HP as <-. lia.
Qed.

Lemma decodeRecord_range (r : string) (tokens : Z) (t : Time) :
  decodeRecord r = inr (tokens, t) -> inInt64 tokens.
Proof.
  unfold decodeRecord. destruct (splitByte pipe r) as [|d0 [|d1 [|d2 ds]]]; try done.
  destruct (Atoi d0) as [e | n] eqn:HA; [done |].
  destruct (Parse d1); [done |]. intros [= <- _]. by apply Atoi_range in HA.
Qed.

(** The tokens after a refill: no fewer, and within the capacity when
    they were. *)
Lemma refill_tokens (b : RedisBucket) (tokens : Z) (t : Time) (w w' : world)
    (tokens' : Z) (t' : Time) :
  wfBucket b -> inInt64 tokens ->
  refill b tokens t w = (inr (tokens', t'), w') ->
  inInt64 tokens' /\ (0 <= tokens <= cap b -> tokens <= tokens' <= cap b).
Proof.
  intros Hwf Hi. destruct (Z.lt_ge_cases tokens (cap b)) as [Hlt | Hge].
  - destruct (Z.lt_ge_cases (Since (clock w (ticks w)) t) (tokenAppendTime b)) as [Hp | Hp].
    + rewrite refill_early by done. intros [= <- <- <-]. split; [done | lia].
    + destruct (Z.le_gt_cases (cap b - tokens) maxInt64) as [Hd | Hd].
      * destruct (refill_passed b tokens t w Hwf Hlt Hd Hp) as [Hadd ->].
        destruct Hwf as (Hcap & _).
        destruct (Z.eqb_spec (tokens
                    + Z.min (Since (clock w (ticks w)) t / tokenAppendTime b) (cap b - tokens))
                    (cap b)); intros [= <- <- <-].
        -- split; [unfold inInt64, minInt64; lia | lia].
        -- unfold inInt64 in *. split; lia.
      * (* the difference does not fit: the tokens are far below zero *)
        unfold refill. destruct (Z.ltb_spec tokens (cap b)); [| lia]. munfold.
        destruct (Z.leb_spec (tokenAppendTime b) (Since (clock w (ticks w)) t)); [| lia].
        match goal with |- context [if ?c then _ else _] => destruct c end;
          intros [= <- <- <-]; (split; [apply wrap64_range |]);
          destruct Hwf as (Hcap & _); unfold maxInt64 in *; lia.
  - rewrite refill_full by lia. intros [= <- <- <-]. split; [done | lia].
Qed.

(** ** The commands *)

Lemma send_eq {A : Type} (c : command) (run : redis -> redis * (error + A)) (w : world) :
  send c run w
  = match fault w (List.length (sent w)) with
    | Some msg =>
        (inl (StoreError msg),
         if lost w (List.length (sent w))
         then setServer (afterSend c w) (fst (run (served w)))
         else afterSend c w)
    | None => (snd (run (served w)), setServer (afterSend c w) (fst (run (served w))))
    end.
Proof.
  unfold send, afterSend, served, setServer. simpl.
  destruct (fault w (List.length (sent w))); [| done].
  by destruct (lost w (List.length (sent w))).
Qed.

Lemma setServer_same (w : world) (c : command) :
  setServer (afterSend c w) (served w) = afterSend c w.
Proof. done. Qed.

Lemma watchKey_eq (key : string) (w : world) :
  watchKey key w
  = (match fault w (List.length (sent w)) with
     | Some msg => inl (StoreError msg)
     | None => inr (mkTx key (revOf key (served w)))
     end, afterSend (CmdWatch key) w).
Proof.
  unfold watchKey. rewrite send_eq. simpl. rewrite setServer_same.
  destruct (fault w (List.length (sent w))); [| done].
  by destruct (lost w (List.length (sent w))).
Qed.

Lemma txGet_eq (key : string) (w : world) :
  txGet key w
  = (match fault w (List.length (sent w)) with
     | Some msg => inl (StoreError msg)
     | None =>
         match data (served w) !! key with
         | Some e => inr (value e)
         | None => inl RedisNil
         end
     end, afterSend (CmdGet key) w).
Proof.
  unfold txGet. rewrite send_eq. simpl. rewrite setServer_same.
  destruct (fault w (List.length (sent w))); [| done].
  by destruct (lost w (List.length (sent w))).
Qed.

(** The EXEC. When it fails, the server has written all the same if the
    reply was lost and the key had not been written since the WATCH. *)
Lemma txPipelinedSet_eq (tx : Tx) (key val : string) (expiry : Duration) (w : world) :
  txPipelinedSet tx key val expiry w
  = match fault w (List.length (sent w)) with
    | Some msg =>
        (inl (StoreError msg),
         if lost w (List.length (sent w))
            && bool_decide (revOf (watched tx) (served w) = seen tx)
         then setServer (afterSend (CmdExecSet key val expiry) w)
                (redisWrite (served w) (key, Some (mkEntry val expiry)))
         else afterSend (CmdExecSet key val expiry) w)
    | None =>
        if bool_decide (revOf (watched tx) (served w) = seen tx)
        then (inr tt, setServer (afterSend (CmdExecSet key val expiry) w)
                        (redisWrite (served w) (key, Some (mkEntry val expiry))))
        else (inl TxFailedErr, afterSend (CmdExecSet key val expiry) w)
    end.
Proof.
  unfold txPipelinedSet. rewrite send_eq.
  destruct (fault w (List.length (sent w))).
  - destruct (lost w (List.length (sent w))); [| done]. by case_bool_decide.
  - by case_bool_decide.
Qed.

Lemma refill_world (b : RedisBucket) (tokens : Z) (t : Time) (w : world) :
  exists tokens' t' k,
    refill b tokens t w = (inr (tokens', t'), advance k w) /\ (k <= 2)%nat.
Proof.
  unfold refill. munfold.
  destruct (tokens <? cap b);
    [| exists tokens, t, 0%nat; destruct w; split; [reflexivity | lia]].
  destruct (tokenAppendTime b <=? Since (clock w (ticks w)) t);
    [| exists tokens, t, 1%nat; split; [reflexivity | lia]].
  match goal with |- context [if ?c then _ else _] => destruct c end.
  - eexists _, _, 2%nat. split; [reflexivity | lia].
  - eexists _, _, 1%nat. split; [reflexivity | lia].
Qed.

(** The first part of the callback, case by case. *)
Lemma walkRead_eq (b : RedisBucket) (ip : string) (w : world) :
  walkRead b ip w
  = match fault w (List.length (sent w)) with
    | Some msg => (inl (StoreError msg), afterSend (CmdGet (keyOf ip)) w)
    | None =>
        match data (served w) !! keyOf ip with
        | None => (inr (cap b, clock w (ticks w)), advance 1 (afterSend (CmdGet (keyOf ip)) w))
        | Some e =>
            match decodeRecord (value e) with
            | inl err => (inl err, afterSend (CmdGet (keyOf ip)) w)
            | inr (tokens, t) =>
                match refill b tokens t (afterSend (CmdGet (keyOf ip)) w) with
                | (inr (tokens', t'), w') =>
                    if tokens' <=? 0 then (inl ErrNoTokensAwailable, w')
                    else (inr (tokens', t'), w')
                | (inl err, w') => (inl err, w')
                end
            end
        end
    end.
Proof.
  unfold walkRead. munfold. rewrite txGet_eq.
  destruct (fault w (List.length (sent w))); [done |].
  destruct (data (served w) !! keyOf ip) as [e |]; [| done].
  destruct (decodeRecord (value e)) as [err | [tokens t]]; [done |].
  destruct (refill b tokens t (afterSend (CmdGet (keyOf ip)) w)) as [[err | [tokens' t']] w'];
    [done |].
  by destruct (tokens' <=? 0).
Qed.

(** ** The errors *)

Lemma parseUintLoop_error (s : string) (n : Z) (e : error) :
  parseUintLoop s n = inl e -> e = ErrSyntax \/ e = ErrRange.
Proof.
  revert n. induction s as [|c s IH]; intros n; simpl; [done |].
  destruct (isDigit c); [| intros [= <-]; by left].
  destruct (uintCutoff <=? n); [intros [= <-]; by right |].
  destruct (maxUint64 <? n * 10 + digitVal c); [intros [= <-]; by right |].
  apply IH.
Qed.

Lemma ParseInt_error (s : string) (e : error) :
  ParseInt s = inl e -> e = ErrSyntax \/ e = ErrRange.
Proof.
  unfold ParseInt. destruct s as [|c s]; [intros [= <-]; by left |].
  cbv zeta.
  match goal with |- context [ParseUint ?x] => set (body := x) end.
  destruct (ParseUint body) as [e' | un] eqn:HP.
  - intros [= <-]. unfold ParseUint in HP. destruct body; [injection HP as <-; by left |].
    by apply parseUintLoop_error in HP.
  - repeat match goal with |- context [if ?c then _ else _] => destruct c end;
      intros [= <-]; by right.
Qed.

Lemma Atoi_error (s : string) (e : error) :
  Atoi s = inl e -> exists k, e = NumError "Atoi" s k /\ (k = ErrSyntax \/ k = ErrRange).
Proof.
  unfold Atoi. destruct (ParseInt s) as [k |] eqn:HP; [| done].
  intros [= <-]. apply ParseInt_error in HP. eauto.
Qed.

Lemma Parse_error (value : string) (e : error) :
  Parse value = inl e -> e = ParseError RFC3339 value.
Proof.
  unfold Parse. destruct (parseRFC3339 value); [done |].
  destruct (parse value); [done |]. by intros [= <-].
Qed.

(** The errors of decoding: a separator too few or too many, a number
    that is none, a time that is none. *)
Lemma decodeRecord_error (r : string) (e : error) :
  decodeRecord r = inl e ->
  (countByte pipe r <> 1%nat /\ e = ErrBadSyntaxInStorage)
  \/ (countByte pipe r = 1%nat
      /\ exists d0 d1, splitByte pipe r = [d0; d1]
         /\ ((exists k, Atoi d0 = inl e /\ e = NumError "Atoi" d0 k
                        /\ (k = ErrSyntax \/ k = ErrRange))
             \/ (exists n, Atoi d0 = inr n /\ Parse d1 = inl e
                           /\ e = ParseError RFC3339 d1))).
Proof.
  unfold decodeRecord. pose proof (length_splitByte pipe r) as Hlen.
  destruct (splitByte pipe r) as [|d0 [|d1 [|d2 ds]]]; simpl in Hlen;
    try (intros [= <-]; left; split; [lia | done]).
  intros H. right. split; [lia |]. exists d0, d1. split; [done |].
  destruct (Atoi d0) as [e0 | n] eqn:HA.
  - injection H as <-. left. destruct (Atoi_error _ _ HA) as (k & -> & Hk). eauto.
  - right. exists n. split; [done |].
    destruct (Parse d1) as [e1 |] eqn:HP; [| done]. injection H as <-.
    split; [done |]. by apply Parse_error in HP.
Qed.

(** None of them is one of the errors that [Walk] asks about. *)
Lemma decodeRecord_error_Is (r : string) (e : error) :
  decodeRecord r = inl e ->
  errors_Is e TxFailedErr = false /\ errors_Is e ErrNoTokensAwailable = false
  /\ errors_Is e RedisNil = false.
Proof.
  intros H. destruct (decodeRecord_error r e H)
    as [[_ ->] | (_ & d0 & d1 & _ & [(k & _ & -> & [-> | ->]) | (n & _ & _ & ->)])]; done.
Qed.

(** ** One round of the loop *)

Lemma arrivals_one (w : world) (n : nat) : arrivals w n 1 = others w n.
Proof. unfold arrivals. simpl. by rewrite app_nil_r. Qed.

Lemma arrivals_S (w : world) (n k : nat) :
  arrivals w n (S k) = others w n ++ arrivals w (S n) k.
Proof. reflexivity. Qed.

Lemma arrivals_add (w : world) (n k1 k2 : nat) :
  arrivals w n (k1 + k2) = arrivals w n k1 ++ arrivals w (n + k1) k2.
Proof.
  revert n. induction k1 as [|k1 IH]; intros n.
  - simpl. by rewrite Nat.add_0_r.
  - change (S k1 + k2)%nat with (S (k1 + k2)). rewrite !arrivals_S, IH.
    rewrite <- app_assoc. by rewrite Nat.add_succ_r.
Qed.

Lemma arrivals_env (w w' : world) (n k : nat) :
  sameEnv w w' -> arrivals w' n k = arrivals w n k.
Proof. intros (_ & _ & Ho & _). unfold arrivals. by rewrite Ho. Qed.

Lemma sameEnv_trans (w1 w2 w3 : world) : sameEnv w1 w2 -> sameEnv w2 w3 -> sameEnv w1 w3.
Proof. intros (? & ? & ? & ?) (? & ? & ? & ?). repeat split; congruence. Qed.

Lemma clientWatch_eq (b : RedisBucket) (ip : string) (w : world) :
  clientWatch (walkTx b ip) (keyOf ip) w
  = match fault w (List.length (sent w)) with
    | Some msg => (inl (StoreError msg), afterSend (CmdWatch (keyOf ip)) w)
    | None =>
        match walkRead b ip (afterSend (CmdWatch (keyOf ip)) w) with
        | (inl err, w2) => (inl err, w2)
        | (inr (tokens, t), w2) =>
            walkWrite b ip (mkTx (keyOf ip) (revOf (keyOf ip) (served w))) tokens t w2
        end
    end.
Proof.
  unfold clientWatch, walkTx. munfold. rewrite watchKey_eq.
  destruct (fault w (List.length (sent w))); [done |].
  by destruct (walkRead b ip (afterSend (CmdWatch (keyOf ip)) w)) as [[err | [tokens t]] w2].
Qed.

(** What a round read, when it read something to write from: the
    commands up to the read went through, and the clock was read. *)
Lemma walkRead_ok (b : RedisBucket) (ip : string) (w w2 : world) (tokens : Z) (t : Time) :
  walkRead b ip w = (inr (tokens, t), w2) ->
  fault w (List.length (sent w)) = None
  /\ (exists k, w2 = advance k (afterSend (CmdGet (keyOf ip)) w))
  /\ (data (served w) !! keyOf ip = None -> tokens = cap b /\ t = clock w (ticks w))
  /\ (forall e, data (served w) !! keyOf ip = Some e ->
        0 < tokens
        /\ exists tokens0 t0, decodeRecord (value e) = inr (tokens0, t0)
           /\ refill b tokens0 t0 (afterSend (CmdGet (keyOf ip)) w) = (inr (tokens, t), w2)).
Proof.
  rewrite walkRead_eq. destruct (fault w (List.length (sent w))); [done |].
  destruct (data (served w) !! keyOf ip) as [e |].
  - destruct (decodeRecord (value e)) as [err | [tokens0 t0]] eqn:Hdec; [done |].
    destruct (refill_world b tokens0 t0 (afterSend (CmdGet (keyOf ip)) w))
      as (tokens' & t' & k & Hr & _).
    rewrite Hr. destruct (Z.leb_spec tokens' 0); [done |]. intros [= -> -> <-].
    split; [done |]. split; [by exists k |]. split; [done |].
    intros e' [= <-]. split; [done |]. eauto.
  - intros [= <- <- <-].
    split; [done |]. split; [by exists 1%nat |]. split; [done | done].
Qed.

(** What a round did: it left the environment alone, sent commands, and
    wrote at most its own record over what the others wrote. *)
Lemma round_summary (b : RedisBucket) (ip : string) (w w' : world) (res : error + unit) :
  clientWatch (walkTx b ip) (keyOf ip) w = (res, w') ->
  sameEnv w w' /\ ipLookups w' = ipLookups w
  /\ exists cmds,
       sent w' = cmds ++ sent w
       /\ roundCommands b ip w cmds
       /\ let srv := foldl redisWrite (server w)
                      (arrivals w (List.length (sent w)) (List.length cmds)) in
          match res with
          | inr _ =>
              exists tokens t w2,
                walkRead b ip (afterSend (CmdWatch (keyOf ip)) w) = (inr (tokens, t), w2)
                /\ cmds = [CmdExecSet (keyOf ip) (encodeRecord (sub64 tokens 1) t) (dur b);
                           CmdGet (keyOf ip); CmdWatch (keyOf ip)]
                /\ server w'
                   = redisWrite srv
                       (keyOf ip, Some (mkEntry (encodeRecord (sub64 tokens 1) t) (dur b)))
          | inl e =>
              (server w' = srv
               \/ exists msg tokens t w2,
                    e = StoreError msg
                    /\ lost w (S (S (List.length (sent w)))) = true
                    /\ walkRead b ip (afterSend (CmdWatch (keyOf ip)) w) = (inr (tokens, t), w2)
                    /\ cmds = [CmdExecSet (keyOf ip) (encodeRecord (sub64 tokens 1) t) (dur b);
                               CmdGet (keyOf ip); CmdWatch (keyOf ip)]
                    /\ server w'
                       = redisWrite srv
                           (keyOf ip,
                            Some (mkEntry (encodeRecord (sub64 tokens 1) t) (dur b))))
              /\ (errors_Is e ErrNoTokensAwailable = true ->
                  cmds = [CmdGet (keyOf ip); CmdWatch (keyOf ip)])
              /\ (errors_Is e TxFailedErr = true ->
                  e = TxFailedErr
                  /\ exists val, cmds = [CmdExecSet (keyOf ip) val (dur b);
                                         CmdGet (keyOf ip); CmdWatch (keyOf ip)])
          end.
Proof.
  rewrite clientWatch_eq. set (key := keyOf ip). set (n := List.length (sent w)).
  assert (Hsrv2 : served (afterSend (CmdWatch key) w)
                  = foldl redisWrite (server w) (arrivals w n 2)).
  { unfold served at 1. simpl. fold n. change 2%nat with (1 + 1)%nat.
    rewrite arrivals_add, foldl_app, arrivals_one, arrivals_one.
    by rewrite Nat.add_1_r. }
  destruct (fault w n) as [msg |] eqn:Hf1.
  { intros [= <- <-]. repeat split; try done. exists [CmdWatch key].
    split; [done |]. split; [by left |]. simpl. rewrite arrivals_one.
    split; [by left | done]. }
  destruct (walkRead b ip (afterSend (CmdWatch key) w)) as [[err | [tokens t]] w2] eqn:Hrd.
  - (* nothing to write from *)
    intros [= <- <-]. rewrite walkRead_eq in Hrd. simpl List.length in Hrd.
    fold n key in Hrd. change (fault (afterSend (CmdWatch key) w)) with (fault w) in Hrd.
    assert (Hgoal : forall k,
      w2 = advance k (afterSend (CmdGet key) (afterSend (CmdWatch key) w)) ->
      (errors_Is err TxFailedErr = false) ->
      sameEnv w w2 /\ ipLookups w2 = ipLookups w
      /\ exists cmds, sent w2 = cmds ++ sent w
           /\ roundCommands b ip w cmds
           /\ server w2 = foldl redisWrite (server w) (arrivals w n (List.length cmds))
              /\ (errors_Is err ErrNoTokensAwailable = true -> cmds = [CmdGet key; CmdWatch key])
              /\ (errors_Is err TxFailedErr = true ->
                  err = TxFailedErr
                  /\ exists val, cmds = [CmdExecSet key val (dur b); CmdGet key; CmdWatch key])).
    { intros k -> HnotTx. repeat split; try done. exists [CmdGet key; CmdWatch key].
      split; [done |]. split; [right; by left |].
      repeat split; try done; congruence. }
    destruct (fault w (S n)) as [msg |].
    { injection Hrd as <- <-. round_read_error (Hgoal 0%nat eq_refl eq_refl). }
    destruct (data (served (afterSend (CmdWatch key) w)) !! key) as [e |]; [| done].
    destruct (decodeRecord (value e)) as [err0 | [tokens0 t0]] eqn:Hdec.
    { injection Hrd as <- <-.
      destruct (decodeRecord_error_Is _ _ Hdec) as (H1 & _).
      round_read_error (Hgoal 0%nat eq_refl H1). }
    destruct (refill_world b tokens0 t0 (afterSend (CmdGet key) (afterSend (CmdWatch key) w)))
      as (tokens' & t' & k & Hr & _).
    rewrite Hr in Hrd. destruct (tokens' <=? 0); [| done].
    injection Hrd as <- <-. round_read_error (Hgoal k eq_refl eq_refl).
  - (* the write *)
    destruct (walkRead_ok _ _ _ _ _ _ Hrd) as (Hf2 & [k ->] & _).
    simpl List.length in Hf2. fold n in Hf2.
    change (fault (afterSend (CmdWatch key) w)) with (fault w) in Hf2.
    unfold walkWrite. rewrite txPipelinedSet_eq. fold key.
    set (val := encodeRecord (sub64 tokens 1) t).
    set (wg := advance k (afterSend (CmdGet key) (afterSend (CmdWatch key) w))) in *.
    assert (Hsrv3 : served wg = foldl redisWrite (server w) (arrivals w n 3)).
    { unfold served at 1. simpl. fold n. fold (served (afterSend (CmdWatch key) w)).
      rewrite Hsrv2.
      change 3%nat with (2 + 1)%nat. rewrite (arrivals_add w n 2 1), foldl_app, arrivals_one.
      by rewrite Nat.add_comm. }
    change (fault wg) with (fault w). change (List.length (sent wg)) with (S (S n)).
    assert (Hcmds : roundCommands b ip w [CmdExecSet key val (dur b); CmdGet key; CmdWatch key]).
    { right. right. by exists tokens, t, wg. }
    destruct (fault w (S (S n))) as [msg |].
    { change (lost wg) with (lost w).
      destruct (lost w (S (S n))
                && bool_decide (revOf (watched (mkTx key (revOf key (served w)))) (served wg)
                                = seen (mkTx key (revOf key (served w))))) eqn:Hran.
      - apply andb_true_iff in Hran as [Hlost _].
        intros [= <- <-]. repeat split; try done.
        exists [CmdExecSet key val (dur b); CmdGet key; CmdWatch key].
        split; [done |]. split; [exact Hcmds |].
        split; [| done]. right. exists msg, tokens, t, wg.
        split; [done |]. split; [exact Hlost |]. split; [done |]. split; [done |].
        simpl. by rewrite <- Hsrv3.
      - intros [= <- <-]. repeat split; try done.
        exists [CmdExecSet key val (dur b); CmdGet key; CmdWatch key].
        split; [done |]. split; [exact Hcmds |]. split; [by left | done]. }
    case_bool_decide.
    + intros [= <- <-]. repeat split; try done.
      exists [CmdExecSet key val (dur b); CmdGet key; CmdWatch key].
      split; [done |]. split; [exact Hcmds |]. simpl. exists tokens, t, wg. repeat split.
      by rewrite <- Hsrv3.
    + intros [= <- <-]. repeat split; try done.
      exists [CmdExecSet key val (dur b); CmdGet key; CmdWatch key].
      split; [done |]. split; [exact Hcmds |].
      split; [by left |]. split; [done |]. intros _. split; [done |]. by exists val.
Qed.

(** What the first part of the callback hands to the write: at least a
    token, and within the capacity when the record read was. *)
Lemma walkRead_tokens (b : RedisBucket) (ip : string) (w w2 : world) (tokens : Z) (t : Time) :
  wfBucket b -> walkRead b ip w = (inr (tokens, t), w2) ->
  1 <= tokens <= maxInt64
  /\ ((forall e tokens0 t0, data (served w) !! keyOf ip = Some e ->
         decodeRecord (value e) = inr (tokens0, t0) -> 0 <= tokens0 <= cap b) ->
      tokens <= cap b).
Proof.
  intros Hwf Hrd. destruct (walkRead_ok _ _ _ _ _ _ Hrd) as (_ & _ & Hnone & Hsome).
  destruct (data (served w) !! keyOf ip) as [e |] eqn:Hdata.
  - destruct (Hsome e eq_refl) as (Hpos & tokens0 & t0 & Hdec & Hr).
    destruct (refill_tokens b tokens0 t0 _ _ _ _ Hwf (decodeRecord_range _ _ _ Hdec) Hr)
      as [Hi Hb].
    unfold inInt64 in Hi. split; [lia |]. intros Hgood.
    specialize (Hgood e tokens0 t0 eq_refl Hdec). lia.
  - destruct (Hnone eq_refl) as [-> _]. destruct Hwf as (Hcap & _). split; lia.
Qed.

(** ** The loop *)

(** What a call did, over all its rounds: only the last round can have
    written, and rounds before it ended on [redis.TxFailedErr]. *)
Lemma walkLoop_summary (fuel : nat) (b : RedisBucket) (ip : string) :
  forall (w w' : world) (r : option error),
    walkLoop fuel b ip w = Some (r, w') ->
    sameEnv w w' /\ ipLookups w' = ipLookups w
    /\ exists cmds,
         sent w' = cmds ++ sent w
         /\ let srv := foldl redisWrite (server w)
                        (arrivals w (List.length (sent w)) (List.length cmds)) in
            match r with
            | None =>
                exists tokens t w1 w2 older,
                  sent w1 = older ++ sent w /\ sameEnv w w1
                  /\ walkRead b ip (afterSend (CmdWatch (keyOf ip)) w1) = (inr (tokens, t), w2)
                  /\ cmds = CmdExecSet (keyOf ip) (encodeRecord (sub64 tokens 1) t) (dur b)
                            :: CmdGet (keyOf ip) :: CmdWatch (keyOf ip) :: older
                  /\ server w'
                     = redisWrite srv
                         (keyOf ip, Some (mkEntry (encodeRecord (sub64 tokens 1) t) (dur b)))
            | Some e =>
                (server w' = srv
                 \/ exists msg val older,
                      e = StoreError msg
                      /\ lost w (List.length (sent w') - 1) = true
                      /\ cmds = CmdExecSet (keyOf ip) val (dur b) :: older
                      /\ server w' = redisWrite srv (keyOf ip, Some (mkEntry val (dur b))))
                /\ errors_Is e TxFailedErr = false
                /\ (errors_Is e ErrNoTokensAwailable = true ->
                    exists older, cmds = CmdGet (keyOf ip) :: CmdWatch (keyOf ip) :: older)
            end.
Proof.
  induction fuel as [|f IH]; intros w w' r; simpl; [done |].
  destruct (clientWatch (walkTx b ip) (keyOf ip) w) as [res w1] eqn:Hround.
  destruct (round_summary b ip w w1 res Hround) as (Henv & Hip & cmds & Hsent & _ & Hres).
  destruct res as [err | []].
  - destruct Hres as (Hsrv & Hno & Htx).
    destruct (errors_Is err TxFailedErr) eqn:HisTx; simpl.
    + (* another round *)
      destruct Hsrv as [Hsrv | (msg & ? & ? & ? & -> & _)]; [| done].
      intros Hloop. destruct (IH w1 w' r Hloop) as (Henv' & Hip' & cmds' & Hsent' & Hres').
      split; [by eapply sameEnv_trans |]. split; [congruence |].
      exists (cmds' ++ cmds). split; [by rewrite Hsent', Hsent, app_assoc |].
      assert (Hsrv' : foldl redisWrite (server w1)
                        (arrivals w1 (List.length (sent w1)) (List.length cmds'))
                      = foldl redisWrite (server w)
                          (arrivals w (List.length (sent w)) (List.length (cmds' ++ cmds)))).
      { rewrite Hsrv, (arrivals_env w w1) by done.
        rewrite Hsent, !length_app, (Nat.add_comm (List.length cmds')).
        rewrite (arrivals_add w _ (List.length cmds) (List.length cmds')), foldl_app.
        by rewrite (Nat.add_comm (List.length (sent w))). }
      cbv zeta in *. rewrite <- Hsrv'. destruct r as [e |].
      * destruct Hres' as (Hs & Ht & Hn). split; [| split; [done |]].
        -- destruct Hs as [Hs | (msg & val & older & -> & Hlost & -> & Hs)]; [by left |].
           right. exists msg, val, (older ++ cmds). split; [done |].
           destruct Henv as (_ & _ & _ & Hl). rewrite <- Hl. done.
        -- intros He. destruct (Hn He) as [older ->]. by exists (older ++ cmds).
      * destruct Hres' as (tokens & t & w0 & w2 & older & Hs0 & He0 & Hrd & -> & Hs).
        exists tokens, t, w0, w2, (older ++ cmds).
        split; [by rewrite Hs0, Hsent, app_assoc |].
        split; [by eapply sameEnv_trans |]. done.
    + intros [= <- <-]. split; [done |]. split; [done |]. exists cmds.
      split; [done |]. cbv zeta. split; [| split; [done |]].
      * destruct Hsrv as [Hsrv | (msg & tokens & t & w2 & -> & Hlost & _ & -> & Hsrv)];
          [by left |].
        right. exists msg, (encodeRecord (sub64 tokens 1) t), [CmdGet (keyOf ip); CmdWatch (keyOf ip)].
        split; [done |]. split; [| done]. rewrite Hsent. simpl.
        rewrite ?Nat.sub_0_r. exact Hlost.
      * intros He. rewrite (Hno He). by exists [].
  - intros [= <- <-]. split; [done |]. split; [done |]. exists cmds. split; [done |].
    destruct Hres as (tokens & t & w2 & Hrd & -> & Hsrv). cbv zeta.
    exists tokens, t, w, w2, []. by repeat split.
Qed.



Lemma arrivals_nil (w : world) (n k : nat) :
  (forall i, others w i = []) -> arrivals w n k = [].
Proof.
  intros Hq. unfold arrivals. revert n. induction k as [|k IH]; intros n; simpl; [done |].
  by rewrite Hq, IH.
Qed.

Lemma RedisBucket_Walk_loop (fuel : nat) (b : RedisBucket) (ctx : Context) (w : world) :
  core b <> None ->
  RedisBucket_Walk fuel b ctx w = walkLoop fuel b (ClientIP ctx) (lookedUp w).
Proof. intros Hc. unfold RedisBucket_Walk. by destruct (core b). Qed.

(** ** The bounds of the records *)

Lemma goodRedis_write (b : RedisBucket) (r : redis) (kv : string * option entry) :
  goodRedis b r -> goodWrite b kv -> goodRedis b (redisWrite r kv).
Proof.
  intros Hr Hkv. destruct kv as [key [e |]]; unfold goodRedis, redisWrite; simpl;
    intros key' e' Hl.
  - destruct (decide (key = key')) as [-> | Hne].
    + rewrite lookup_insert_eq in Hl. by injection Hl as <-.
    + rewrite lookup_insert_ne in Hl by done. by eapply Hr.
  - destruct (decide (key = key')) as [-> | Hne].
    + by rewrite lookup_delete_eq in Hl.
    + rewrite lookup_delete_ne in Hl by done. by eapply Hr.
Qed.

Lemma goodRedis_foldl (b : RedisBucket) (l : list (string * option entry)) :
  forall r, goodRedis b r -> Forall (goodWrite b) l -> goodRedis b (foldl redisWrite r l).
Proof.
  induction l as [|kv l IH]; intros r Hr Hl; simpl; [done |].
  inversion Hl; subst. apply IH; [by apply goodRedis_write | done].
Qed.

Lemma goodOthers_arrivals (b : RedisBucket) (w : world) (n k : nat) :
  goodOthers b w -> Forall (goodWrite b) (arrivals w n k).
Proof.
  intros Ho. revert n. induction k as [|k IH]; intros n.
  - constructor.
  - rewrite arrivals_S. apply Forall_app. split; [apply Ho | apply IH].
Qed.

Lemma goodOthers_env (b : RedisBucket) (w w' : world) :
  sameEnv w w' -> goodOthers b w -> goodOthers b w'.
Proof. intros (_ & _ & Ho & _) Hg n. rewrite Ho. apply Hg. Qed.

Lemma goodRedis_served (b : RedisBucket) (w : world) :
  goodRedis b (server w) -> goodOthers b w -> goodRedis b (served w).
Proof. intros Hr Ho. unfold served. by apply goodRedis_foldl. Qed.

(** What is read from good records is within the capacity. *)
Lemma walkRead_good (b : RedisBucket) (ip : string) (w w2 : world) (tokens : Z) (t : Time) :
  wfBucket b -> goodRedis b (served w) ->
  walkRead b ip w = (inr (tokens, t), w2) ->
  1 <= tokens <= cap b /\ goodRecord b (encodeRecord (sub64 tokens 1) t).
Proof.
  intros Hwf Hr Hrd. destruct (walkRead_tokens _ _ _ _ _ _ Hwf Hrd) as [Htok Hcap].
  assert (Hle : tokens <= cap b).
  { apply Hcap. intros e tokens0 t0 Hdata Hdec.
    destruct (Hr _ _ Hdata) as (n & t' & Hval & Hn).
    rewrite Hval, decodeRecord_encodeRecord_tokens in Hdec.
    - destruct (Parse (formatRFC3339 t')); [done |]. by injection Hdec as <- _.
    - destruct Hwf as (Hc & _). unfold inInt64, minInt64. lia. }
  split; [lia |]. exists (tokens - 1), t. split; [| lia].
  unfold sub64. rewrite wrap64_small; [done |].
  unfold inInt64, minInt64, maxInt64 in *. lia.
Qed.

(** A round keeps the records within their bounds. *)
Lemma round_good (b : RedisBucket) (ip : string) (w w' : world) (res : error + unit) :
  wfBucket b -> goodRedis b (server w) -> goodOthers b w -> Forall (goodCommand b) (sent w) ->
  clientWatch (walkTx b ip) (keyOf ip) w = (res, w') ->
  goodRedis b (server w') /\ goodOthers b w' /\ Forall (goodCommand b) (sent w').
Proof.
  intros Hwf Hr Ho Hs Hround.
  destruct (round_summary _ _ _ _ _ Hround) as (Henv & _ & cmds & Hsent & Hcmds & Hres).
  cbv zeta in Hres.
  assert (Hsrv : goodRedis b (foldl redisWrite (server w)
                                (arrivals w (List.length (sent w)) (List.length cmds)))).
  { apply goodRedis_foldl; [done | by apply goodOthers_arrivals]. }
  assert (Hw1 : goodRedis b (served (afterSend (CmdWatch (keyOf ip)) w))).
  { apply goodRedis_served; [by apply goodRedis_served | done]. }
  assert (Hgc : Forall (goodCommand b) cmds).
  { destruct Hcmds as [-> | [-> | (tokens & t & w2 & Hrd & ->)]]; repeat constructor.
    by destruct (walkRead_good _ _ _ _ _ _ Hwf Hw1 Hrd). }
  split; [| split].
  - destruct res as [err | u].
    { destruct Hres as ([-> | (msg & tokens & t & w2 & _ & _ & Hrd & _ & ->)] & _); [done |].
      apply goodRedis_write; [done |]. simpl.
      by destruct (walkRead_good _ _ _ _ _ _ Hwf Hw1 Hrd). }
    destruct Hres as (tokens & t & w2 & Hrd & _ & ->).
    apply goodRedis_write; [done |]. simpl.
    by destruct (walkRead_good _ _ _ _ _ _ Hwf Hw1 Hrd).
  - by eapply goodOthers_env.
  - rewrite Hsent. by apply Forall_app.
Qed.

Lemma walkLoop_good (fuel : nat) (b : RedisBucket) (ip : string) :
  forall (w w' : world) (r : option error),
    wfBucket b -> goodRedis b (server w) -> goodOthers b w ->
    Forall (goodCommand b) (sent w) ->
    walkLoop fuel b ip w = Some (r, w') ->
    goodRedis b (server w') /\ goodOthers b w' /\ Forall (goodCommand b) (sent w').
Proof.
  induction fuel as [|f IH]; intros w w' r Hwf Hr Ho Hs; simpl; [done |].
  destruct (clientWatch (walkTx b ip) (keyOf ip) w) as [res w1] eqn:Hround.
  destruct (round_good _ _ _ _ _ Hwf Hr Ho Hs Hround) as (Hr1 & Ho1 & Hs1).
  destruct res as [err | u].
  - destruct (errors_Is err TxFailedErr); simpl.
    + by apply IH.
    + by intros [= <- <-].
  - by intros [= <- <-].
Qed.

Lemma RedisBucket_Walk_good (fuel : nat) (b : RedisBucket) (ctx : Context)
    (w w' : world) (r : option error) :
  wfBucket b -> goodRedis b (server w) -> goodOthers b w ->
  Forall (goodCommand b) (sent w) ->
  RedisBucket_Walk fuel b ctx w = Some (r, w') ->
  goodRedis b (server w') /\ goodOthers b w' /\ Forall (goodCommand b) (sent w').
Proof.
  intros Hwf Hr Ho Hs. unfold RedisBucket_Walk. destruct (core b).
  - simpl. apply walkLoop_good; done.
  - by intros [= <- <-].
Qed.

(** ** Concurrent calls *)

Lemma setServer_id (w : world) : setServer w (server w) = w.
Proof. by destruct w. Qed.

Lemma runAlone_add (b : RedisBucket) (ip : string) (n1 n2 : nat) :
  forall p, runAlone b ip (n1 + n2) p = runAlone b ip n2 (runAlone b ip n1 p).
Proof. induction n1 as [|n1 IH]; intros p; simpl; [done | apply IH]. Qed.

(** A piece of a process on the server as the process left it. *)
Lemma processStep_alone (b : RedisBucket) (ip : string) (c : pc) (w : world) :
  (processStep b ip (server w) (mkProcess c w)).2
  = match c with
    | AtLoop =>
        match watchKey (keyOf ip) w with
        | (inr tx, w') => mkProcess (InTx tx) w'
        | (inl err, w') => mkProcess (afterError err) w'
        end
    | InTx tx =>
        match walkRead b ip w with
        | (inr (tokens, t), w') => mkProcess (Ready tx tokens t) w'
        | (inl err, w') => mkProcess (afterError err) w'
        end
    | Ready tx tokens t =>
        match walkWrite b ip tx tokens t w with
        | (inr _, w') => mkProcess (Returned None) w'
        | (inl err, w') => mkProcess (afterError err) w'
        end
    | Returned r => mkProcess c w
    end.
Proof.
  unfold processStep. cbn [at_ view]. rewrite setServer_id.
  destruct c as [| tx | tx tokens t | r]; [| | | done].
  - by destruct (watchKey (keyOf ip) w) as [[err | tx] w'].
  - by destruct (walkRead b ip w) as [[err | [tokens t]] w'].
  - by destruct (walkWrite b ip tx tokens t w) as [[err | u] w'].
Qed.

(** The pieces of a process are the pieces of a round of [Walk]. *)
Lemma round_runAlone (b : RedisBucket) (ip : string) (w w' : world) (res : error + unit) :
  clientWatch (walkTx b ip) (keyOf ip) w = (res, w') ->
  exists n,
    runAlone b ip n (mkProcess AtLoop w)
    = mkProcess (match res with
                 | inr _ => Returned None
                 | inl err => afterError err
                 end) w'.
Proof.
  unfold clientWatch, walkTx. munfold.
  destruct (watchKey (keyOf ip) w) as [[err | tx] w1] eqn:Hwatch.
  { intros [= <- <-]. exists 1%nat. cbn [runAlone view].
    by rewrite processStep_alone, Hwatch. }
  destruct (walkRead b ip w1) as [[err | [tokens t]] w2] eqn:Hread.
  { intros [= <- <-]. exists 2%nat. cbn [runAlone view].
    rewrite processStep_alone, Hwatch. cbn [view].
    by rewrite processStep_alone, Hread. }
  intros Hwrite. exists 3%nat. cbn [runAlone view].
  rewrite processStep_alone, Hwatch. cbn [view].
  rewrite processStep_alone, Hread. cbn [view].
  rewrite processStep_alone, Hwrite.
  by destruct res as [err | []].
Qed.

(** A call of [Walk] is a process running alone until it has returned. *)
Lemma walkLoop_runAlone (fuel : nat) (b : RedisBucket) (ip : string) :
  forall (w w' : world) (r : option error),
    walkLoop fuel b ip w = Some (r, w') ->
    exists n, runAlone b ip n (mkProcess AtLoop w) = mkProcess (Returned r) w'.
Proof.
  induction fuel as [|f IH]; intros w w' r; simpl; [done |].
  destruct (clientWatch (walkTx b ip) (keyOf ip) w) as [res w1] eqn:Hround.
  destruct (round_runAlone _ _ _ _ _ Hround) as [n1 Hn1].
  destruct res as [err | u].
  - unfold afterError in Hn1. destruct (errors_Is err TxFailedErr); simpl in *.
    + intros Hloop. destruct (IH _ _ _ Hloop) as [n2 Hn2].
      exists (n1 + n2)%nat. by rewrite runAlone_add, Hn1.
    + intros [= <- <-]. by exists n1.
  - intros [= <- <-]. by exists n1.
Qed.

#[local] Arguments redisWrite : simpl never.

Section Concurrent.
Context (b : RedisBucket) (ip : string) (start : Z) (rev0 : nat).
Context (Hwf : wfBucket b) (Hstart : start mod Second = 0).

Local Abbreviation key := (keyOf ip).

Lemma unixSec_truncSecond (c : Time) : unixSec (truncSecond c) = unixSec c.
Proof. unfold truncSecond, unixSec. simpl. by rewrite Z.div_mul. Qed.

Lemma quietTime_truncSecond (c : Time) :
  quietTime b start c -> quietTime b start (truncSecond c).
Proof using Hstart.
  intros [[Hlo Hhi] [Hyear Hzone]]. split; [| split].
  - unfold truncSecond, unixSec. simpl.
    pose proof (Z.div_mod (unixNano c) Second ltac:(done)) as Hdm.
    pose proof (Z.mod_pos_bound (unixNano c) Second ltac:(done)) as Hmb.
    pose proof (Z.div_mod start Second ltac:(done)) as Hsm. rewrite Hstart in Hsm.
    assert (start / Second <= unixNano c / Second) by (apply Z.div_le_mono; [done | lia]).
    change Second with 1000000000 in *. lia.
  - unfold yearOf, absSeconds in *. by rewrite unixSec_truncSecond.
  - done.
Qed.

Lemma Since_quiet (now t : Time) :
  quietTime b start now -> quietTime b start t -> Since now t < tokenAppendTime b.
Proof using Hwf.
  intros [[Hlo Hhi] _] [[Hlo' Hhi'] _]. destruct Hwf as (_ & Hta & _).
  rewrite Since_exact; [lia |]. unfold minInt64, maxInt64 in *. lia.
Qed.

Lemma served_quiet (v : world) (sh : redis) :
  quietView b start v -> served (setServer v sh) = sh.
Proof. intros (_ & Qo & _). unfold served. simpl. by rewrite Qo. Qed.

(** The pieces of a call in a quiet view. *)

Lemma step_AtLoop (sh : redis) (p : process) :
  at_ p = AtLoop -> quietView b start (view p) ->
  exists v',
    processStep b ip sh p = (sh, mkProcess (InTx (mkTx key (revOf key sh))) v')
    /\ quietView b start v'.
Proof.
  intros Hat Hq. unfold processStep. rewrite Hat, watchKey_eq.
  destruct Hq as (Qf & Qo & Qc). change (fault (setServer (view p) sh)) with (fault (view p)).
  rewrite Qf, (served_quiet _ _ (conj Qf (conj Qo Qc))). simpl.
  rewrite (served_quiet _ _ (conj Qf (conj Qo Qc))).
  eexists. split; [reflexivity |]. done.
Qed.

Lemma step_InTx_absent (sh : redis) (p : process) (tx : Tx) :
  at_ p = InTx tx -> quietView b start (view p) -> data sh !! key = None ->
  exists v' t,
    processStep b ip sh p = (sh, mkProcess (Ready tx (cap b) t) v')
    /\ quietView b start v' /\ quietTime b start t.
Proof.
  intros Hat Hq Hnone. unfold processStep. rewrite Hat, walkRead_eq.
  pose proof Hq as (Qf & Qo & Qc).
  change (fault (setServer (view p) sh)) with (fault (view p)).
  rewrite Qf, (served_quiet _ _ Hq). fold key. rewrite Hnone. simpl.
  rewrite (served_quiet _ _ Hq).
  eexists _, _. split; [reflexivity |]. split; [done | apply Qc].
Qed.

Lemma step_InTx_present (sh : redis) (p : process) (tx : Tx) (tokens : Z) (t : Time)
    (expiry : Duration) :
  at_ p = InTx tx -> quietView b start (view p) ->
  data sh !! key = Some (mkEntry (encodeRecord tokens t) expiry) ->
  0 <= tokens < cap b -> quietTime b start t ->
  exists v',
    processStep b ip sh p
    = (sh, mkProcess (if tokens <=? 0 then Returned (Some ErrNoTokensAwailable)
                      else Ready tx tokens (truncSecond t)) v')
    /\ quietView b start v'.
Proof using Hwf Hstart.
  intros Hat Hq Hsome Htok Ht. unfold processStep. rewrite Hat, walkRead_eq.
  pose proof Hq as (Qf & Qo & Qc).
  change (fault (setServer (view p) sh)) with (fault (view p)).
  rewrite Qf, (served_quiet _ _ Hq). fold key. rewrite Hsome. simpl value.
  rewrite decodeRecord_encodeRecord;
    [| destruct Hwf as (Hc & _); unfold inInt64, minInt64; lia | apply Ht].
  rewrite refill_early; [| lia |].
  - destruct (tokens <=? 0); simpl; rewrite (served_quiet _ _ Hq);
      (eexists; split; [reflexivity | done]).
  - simpl. apply Since_quiet; [apply Qc | by apply quietTime_truncSecond].
Qed.

Lemma step_Ready (sh : redis) (p : process) (tx : Tx) (tokens : Z) (t : Time) :
  at_ p = Ready tx tokens t -> quietView b start (view p) -> watched tx = key ->
  exists v',
    processStep b ip sh p
    = (if bool_decide (revOf key sh = seen tx)
       then (redisWrite sh (key, Some (mkEntry (encodeRecord (sub64 tokens 1) t) (dur b))),
             mkProcess (Returned None) (setServer v'
                (redisWrite sh (key, Some (mkEntry (encodeRecord (sub64 tokens 1) t) (dur b))))))
       else (sh, mkProcess AtLoop v'))
    /\ quietView b start v'.
Proof.
  intros Hat Hq Hw. unfold processStep. rewrite Hat. unfold walkWrite.
  rewrite txPipelinedSet_eq. pose proof Hq as (Qf & Qo & Qc).
  change (fault (setServer (view p) sh)) with (fault (view p)).
  rewrite Qf, (served_quiet _ _ Hq), Hw. fold key.
  exists (afterSend (CmdExecSet key (encodeRecord (sub64 tokens 1) t) (dur b))
            (setServer (view p) sh)).
  split; [| done]. case_bool_decide; simpl; [done |].
  by rewrite (served_quiet _ _ Hq).
Qed.
(** The ranks and the count in a list with one process set apart. *)

Lemma ranks_app (sh : redis) (l1 l2 : list process) :
  sum_list (List.map (rank key sh) (l1 ++ l2))
  = (sum_list (List.map (rank key sh) l1) + sum_list (List.map (rank key sh) l2))%nat.
Proof. induction l1 as [|q l1 IH]; simpl; [done | rewrite IH; lia]. Qed.

Lemma ranks_bump (sh sh' : redis) (l : list process) :
  (sum_list (List.map (rank key sh') l)
   <= sum_list (List.map (rank key sh) l) + 3 * List.length l)%nat.
Proof.
  induction l as [|q l IH]; simpl; [lia |].
  assert (rank key sh' q <= rank key sh q + 3)%nat; [| lia].
  unfold rank. destruct (at_ q); repeat case_bool_decide; lia.
Qed.

Lemma count_app (f : process -> bool) (l1 l2 : list process) (p : process) :
  List.length (List.filter f (l1 ++ p :: l2))
  = (List.length (List.filter f l1) + (if f p then 1 else 0)
     + List.length (List.filter f l2))%nat.
Proof.
  rewrite List.filter_app, length_app. simpl. destruct (f p); simpl; lia.
Qed.

Lemma revOf_write (sh : redis) (e : option entry) :
  revOf key (redisWrite sh (key, e)) = S (revOf key sh).
Proof. unfold redisWrite, revOf. simpl. by rewrite lookup_insert_eq. Qed.

Lemma commits_write (sh : redis) (e : option entry) :
  commits key rev0 (redisWrite sh (key, e)) = commits key rev0 sh + 1.
Proof. unfold commits. rewrite revOf_write. lia. Qed.

(** A write does not disturb the others: what they have seen is past. *)
Lemma procOK_write (sh : redis) (e : option entry) (q : process) :
  commits key rev0 sh < cap b ->
  procOK b key start rev0 sh q -> procOK b key start rev0 (redisWrite sh (key, e)) q.
Proof.
  intros Hlt [Hq Hat]. split; [done |]. rewrite revOf_write.
  destruct (at_ q) as [| tx | tx tokens t | [err |]]; try done.
  - destruct Hat as [Hw Hs]. split; [done | lia].
  - destruct Hat as (Hw & Hs & Ht & _).
    split; [done |]. split; [lia |]. split; [done |]. intros Heq. lia.
  - destruct Hat as [_ Hc]. lia.
Qed.

(** A step keeps the machine in order and brings its end nearer. *)
Lemma step_ok (sh : redis) (l1 l2 : list process) (p : process) :
  machineOK b ip start rev0 (mkMachine sh (l1 ++ p :: l2)) ->
  isReturned p = false ->
  machineOK b ip start rev0
    (mkMachine (fst (processStep b ip sh p)) (l1 ++ snd (processStep b ip sh p) :: l2))
  /\ (measure b key rev0
        (mkMachine (fst (processStep b ip sh p)) (l1 ++ snd (processStep b ip sh p) :: l2))
      < measure b key rev0 (mkMachine sh (l1 ++ p :: l2)))%nat.
Proof using Hwf Hstart.
  intros (Hstore & Hall & Hcount) Hnot. simpl in Hstore, Hall, Hcount.
  fold key in Hstore, Hall, Hcount |- *.
  apply Forall_app in Hall as [Hl1 Hp]. apply Forall_cons in Hp as [[Hq Hat] Hl2].
  unfold countReturned in Hcount. simpl in Hcount. rewrite count_app in Hcount.
  unfold machineOK, measure, countReturned. simpl shared. simpl procs. fold key.
  rewrite !count_app, !ranks_app, !length_app. simpl List.map. simpl sum_list.
  simpl List.length.
  assert (Hsame : forall (p' : process),
    procOK b key start rev0 sh p' -> returnedWith None p' = false ->
    (rank key sh p' < rank key sh p)%nat ->
    (storeOK b key start rev0 sh
     /\ Forall (procOK b key start rev0 sh) (l1 ++ p' :: l2)
     /\ Z.of_nat (List.length (List.filter (returnedWith None) l1)
                  + (if returnedWith None p' then 1 else 0)
                  + List.length (List.filter (returnedWith None) l2))
        = commits key rev0 sh)
    /\ (sum_list (List.map (rank key sh) l1)
        + (rank key sh p' + sum_list (List.map (rank key sh) l2))
        + 3 * (List.length l1 + S (List.length l2)) * Z.to_nat (cap b - commits key rev0 sh)
        < sum_list (List.map (rank key sh) l1)
          + (rank key sh p + sum_list (List.map (rank key sh) l2))
          + 3 * (List.length l1 + S (List.length l2))
            * Z.to_nat (cap b - commits key rev0 sh))%nat).
  { intros p' Hp' Hr' Hrank. split; [| lia]. split; [done |]. split.
    - apply Forall_app. split; [done |]. by apply Forall_cons.
    - rewrite Hr'. rewrite <- Hcount.
      assert (returnedWith None p = false) as ->; [| done].
      unfold returnedWith, isReturned in *. by destruct (at_ p). }
  destruct (at_ p) as [| tx | tx tokens t | r] eqn:Hpc;
    [| | | unfold isReturned in Hnot; by rewrite Hpc in Hnot].
  - (* WATCH *)
    destruct (step_AtLoop sh p Hpc Hq) as (v' & -> & Hq'). simpl fst. simpl snd.
    apply Hsame.
    + split; [done |]. simpl. done.
    + done.
    + unfold rank. simpl. rewrite Hpc. rewrite bool_decide_eq_true_2 by done. lia.
  - (* GET *)
    destruct Hat as [Hw Hs]. destruct Hstore as [Hc Hdata].
    destruct (data sh !! key) as [e |] eqn:Hlook.
    + destruct Hdata as (Hc1 & t & -> & Ht).
      destruct (step_InTx_present sh p tx (cap b - commits key rev0 sh) t (dur b)
                  Hpc Hq Hlook ltac:(lia) Ht) as (v' & -> & Hq').
      simpl fst. simpl snd.
      destruct (Z.leb_spec (cap b - commits key rev0 sh) 0) as [Hz | Hz].
      * apply Hsame; [| done |].
        -- split; [done |]. simpl. split; [done | lia].
        -- unfold rank. simpl. rewrite Hpc. case_bool_decide; lia.
      * apply Hsame; [| done |].
        -- split; [done |]. simpl. split; [done |]. split; [done |].
           split; [by apply quietTime_truncSecond |]. intros _. lia.
        -- unfold rank. simpl. rewrite Hpc. case_bool_decide; lia.
    + destruct (step_InTx_absent sh p tx Hpc Hq Hlook) as (v' & t & -> & Hq' & Ht).
      simpl fst. simpl snd. apply Hsame; [| done |].
      * split; [done |]. simpl. split; [done |]. split; [done |]. split; [done |].
        intros _. destruct Hwf as (Hcap & _). lia.
      * unfold rank. simpl. rewrite Hpc. case_bool_decide; lia.
  - (* EXEC *)
    destruct Hat as (Hw & Hs & Ht & Hfresh).
    destruct (step_Ready sh p tx tokens t Hpc Hq Hw) as (v' & -> & Hq').
    case_bool_decide as Hrev; simpl fst; simpl snd.
    + (* the write is done *)
      destruct (Hfresh (eq_sym Hrev)) as [Htok Hpos].
      destruct Hstore as [Hc Hdata].
      assert (Hsub : sub64 tokens 1 = cap b - (commits key rev0 sh + 1)).
      { unfold sub64. rewrite wrap64_small; [lia |].
        destruct Hwf as (Hcap & _). unfold inInt64, minInt64, maxInt64 in *. lia. }
      set (e := Some (mkEntry (encodeRecord (sub64 tokens 1) t) (dur b))).
      split; [split; [| split] |].
      * (* the record *)
        assert (Hd : data (redisWrite sh (key, e)) !! key
                     = Some (mkEntry (encodeRecord (sub64 tokens 1) t) (dur b))).
        { unfold redisWrite. simpl. apply lookup_insert_eq. }
        unfold storeOK. rewrite Hd, commits_write.
        split; [lia |]. split; [lia |]. exists t. by rewrite Hsub.
      * (* the processes *)
        apply Forall_app. split; [| apply Forall_cons; split].
        -- eapply Forall_impl; [exact Hl1 |]. intros q. apply procOK_write. lia.
        -- split; [| done]. simpl. by destruct Hq'.
        -- eapply Forall_impl; [exact Hl2 |]. intros q. apply procOK_write. lia.
      * (* the count *)
        rewrite commits_write.
        assert (returnedWith None p = false) as Hrp.
        { unfold returnedWith. by rewrite Hpc. }
        rewrite Hrp in Hcount.
        change (returnedWith None
                  (mkProcess (Returned None) (setServer v' (redisWrite sh (key, e)))))
          with true.
        cbv iota in Hcount |- *. lia.
      * (* the measure *)
        rewrite commits_write.
        pose proof (ranks_bump sh (redisWrite sh (key, e)) l1) as B1.
        pose proof (ranks_bump sh (redisWrite sh (key, e)) l2) as B2.
        unfold rank at 2. simpl at_. unfold rank at 4. rewrite Hpc.
        rewrite bool_decide_eq_true_2 by done.
        assert (HT : Z.to_nat (cap b - commits key rev0 sh)
                     = S (Z.to_nat (cap b - (commits key rev0 sh + 1)))) by lia.
        rewrite HT. nia.
    + (* the key was written meanwhile: round again *)
      apply Hsame; [| done |].
      * split; [done |]. simpl. done.
      * unfold rank. simpl. rewrite Hpc. rewrite bool_decide_eq_false_2 by done. lia.
Qed.
Lemma machineStep_ok (m m' : machine) :
  machineOK b ip start rev0 m -> machineStep b ip m m' ->
  machineOK b ip start rev0 m'
  /\ (measure b key rev0 m' < measure b key rev0 m)%nat
  /\ List.length (procs m') = List.length (procs m).
Proof using Hwf Hstart.
  intros Hok Hstep. destruct Hstep as [m i p Hi Hnot]. destruct m as [sh l]. simpl in *.
  assert (Hlt : (i < List.length l)%nat) by (by eapply lookup_lt_Some).
  rewrite insert_take_drop by done.
  rewrite <- (take_drop_middle l i p Hi) in Hok.
  destruct (step_ok sh (take i l) (drop (S i) l) p Hok Hnot) as [Hok' Hm].
  split; [exact Hok' |]. split.
  - by rewrite <- (take_drop_middle l i p Hi) at 3.
  - rewrite !length_app. simpl. rewrite <- (take_drop_middle l i p Hi) at 3.
    rewrite length_app. simpl. done.
Qed.

Lemma machineRun_ok (n : nat) (m m' : machine) :
  machineRun b ip n m m' -> machineOK b ip start rev0 m ->
  machineOK b ip start rev0 m'
  /\ (n + measure b key rev0 m' <= measure b key rev0 m)%nat
  /\ List.length (procs m') = List.length (procs m).
Proof using Hwf Hstart.
  induction 1 as [m | n m1 m2 m3 Hstep Hrun IH]; intros Hok;
    [split; [done | split; [simpl; lia | done]] |].
  destruct (machineStep_ok _ _ Hok Hstep) as (Hok2 & Hm & Hlen).
  destruct (IH Hok2) as (Hok3 & Hm3 & Hlen3). split; [done |]. split; [lia | congruence].
Qed.

(** When all have returned: each was let through or turned away, and one
    turned away means that no token was left. *)
Lemma returned_split (sh : redis) (l : list process) :
  Forall (procOK b key start rev0 sh) l -> forallb isReturned l = true ->
  (List.length (List.filter (returnedWith None) l)
   + List.length (List.filter (returnedWith (Some ErrNoTokensAwailable)) l)
   = List.length l)%nat
  /\ ((0 < List.length (List.filter (returnedWith (Some ErrNoTokensAwailable)) l))%nat ->
      commits key rev0 sh = cap b).
Proof.
  induction l as [|p l IH]; intros Hall Hret; [simpl; split; [done | lia] |].
  apply Forall_cons in Hall as [[_ Hp] Hl]. simpl in Hret.
  apply andb_true_iff in Hret as [Hr Hrl]. destruct (IH Hl Hrl) as [Hsum Hrej].
  unfold isReturned in Hr. simpl List.filter. simpl List.length at 3.
  destruct (at_ p) as [| | | [err |]] eqn:Hpc; try done.
  - destruct Hp as [-> Hc].
    assert (returnedWith None p = false) as -> by (unfold returnedWith; by rewrite Hpc).
    assert (returnedWith (Some ErrNoTokensAwailable) p = true) as ->
      by (unfold returnedWith; by rewrite Hpc).
    simpl. split; [lia | done].
  - assert (returnedWith None p = true) as -> by (unfold returnedWith; by rewrite Hpc).
    assert (returnedWith (Some ErrNoTokensAwailable) p = false) as ->
      by (unfold returnedWith; by rewrite Hpc).
    simpl. split; [lia | done].
Qed.

Lemma machine_progress (m : machine) :
  forallb isReturned (procs m) = false -> exists m', machineStep b ip m m'.
Proof.
  intros Hnot.
  assert (exists i p, procs m !! i = Some p /\ isReturned p = false) as (i & p & Hi & Hp).
  { induction (procs m) as [|q l IH]; [done |]. simpl in Hnot.
    apply andb_false_iff in Hnot as [Hq | Hl].
    - by exists 0%nat, q.
    - destruct (IH Hl) as (i & p & Hi & Hp). by exists (S i), p. }
  eexists. by eapply machineStep_at.
Qed.
End Concurrent.

Lemma runSchedule_run (b : RedisBucket) (ip : string) (sched : list nat) :
  forall m m', runSchedule b ip sched m = Some m' ->
               machineRun b ip (List.length sched) m m'.
Proof.
  induction sched as [|i rest IH]; intros m m'; simpl.
  - intros [= <-]. constructor.
  - destruct (procs m !! i) as [p |] eqn:Hi; [| done].
    destruct (isReturned p) eqn:Hp; [done |]. intros Hrest.
    eapply machineRun_step; [by eapply machineStep_at | by apply IH].
Qed.

(** * The properties of the specification *)

(** The scenario: three calls are let through, the fourth is turned
    away, the fifth takes the token that came in after ten seconds, and
    the sixth finds the bucket full again and leaves two tokens. *)
Example scenario :
  outcomes (walkAll 1 exampleBucket (replicate 6 exampleContext) scenarioWorld)
    (keyOf "192.0.2.7")
  = Some ([None; None; None; Some ErrNoTokensAwailable; None; None],
          Some "2|2024-02-29T12:35:36Z").
Proof. vm_compute. reflexivity. Qed.

(** C1. A record read with fewer tokens than the capacity: when less than
    the refill interval has passed since its refill time ([time.Since],
    read on the clock at that moment), it stays as it is; otherwise
    [min (elapsed / interval) (capacity - tokens)] tokens are added, and
    the refill time becomes what the clock shows then when the bucket is
    full by that, and the old refill time plus that many intervals
    otherwise. In particular, [k] whole intervals after the refill time
    the tokens are [min capacity (tokens + k)]. (The numbers are Go's:
    the capacity less the tokens is an [int], as it is for every record
    whose tokens are not negative, and the [k] intervals are a
    [time.Duration].) *)
Theorem refill_correct (b : RedisBucket) (tokens : Z) (t : Time) (w : world) :
  wfBucket b -> tokens < cap b -> cap b - tokens <= maxInt64 ->
  let now := clock w (ticks w) in
  let elapsed := Since now t in
  (elapsed < tokenAppendTime b -> refill b tokens t w = (inr (tokens, t), advance 1 w))
  /\ (tokenAppendTime b <= elapsed ->
      let tokensToAdd := Z.min (elapsed / tokenAppendTime b) (cap b - tokens) in
      refill b tokens t w
      = if tokens + tokensToAdd =? cap b
        then (inr (cap b, clock w (S (ticks w))), advance 2 w)
        else (inr (tokens + tokensToAdd, Time_Add t (tokensToAdd * tokenAppendTime b)),
              advance 1 w))
  /\ (forall k : Z,
        0 <= k -> k * tokenAppendTime b <= maxInt64 ->
        unixNano now = unixNano t + k * tokenAppendTime b ->
        tokensOf (refill b tokens t w) = Some (Z.min (cap b) (tokens + k))).
Proof.
  intros Hwf Hlt Hdiff now elapsed.
  split; [intros He; by apply refill_early |].
  split; [intros He; by apply refill_passed |].
  intros k Hk Hfit Hnow.
  assert (Hel : elapsed = k * tokenAppendTime b).
  { unfold elapsed. rewrite Since_exact; [lia |].
    unfold minInt64. destruct Hwf as (_ & Hta & _). nia. }
  destruct Hwf as (Hcap & Hta & Hdur).
  destruct (Z.eq_dec k 0) as [-> | Hk0].
  - rewrite refill_early; [simpl; f_equal; lia | done | fold now; fold elapsed; lia].
  - destruct (refill_passed b tokens t w) as [Hadd ->]; try done.
    { fold now. fold elapsed. nia. }
    fold now. fold elapsed. rewrite Hel, Z.div_mul by lia.
    destruct (Z.eqb_spec (tokens + Z.min k (cap b - tokens)) (cap b)); simpl; f_equal; lia.
Qed.

Lemma refill_correct_witness :
  tokensOf (refill exampleBucket 0 (mkTime 0 0)
              (stillWorld emptyRedis (mkTime (4 * (10 * Second)) 0)))
  = Some (Z.min 3 (0 + 4)).
Proof.
  apply (refill_correct exampleBucket 0 (mkTime 0 0)
           (stillWorld emptyRedis (mkTime (4 * (10 * Second)) 0))).
  - apply NewRedisBucketWithClient_wf; vm_compute; split; discriminate.
  - reflexivity.
  - vm_compute. discriminate.
  - lia.
  - vm_compute. discriminate.
  - reflexivity.
Defined.

(** C2. A call that ends on [ErrNoTokensAwailable] has written nothing:
    the last thing it sent is the GET that found no tokens (no SET, no
    EXEC after it), and the server after the call is the server before
    it with the writes of the other clients that arrived meanwhile; with
    no other client at work, it is the server as it was. *)
Theorem Walk_rejected_writes_nothing (fuel : nat) (b : RedisBucket) (ctx : Context)
    (w w' : world) (err : error) :
  RedisBucket_Walk fuel b ctx w = Some (Some err, w') ->
  errors_Is err ErrNoTokensAwailable = true ->
  (exists older,
      sent w' = CmdGet (keyOf (ClientIP ctx)) :: CmdWatch (keyOf (ClientIP ctx)) :: older)
  /\ server w'
     = foldl redisWrite (server w)
         (arrivals w (List.length (sent w)) (List.length (sent w') - List.length (sent w)))
  /\ ((forall n, others w n = []) -> server w' = server w).
Proof.
  intros HW Herr. destruct (core b) as [c |] eqn:Hcore.
  - rewrite RedisBucket_Walk_loop in HW by congruence.
    destruct (walkLoop_summary _ _ _ _ _ _ HW) as (_ & _ & cmds & Hsent & Hsrv & _ & Hcmds).
    destruct Hsrv as [Hsrv | (msg & ? & ? & -> & _)]; [| done].
    destruct (Hcmds Herr) as [older ->]. simpl in Hsent, Hsrv.
    assert (Hlen : (List.length (sent w') - List.length (sent w))%nat
                   = S (S (List.length older))).
    { rewrite Hsent. simpl. rewrite length_app. lia. }
    split; [by eexists |]. rewrite Hlen. split; [exact Hsrv |].
    intros Hq. rewrite Hsrv. by rewrite arrivals_nil.
  - unfold RedisBucket_Walk in HW. rewrite Hcore in HW. injection HW as <- <-. done.
Qed.

Lemma Walk_rejected_writes_nothing_witness :
  exists err w',
    RedisBucket_Walk 1 exampleBucket exampleContext
      (stillWorld (oneRecord (keyOf "192.0.2.7") "0|2024-02-29T12:34:56Z") exampleTime)
    = Some (Some err, w')
    /\ server w' = oneRecord (keyOf "192.0.2.7") "0|2024-02-29T12:34:56Z".
Proof.
  destruct (RedisBucket_Walk 1 exampleBucket exampleContext
              (stillWorld (oneRecord (keyOf "192.0.2.7") "0|2024-02-29T12:34:56Z") exampleTime))
    as [[[err |] w'] |] eqn:HW; try (vm_compute in HW; discriminate).
  exists err, w'. split; [reflexivity |].
  destruct (Walk_rejected_writes_nothing 1 exampleBucket exampleContext _ w' err HW)
    as (_ & _ & Hsame).
  - vm_compute in HW. by injection HW as <- _.
  - by apply Hsame.
Defined.

(** C3. A round of the loop that fails with an error that is not
    [redis.TxFailedErr] ends the call with that error, nothing more being
    sent; a round that fails with [redis.TxFailedErr] (it is the EXEC
    that failed) is followed by another round; and the call never
    returns [redis.TxFailedErr]. *)
Theorem Walk_retries_conflicts_only (fuel : nat) (b : RedisBucket) (ip : string) (w : world) :
  (forall err w1,
      clientWatch (walkTx b ip) (keyOf ip) w = (inl err, w1) ->
      errors_Is err TxFailedErr = false ->
      walkLoop (S fuel) b ip w = Some (Some err, w1))
  /\ (forall err w1,
        clientWatch (walkTx b ip) (keyOf ip) w = (inl err, w1) ->
        errors_Is err TxFailedErr = true ->
        err = TxFailedErr
        /\ (exists val, sent w1 = CmdExecSet (keyOf ip) val (dur b) :: CmdGet (keyOf ip)
                                  :: CmdWatch (keyOf ip) :: sent w)
        /\ walkLoop (S fuel) b ip w = walkLoop fuel b ip w1)
  /\ (forall err w', walkLoop fuel b ip w = Some (Some err, w') ->
                     errors_Is err TxFailedErr = false).
Proof.
  split; [| split].
  - intros err w1 Hround Hno. simpl. by rewrite Hround, Hno.
  - intros err w1 Hround Hyes.
    destruct (round_summary _ _ _ _ _ Hround) as (_ & _ & cmds & Hsent & _ & _ & _ & Htx).
    destruct (Htx Hyes) as (-> & val & ->). split; [done |].
    split; [by exists val |]. simpl. by rewrite Hround.
  - intros err w' HW.
    by destruct (walkLoop_summary _ _ _ _ _ _ HW) as (_ & _ & _ & _ & _ & ? & _).
Qed.

Lemma Walk_retries_conflicts_only_witness :
  walkLoop 2 exampleBucket "192.0.2.7"
    (contendedWorld emptyRedis exampleTime (keyOf "192.0.2.7") "1|2024-02-29T12:34:56Z")
  = walkLoop 1 exampleBucket "192.0.2.7"
      (snd (clientWatch (walkTx exampleBucket "192.0.2.7") (keyOf "192.0.2.7")
              (contendedWorld emptyRedis exampleTime (keyOf "192.0.2.7")
                 "1|2024-02-29T12:34:56Z"))).
Proof.
  destruct (clientWatch (walkTx exampleBucket "192.0.2.7") (keyOf "192.0.2.7")
              (contendedWorld emptyRedis exampleTime (keyOf "192.0.2.7")
                 "1|2024-02-29T12:34:56Z")) as [[err | u] w1] eqn:Hround;
    [| vm_compute in Hround; discriminate].
  destruct (Walk_retries_conflicts_only 1 exampleBucket "192.0.2.7"
              (contendedWorld emptyRedis exampleTime (keyOf "192.0.2.7")
                 "1|2024-02-29T12:34:56Z")) as (_ & Hretry & _).
  destruct (Hretry err w1 Hround) as (_ & _ & Hgo).
  - vm_compute in Hround. by injection Hround as <- _.
  - exact Hgo.
Defined.

(** C4. From a server whose records are absent or were written by this
    bucket, and with other clients that write only such records, every
    round of a call and every sequence of calls keeps it so: each record
    the calls sent to be written (so each one committed) and each record
    on the server has tokens from 0 to the capacity. *)
Theorem records_within_bounds (fuel : nat) (b : RedisBucket) (w : world) :
  wfBucket b -> goodRedis b (server w) -> goodOthers b w ->
  Forall (goodCommand b) (sent w) ->
  (forall ip res w',
      clientWatch (walkTx b ip) (keyOf ip) w = (res, w') ->
      goodRedis b (server w') /\ Forall (goodCommand b) (sent w'))
  /\ (forall ctxs rs w',
        walkAll fuel b ctxs w = Some (rs, w') ->
        goodRedis b (server w') /\ Forall (goodCommand b) (sent w')).
Proof.
  intros Hwf Hr Ho Hs. split.
  - intros ip res w' Hround.
    by destruct (round_good _ _ _ _ _ Hwf Hr Ho Hs Hround) as (? & _ & ?).
  - intros ctxs. revert w Hr Ho Hs.
    induction ctxs as [|ctx rest IH]; intros w Hr Ho Hs rs w'; simpl.
    + by intros [= <- <-].
    + destruct (RedisBucket_Walk fuel b ctx w) as [[r w1] |] eqn:HW; [| done].
      destruct (RedisBucket_Walk_good _ _ _ _ _ _ Hwf Hr Ho Hs HW) as (Hr1 & Ho1 & Hs1).
      destruct (walkAll fuel b rest w1) as [[rs' w2] |] eqn:Hrest; [| done].
      intros [= <- <-]. by eapply IH.
Qed.

Lemma records_within_bounds_witness :
  exists rs w',
    walkAll 1 exampleBucket [exampleContext; exampleContext; exampleContext; exampleContext]
      (stillWorld emptyRedis exampleTime) = Some (rs, w')
    /\ goodRedis exampleBucket (server w')
    /\ Forall (goodCommand exampleBucket) (sent w').
Proof.
  destruct (walkAll 1 exampleBucket
              [exampleContext; exampleContext; exampleContext; exampleContext]
              (stillWorld emptyRedis exampleTime)) as [[rs w'] |] eqn:Hall;
    [| vm_compute in Hall; discriminate].
  exists rs, w'. split; [reflexivity |].
  destruct (records_within_bounds 1 exampleBucket (stillWorld emptyRedis exampleTime))
    as [_ Hseq].
  - apply NewRedisBucketWithClient_wf; vm_compute; split; discriminate.
  - intros key e Hl. simpl in Hl. by rewrite lookup_empty in Hl.
  - intros n. constructor.
  - constructor.
  - by eapply Hseq.
Defined.

(** C5 (as amended). A stored string that does not decode makes the call
    return the error of decoding after that one round, and this error is
    never [redis.TxFailedErr] (it is not retried): [ErrBadSyntaxInStorage]
    for a number of separators other than one; strconv's error about the
    first field when that is no integer; the time package's error about
    the second field when [time.Parse] reads no time in it. ([time.Parse]
    reads the timestamps of RFC 3339 and, besides, an hour of one digit,
    a comma before the fraction of a second, and a zone of up to 24 hours
    and up to 60 minutes: a record with such a second field decodes.) *)
Theorem Walk_malformed_record (fuel : nat) (b : RedisBucket) (ctx : Context) (w : world)
    (e : entry) :
  let key := keyOf (ClientIP ctx) in
  let n := List.length (sent w) in
  let w1 := afterSend (CmdWatch key) (lookedUp w) in
  core b <> None -> fault w n = None -> fault w (S n) = None ->
  data (served w1) !! key = Some e ->
  (countByte pipe (value e) <> 1%nat ->
   RedisBucket_Walk (S fuel) b ctx w = Some (Some ErrBadSyntaxInStorage, afterSend (CmdGet key) w1))
  /\ (forall d0 d1 err,
        splitByte pipe (value e) = [d0; d1] -> Atoi d0 = inl err ->
        RedisBucket_Walk (S fuel) b ctx w = Some (Some err, afterSend (CmdGet key) w1)
        /\ exists k, err = NumError "Atoi" d0 k /\ (k = ErrSyntax \/ k = ErrRange))
  /\ (forall d0 d1 tokens err,
        splitByte pipe (value e) = [d0; d1] -> Atoi d0 = inr tokens -> Parse d1 = inl err ->
        RedisBucket_Walk (S fuel) b ctx w = Some (Some err, afterSend (CmdGet key) w1)
        /\ err = ParseError RFC3339 d1)
  /\ (forall err, decodeRecord (value e) = inl err -> errors_Is err TxFailedErr = false).
Proof.
  intros key n w1 Hcore Hf1 Hf2 Hdata.
  assert (Hwalk : forall err, decodeRecord (value e) = inl err ->
            RedisBucket_Walk (S fuel) b ctx w = Some (Some err, afterSend (CmdGet key) w1)).
  { intros err Hdec. rewrite RedisBucket_Walk_loop by done. simpl.
    rewrite clientWatch_eq. change (fault (lookedUp w)) with (fault w).
    change (sent (lookedUp w)) with (sent w). fold n. rewrite Hf1.
    fold key. fold w1. rewrite walkRead_eq. fold key.
    change (fault w1) with (fault w). change (List.length (sent w1)) with (S n).
    rewrite Hf2, Hdata, Hdec.
    by destruct (decodeRecord_error_Is _ _ Hdec) as (-> & _). }
  split; [| split; [| split]].
  - intros Hcount. apply Hwalk. unfold decodeRecord.
    pose proof (length_splitByte pipe (value e)) as Hlen.
    destruct (splitByte pipe (value e)) as [|d0 [|d1 [|d2 ds]]]; simpl in Hlen; try done. lia.
  - intros d0 d1 err Hsplit HA. split.
    + apply Hwalk. unfold decodeRecord. by rewrite Hsplit, HA.
    + by apply Atoi_error.
  - intros d0 d1 tokens err Hsplit HA HP. split.
    + apply Hwalk. unfold decodeRecord. by rewrite Hsplit, HA, HP.
    + by apply Parse_error.
  - intros err Hdec. by destruct (decodeRecord_error_Is _ _ Hdec) as (-> & _).
Qed.

Lemma Walk_malformed_record_witness :
  RedisBucket_Walk 1 exampleBucket exampleContext
    (stillWorld (oneRecord (keyOf "192.0.2.7") "2|2024-02-29T12:34:56Z|") exampleTime)
  = Some (Some ErrBadSyntaxInStorage,
          afterSend (CmdGet (keyOf "192.0.2.7"))
            (afterSend (CmdWatch (keyOf "192.0.2.7"))
               (lookedUp (stillWorld (oneRecord (keyOf "192.0.2.7") "2|2024-02-29T12:34:56Z|")
                            exampleTime)))).
Proof.
  destruct (Walk_malformed_record 0 exampleBucket exampleContext
              (stillWorld (oneRecord (keyOf "192.0.2.7") "2|2024-02-29T12:34:56Z|") exampleTime)
              (mkEntry "2|2024-02-29T12:34:56Z|" DurationDefault)) as (Hbad & _);
    [discriminate | reflexivity | reflexivity | reflexivity |].
  apply Hbad. vm_compute. discriminate.
Defined.

(** C5, as it was stated, fails for a first field that is no integer: the
    call returns strconv's error, which is not [ErrBadSyntaxInStorage]. *)
Lemma Walk_malformed_number_is_not_bad_syntax :
  exists err w',
    RedisBucket_Walk 1 exampleBucket exampleContext
      (stillWorld (oneRecord (keyOf "192.0.2.7") "x|2024-02-29T12:34:56Z") exampleTime)
    = Some (Some err, w')
    /\ err = NumError "Atoi" "x" ErrSyntax
    /\ errors_Is err ErrBadSyntaxInStorage = false.
Proof. eexists _, _. split; [vm_compute; reflexivity |]. split; reflexivity. Qed.

(** Records whose second field only the general parser of [time.Parse]
    reads (an hour of one digit, a comma before the fraction, a zone of
    24 hours): the call decodes them, takes a token and writes the time
    back as the layout shows it. *)
Example Walk_lenient_stamps :
  outcomes (walkAll 1 exampleBucket [exampleContext]
              (stillWorld (oneRecord (keyOf "192.0.2.7") "5|2024-02-29T1:34:56Z") exampleTime))
    (keyOf "192.0.2.7")
  = Some ([None], Some "4|2024-02-29T01:34:56Z")
  /\ outcomes (walkAll 1 exampleBucket [exampleContext]
                 (stillWorld (oneRecord (keyOf "192.0.2.7") "5|2024-02-29T12:34:56,5Z")
                    exampleTime))
       (keyOf "192.0.2.7")
     = Some ([None], Some "4|2024-02-29T12:34:56Z")
  /\ outcomes (walkAll 1 exampleBucket [exampleContext]
                 (stillWorld (oneRecord (keyOf "192.0.2.7") "5|2024-02-29T12:34:56+24:00")
                    exampleTime))
       (keyOf "192.0.2.7")
     = Some ([None], Some "4|2024-02-29T12:34:56+24:00").
Proof. repeat split; vm_compute; reflexivity. Qed.

(** A second field that [time.Parse] does not read: the call returns the
    time package's error. *)
Example Walk_bad_stamp :
  outcomes (walkAll 1 exampleBucket [exampleContext]
              (stillWorld (oneRecord (keyOf "192.0.2.7") "5|2024-02-30T12:34:56Z") exampleTime))
    (keyOf "192.0.2.7")
  = Some ([Some (ParseError RFC3339 "2024-02-30T12:34:56Z")], Some "5|2024-02-30T12:34:56Z").
Proof. vm_compute. reflexivity. Qed.

(** C6 (as amended). For every [int] of tokens and every time that the
    layout can show, the encoded record is decoded to the tokens and the
    time without its fraction of a second; to the pair itself when the
    time is on a whole second. *)
Theorem codec_round_trip (tokens : Z) (t : Time) :
  inInt64 tokens -> validStamp t ->
  decodeRecord (encodeRecord tokens t) = inr (tokens, truncSecond t)
  /\ (nsecOf t = 0 -> decodeRecord (encodeRecord tokens t) = inr (tokens, t)).
Proof.
  intros Hi Ht. rewrite decodeRecord_encodeRecord by done. split; [done |].
  intros Hn. f_equal. f_equal. unfold truncSecond, unixSec. destruct t as [ns off].
  unfold nsecOf in Hn. simpl in *. f_equal.
  pose proof (Z.div_mod ns Second ltac:(done)). lia.
Qed.

Lemma codec_round_trip_witness :
  decodeRecord (encodeRecord 2 exampleTime) = inr (2, truncSecond exampleTime)
  /\ (nsecOf exampleTime = 0 -> decodeRecord (encodeRecord 2 exampleTime) = inr (2, exampleTime)).
Proof.
  apply (codec_round_trip 2 exampleTime).
  - vm_compute. split; discriminate.
  - vm_compute. repeat split; discriminate.
Defined.

(** C6, as it was stated, fails for a time with a fraction of a second:
    half a second is lost. *)
Lemma codec_round_trip_fraction_lost :
  inInt64 2 /\ validStamp (mkTime (1709210096 * Second + 500000000) 0)
  /\ decodeRecord (encodeRecord 2 (mkTime (1709210096 * Second + 500000000) 0))
     <> inr (2, mkTime (1709210096 * Second + 500000000) 0).
Proof.
  split; [vm_compute; split; discriminate |].
  split; [vm_compute; repeat split; discriminate |].
  vm_compute. discriminate.
Qed.



(** The record keeps whole seconds, so the time to the next token counts
    from the whole second: with one token every ten seconds, calls at
    12:34:56.9 and at 12:35:06.5 are both let through by a bucket of one
    token. This is why the window of the next theorem starts on a whole
    second. *)
Example refill_counts_from_the_whole_second :
  outcomes (walkAll 1 raceBucket [exampleContext; exampleContext] acrossSecondsWorld)
    (keyOf "192.0.2.7")
  = Some ([None; None], Some "0|2024-02-29T12:35:06Z").
Proof. vm_compute. reflexivity. Qed.

(** C8 (as amended). [N] processes call [Walk] for one address that is not
    on the server, the capacity being less than [N]. Three things are
    assumed of the run: no command fails; nobody but the processes writes
    the key, and the record does not expire (an expiry is a removal among
    the writes of the others, and there are none); and all readings of
    the clocks lie in a window shorter than the refill interval that
    starts on a whole second [start]. The last is what "no refill comes
    due" asks of the code, the record keeping whole seconds. Then,
    however the processes take their turns: the run is bounded (every
    call returns); at every moment the record holds the capacity less
    the calls let through, one token for each; a machine where not all
    have returned can step; and when all have returned, exactly
    [capacity] calls returned nil, the other [N - capacity] returned
    [ErrNoTokensAwailable], and the record holds 0 tokens. *)
Theorem concurrent_walks (b : RedisBucket) (ip : string) (start : Z) (sh0 : redis)
    (views : list world) (n : nat) (m : machine) :
  wfBucket b -> start mod Second = 0 ->
  Forall (quietView b start) views ->
  cap b < Z.of_nat (List.length views) ->
  data sh0 !! keyOf ip = None ->
  machineRun b ip n (mkMachine sh0 (List.map startProcess views)) m ->
  (n <= 3 * List.length views * (Z.to_nat (cap b) + 1))%nat
  /\ match data (shared m) !! keyOf ip with
     | None => countReturned None m = 0%nat
     | Some e =>
         exists t, e = mkEntry (encodeRecord (cap b - Z.of_nat (countReturned None m)) t) (dur b)
     end
  /\ (forallb isReturned (procs m) = false -> exists m', machineStep b ip m m')
  /\ (forallb isReturned (procs m) = true ->
      countReturned None m = Z.to_nat (cap b)
      /\ countReturned (Some ErrNoTokensAwailable) m
         = (List.length views - Z.to_nat (cap b))%nat
      /\ exists t, data (shared m) !! keyOf ip = Some (mkEntry (encodeRecord 0 t) (dur b))).
Proof.
  intros Hwf Hstart Hviews HN Hnone Hrun.
  set (rev0 := revOf (keyOf ip) sh0). set (m0 := mkMachine sh0 (List.map startProcess views)).
  assert (Hc0 : commits (keyOf ip) rev0 sh0 = 0) by (unfold commits, rev0; lia).
  assert (Hok0 : machineOK b ip start rev0 m0).
  { split; [| split]; simpl.
    - unfold storeOK. rewrite Hnone, Hc0. destruct Hwf as (Hcap & _). lia.
    - clear -Hviews. induction Hviews as [|v l Hv Hl IH]; simpl; constructor; [| done].
      by split.
    - rewrite Hc0. unfold countReturned. simpl. clear.
      induction views as [|v l IH]; simpl; [done | exact IH]. }
  assert (Hm0 : measure b (keyOf ip) rev0 m0
                = (3 * List.length views + 3 * List.length views * Z.to_nat (cap b))%nat).
  { unfold measure, m0. simpl. rewrite Hc0, Z.sub_0_r, length_map. f_equal.
    clear. induction views as [|v l IH]; simpl; [done |]. rewrite IH.
    unfold rank. simpl. lia. }
  destruct (machineRun_ok b ip start rev0 Hwf Hstart n m0 m Hrun Hok0) as (Hok & Hm & Hlen).
  simpl in Hlen. rewrite length_map in Hlen.
  destruct Hok as (Hstore & Hall & Hcount).
  split; [rewrite Hm0 in Hm; lia |]. split; [| split].
  - destruct Hstore as [Hc Hdata]. destruct (data (shared m) !! keyOf ip) as [e |].
    + destruct Hdata as (_ & t & -> & _). exists t. by rewrite Hcount.
    + lia.
  - by apply machine_progress.
  - intros Hret.
    destruct (returned_split b ip start rev0 (shared m) (procs m) Hall Hret) as [Hsum Hrej].
    fold (countReturned None m) in Hsum.
    fold (countReturned (Some ErrNoTokensAwailable) m) in Hsum, Hrej.
    destruct Hstore as [Hc Hdata].
    assert (Hfull : commits (keyOf ip) rev0 (shared m) = cap b) by (apply Hrej; lia).
    split; [lia |]. split; [lia |].
    destruct (data (shared m) !! keyOf ip) as [e |].
    + destruct Hdata as (_ & t & -> & _). exists t. by rewrite Hfull, Z.sub_diag.
    + destruct Hwf as (Hcap & _). lia.
Qed.

Lemma concurrent_walks_witness :
  exists m,
    runSchedule raceBucket "192.0.2.7" [0; 1; 0; 1; 0; 1; 1; 1]%nat raceStart = Some m
    /\ countReturned None m = 1%nat
    /\ countReturned (Some ErrNoTokensAwailable) m = 1%nat
    /\ exists t, data (shared m) !! keyOf "192.0.2.7"
                 = Some (mkEntry (encodeRecord 0 t) (dur raceBucket)).
Proof.
  destruct (runSchedule raceBucket "192.0.2.7" [0; 1; 0; 1; 0; 1; 1; 1]%nat raceStart)
    as [m |] eqn:Hs; [| vm_compute in Hs; discriminate].
  exists m. split; [reflexivity |].
  destruct (concurrent_walks raceBucket "192.0.2.7" (unixNano exampleTime) emptyRedis
              [stillWorld emptyRedis exampleTime; stillWorld emptyRedis exampleTime]
              8 m) as (_ & _ & _ & Hfinal).
  - apply NewRedisBucketWithClient_wf; vm_compute; split; discriminate.
  - reflexivity.
  - assert (Hq : quietView raceBucket (unixNano exampleTime) (stillWorld emptyRedis exampleTime)).
    { split; [done |]. split; [done |]. intros k. split.
      - vm_compute. split; [discriminate | reflexivity].
      - vm_compute. repeat split; discriminate. }
    apply Forall_cons. split; [exact Hq |]. apply Forall_cons. split; [exact Hq |].
    apply Forall_nil_2.
  - reflexivity.
  - reflexivity.
  - exact (runSchedule_run _ _ _ _ _ Hs).
  - apply Hfinal. vm_compute in Hs. injection Hs as <-. reflexivity.
Defined.

(** C8, as it was stated, fails: that all readings of the clocks lie
    within less than a refill interval does not keep a refill from
    coming due, because the time in the record has lost its fraction of
    a second. Here every assumption of the theorem above holds but the
    one that the window starts on a whole second. With one token every
    ten seconds and two processes whose clocks are 9.6 seconds apart,
    both calls return nil; with one token every tenth of a second and
    three processes whose clocks all stand at 12:34:56.5, all three calls
    return nil. The capacity is 1 in both. *)
Lemma concurrent_walks_over_capacity :
  (wfBucket raceBucket /\ cap raceBucket = 1
   /\ cap raceBucket < Z.of_nat (List.length raceAcrossSeconds)
   /\ Forall (quietView raceBucket (unixNano exampleTime + 900000000)) raceAcrossSeconds
   /\ data emptyRedis !! keyOf "192.0.2.7" = None
   /\ exists m,
        machineRun raceBucket "192.0.2.7" 6
          (mkMachine emptyRedis (List.map startProcess raceAcrossSeconds)) m
        /\ forallb isReturned (procs m) = true
        /\ countReturned None m = 2%nat
        /\ countReturned (Some ErrNoTokensAwailable) m = 0%nat)
  /\ (wfBucket quickBucket /\ cap quickBucket = 1
      /\ cap quickBucket < Z.of_nat (List.length raceWithinSecond)
      /\ Forall (quietView quickBucket (unixNano exampleTime + 500000000)) raceWithinSecond
      /\ data emptyRedis !! keyOf "192.0.2.7" = None
      /\ exists m,
           machineRun quickBucket "192.0.2.7" 9
             (mkMachine emptyRedis (List.map startProcess raceWithinSecond)) m
           /\ forallb isReturned (procs m) = true
           /\ countReturned None m = 3%nat
           /\ countReturned (Some ErrNoTokensAwailable) m = 0%nat).
Proof.
  assert (Hstill : forall b start now,
            start <= unixNano now < start + tokenAppendTime b -> validStamp now ->
            quietView b start (stillWorld emptyRedis now)).
  { intros b start now Hin Hst. split; [done |]. split; [done |]. intros k. by split. }
  split.
  - split; [apply NewRedisBucketWithClient_wf; vm_compute; split; discriminate |].
    split; [reflexivity |]. split; [reflexivity |]. split.
    { repeat (apply Forall_cons; split); [| | apply Forall_nil_2]; apply Hstill;
        vm_compute; repeat split; discriminate. }
    split; [reflexivity |].
    destruct (runSchedule raceBucket "192.0.2.7" [0; 0; 0; 1; 1; 1]%nat
                (mkMachine emptyRedis (List.map startProcess raceAcrossSeconds)))
      as [m |] eqn:Hs; [| vm_compute in Hs; discriminate].
    exists m. split; [exact (runSchedule_run _ _ _ _ _ Hs) |].
    vm_compute in Hs. injection Hs as <-. repeat split; reflexivity.
  - split; [apply NewRedisBucketWithClient_wf; vm_compute; split; discriminate |].
    split; [reflexivity |]. split; [reflexivity |]. split.
    { repeat (apply Forall_cons; split); [| | | apply Forall_nil_2]; apply Hstill;
        vm_compute; repeat split; discriminate. }
    split; [reflexivity |].
    destruct (runSchedule quickBucket "192.0.2.7" [0; 0; 0; 1; 1; 1; 2; 2; 2]%nat
                (mkMachine emptyRedis (List.map startProcess raceWithinSecond)))
      as [m |] eqn:Hs; [| vm_compute in Hs; discriminate].
    exists m. split; [exact (runSchedule_run _ _ _ _ _ Hs) |].
    vm_compute in Hs. injection Hs as <-. repeat split; reflexivity.
Qed.

(** C9. The handler of [WalkThrough] on a request, after [Walk] has
    returned: on nil the context is as it was and nothing is logged; on
    an error that is [ErrNoTokensAwailable] the request is aborted with
    status 429 and the limiter's too-many-requests body, nothing logged;
    on any other error the error is logged and the request is aborted
    with status 500 and the limiter's server-error body. *)
Theorem WalkThrough_outcomes {B : Type} `{Bucket B} (fuel : nat) (l : limiter B)
    (ctx : Context) (w w' : world) (r : option error) :
  Walk fuel (bucket l) ctx w = Some (r, w') ->
  (r = None -> WalkThrough fuel l ctx w = Some (ctx, logger l, w'))
  /\ (forall err,
        r = Some err -> errors_Is err ErrNoTokensAwailable = true ->
        WalkThrough fuel l ctx w
        = Some (mkContext (ClientIP ctx) true (Some 429) (Some (tooManyRequestsError l)),
                logger l, w'))
  /\ (forall err,
        r = Some err -> errors_Is err ErrNoTokensAwailable = false ->
        WalkThrough fuel l ctx w
        = Some (mkContext (ClientIP ctx) true (Some 500) (Some (serverError l)),
                logger l ++ [err], w')).
Proof.
  intros HW. unfold WalkThrough. rewrite HW. split; [| split].
  - by intros ->.
  - intros err -> Herr. by rewrite Herr.
  - intros err -> Herr. by rewrite Herr.
Qed.

Lemma WalkThrough_outcomes_witness :
  WalkThrough 1
    (NewLimiter exampleBucket [] DefaultServerError DefaultTooManyRequestsError)
    exampleContext
    (stillWorld (oneRecord (keyOf "192.0.2.7") "0|2024-02-29T12:34:56Z") exampleTime)
  = Some (mkContext "192.0.2.7" true (Some 429) (Some DefaultTooManyRequestsError), [],
          advance 1
            (afterSend (CmdGet (keyOf "192.0.2.7"))
               (afterSend (CmdWatch (keyOf "192.0.2.7"))
                  (lookedUp (stillWorld (oneRecord (keyOf "192.0.2.7")
                                           "0|2024-02-29T12:34:56Z") exampleTime))))).
Proof.
  destruct (WalkThrough_outcomes 1
              (NewLimiter exampleBucket [] DefaultServerError DefaultTooManyRequestsError)
              exampleContext
              (stillWorld (oneRecord (keyOf "192.0.2.7") "0|2024-02-29T12:34:56Z") exampleTime)
              (advance 1 (afterSend (CmdGet (keyOf "192.0.2.7"))
                 (afterSend (CmdWatch (keyOf "192.0.2.7"))
                    (lookedUp (stillWorld (oneRecord (keyOf "192.0.2.7")
                                             "0|2024-02-29T12:34:56Z") exampleTime)))))
              (Some ErrNoTokensAwailable)) as (_ & Hreject & _).
  - vm_compute. reflexivity.
  - rewrite (Hreject ErrNoTokensAwailable eq_refl eq_refl). reflexivity.
Defined.

(** C10. With no client ([core] is nil), [Walk] returns an error at
    once, whatever rounds it is given: no address is looked up, no
    command is sent, the clock is not read, the world is as it was. *)
Theorem Walk_nil_core (fuel : nat) (b : RedisBucket) (ctx : Context) (w : world) :
  core b = None ->
  Walk fuel b ctx w = Some (Some (NewError "redis core is nil"), w).
Proof. intros H. simpl. unfold RedisBucket_Walk. by rewrite H. Qed.

Lemma Walk_nil_core_witness :
  Walk 0 (mkRedisBucket None 3 DurationDefault NewTokenAppendTimeDefault)
       exampleContext (stillWorld emptyRedis exampleTime)
  = Some (Some (NewError "redis core is nil"), stillWorld emptyRedis exampleTime).
Proof. apply Walk_nil_core. reflexivity. Defined.

(** * Further properties of the code

    The constructors, what a call of [Walk] does to the server and when
    it returns, the errors it returns, calls for a record that is there,
    calls one after the other and at once, and the middleware over the
    bucket. *)

Lemma exampleBucket_wf : wfBucket exampleBucket.
Proof. apply NewRedisBucketWithClient_wf; vm_compute; split; discriminate. Qed.

Lemma exampleTime_quiet :
  quietView exampleBucket (unixNano exampleTime) (stillWorld emptyRedis exampleTime).
Proof.
  split; [done |]. split; [done |]. intros k. split.
  - vm_compute. split; [discriminate | reflexivity].
  - vm_compute. repeat split; discriminate.
Qed.

(** ** The constructors *)

(** X1. [NewRedisBucketWithClient], whatever the settings: the bucket has
    at least one token of capacity and a refill interval and an expiry of
    at least a nanosecond; a setting above zero is kept, and one that is
    zero or below is replaced by its default (10 tokens, 30 minutes of
    expiry, 10 seconds between tokens). The client is kept as given, nil
    too. *)
Theorem NewRedisBucketWithClient_settings (cfg : BucketConfigs) (c : option Client) :
  inInt64 (Capability cfg) -> inInt64 (cfgDuration cfg) -> inInt64 (NewTokenAppendTime cfg) ->
  let b := NewRedisBucketWithClient cfg c in
  core b = c
  /\ 1 <= cap b <= maxInt64 /\ 1 <= dur b <= maxInt64 /\ 1 <= tokenAppendTime b <= maxInt64
  /\ cap b = (if 0 <? Capability cfg then Capability cfg else 10)
  /\ dur b = (if 0 <? cfgDuration cfg then cfgDuration cfg else 30 * (60 * 1000000000))
  /\ tokenAppendTime b
     = (if 0 <? NewTokenAppendTime cfg then NewTokenAppendTime cfg else 10 * 1000000000).
Proof.
  unfold inInt64, minInt64, maxInt64. intros Hc Hd Ht. cbv zeta.
  unfold NewRedisBucketWithClient. cbn [core cap dur tokenAppendTime].
  unfold MaxTokensCapDefault, DurationDefault, NewTokenAppendTimeDefault, Minute, Second.
  destruct (Z.leb_spec (Capability cfg) 0), (Z.ltb_spec 0 (Capability cfg)); try lia;
  destruct (Z.leb_spec (cfgDuration cfg) 0), (Z.ltb_spec 0 (cfgDuration cfg)); try lia;
  destruct (Z.leb_spec (NewTokenAppendTime cfg) 0), (Z.ltb_spec 0 (NewTokenAppendTime cfg));
    try lia; repeat split; lia.
Qed.

Lemma NewRedisBucketWithClient_settings_witness :
  let b := NewRedisBucketWithClient (mkBucketConfigs "localhost" 6379 "" 3 0 (-5)) None in
  core b = None
  /\ 1 <= cap b <= maxInt64 /\ 1 <= dur b <= maxInt64 /\ 1 <= tokenAppendTime b <= maxInt64
  /\ cap b = 3
  /\ dur b = 30 * (60 * 1000000000)
  /\ tokenAppendTime b = 10 * 1000000000.
Proof.
  apply (NewRedisBucketWithClient_settings (mkBucketConfigs "localhost" 6379 "" 3 0 (-5)) None);
    vm_compute; split; discriminate.
Defined.

(** X2. [NewRedisBucket] pings the server with the client it has made:
    on network "tcp" when the settings name none, at the address
    [JoinHostPort host port], which ends on ":" and the port. When the
    ping fails its error is returned and no bucket; when it succeeds the
    bucket is the one that [NewRedisBucketWithClient] makes of the same
    settings and that client. *)
Theorem NewRedisBucket_outcomes (cfg : BucketConfigs) (ping : Client -> option error) :
  exists c,
    clientNetwork c = (if bool_decide (Network cfg = "") then "tcp" else Network cfg)
    /\ clientNetwork c <> ""
    /\ clientAddr c = JoinHostPort (Host cfg) (Itoa (Port cfg))
    /\ (exists front, clientAddr c = front +:+ ":" +:+ Itoa (Port cfg))
    /\ match ping c with
       | Some err => NewRedisBucket cfg ping = inl err
       | None => NewRedisBucket cfg ping = inr (NewRedisBucketWithClient cfg (Some c))
       end.
Proof.
  eexists (NewClient _ (JoinHostPort (Host cfg) (Itoa (Port cfg)))).
  split; [reflexivity |]. split.
  { cbn [NewClient clientNetwork]. by case_bool_decide. }
  split; [reflexivity |]. split.
  { cbn [NewClient clientAddr]. unfold JoinHostPort.
    destruct (0 <=? IndexByteString (Host cfg) ":").
    - exists ("[" +:+ Host cfg +:+ "]"). cbn [String.append]. by rewrite append_assoc.
    - by exists (Host cfg). }
  unfold NewRedisBucket.
  by destruct (ping _).
Qed.

(** A host that is an IPv6 address goes in brackets. *)
Example NewRedisBucket_ipv6 :
  NewRedisBucket (mkBucketConfigs "::1" 6379 "" 0 0 0) (fun _ => None)
  = inr (mkRedisBucket (Some (mkClient "tcp" "[::1]:6379")) 10 (30 * Minute) (10 * Second)).
Proof. reflexivity. Qed.

(** ** What a call does to the server *)

Lemma keyOf_inj (ip ip' : string) : keyOf ip = keyOf ip' -> ip = ip'.
Proof. unfold keyOf. intros H. by simplify_eq/=. Qed.

Lemma redisWrite_spares_data (key : string) (r : redis) (kv : string * option entry) :
  fst kv <> key -> data (redisWrite r kv) !! key = data r !! key.
Proof.
  destruct kv as [k [e |]]; unfold redisWrite; simpl; intros Hne.
  - by rewrite lookup_insert_ne.
  - by rewrite lookup_delete_ne.
Qed.

Lemma redisWrite_spares_rev (key : string) (r : redis) (kv : string * option entry) :
  fst kv <> key -> revOf key (redisWrite r kv) = revOf key r.
Proof.
  destruct kv as [k v]; unfold redisWrite, revOf; simpl; intros Hne.
  by rewrite lookup_insert_ne.
Qed.

Lemma foldl_spares (key : string) (l : list (string * option entry)) :
  forall r, sparesKey key l ->
    data (foldl redisWrite r l) !! key = data r !! key
    /\ revOf key (foldl redisWrite r l) = revOf key r.
Proof.
  induction l as [|kv l IH]; intros r Hl; simpl; [done |].
  apply Forall_cons in Hl as [Hkv Hl]. destruct (IH (redisWrite r kv) Hl) as [-> ->].
  by rewrite redisWrite_spares_data, redisWrite_spares_rev.
Qed.

Lemma sparesKey_arrivals (w : world) (key : string) (n k : nat) :
  (forall i, (n <= i)%nat -> sparesKey key (others w i)) -> sparesKey key (arrivals w n k).
Proof.
  revert n. induction k as [|k IH]; intros n Hq; [by apply Forall_nil_2 |].
  rewrite arrivals_S. apply Forall_app. split; [by apply Hq |].
  apply IH. intros i Hi. apply Hq. lia.
Qed.

Lemma roundCommands_key (b : RedisBucket) (ip : string) (w : world) (cmds : list command) :
  roundCommands b ip w cmds -> Forall (fun c => commandKey c = keyOf ip) cmds.
Proof.
  intros [-> | [-> | (tokens & t & w2 & _ & ->)]]; repeat (apply Forall_cons; split; [done |]);
    apply Forall_nil_2.
Qed.

(** The commands of a call name the key of its address and no other. *)
Lemma walkLoop_commands (fuel : nat) (b : RedisBucket) (ip : string) :
  forall (w w' : world) (r : option error),
    walkLoop fuel b ip w = Some (r, w') ->
    exists cmds, sent w' = cmds ++ sent w /\ Forall (fun c => commandKey c = keyOf ip) cmds.
Proof.
  induction fuel as [|f IH]; intros w w' r; simpl; [done |].
  destruct (clientWatch (walkTx b ip) (keyOf ip) w) as [res w1] eqn:Hround.
  destruct (round_summary b ip w w1 res Hround) as (_ & _ & cmds & Hsent & Hcmds & _).
  apply roundCommands_key in Hcmds.
  assert (Hend : forall r0, Some (r0, w1) = Some (r, w') ->
            exists cmds, sent w' = cmds ++ sent w
                         /\ Forall (fun c => commandKey c = keyOf ip) cmds).
  { intros r0 [= <- <-]. by exists cmds. }
  destruct res as [err | u]; [| apply Hend].
  destruct (negb (errors_Is err TxFailedErr)); [apply Hend |].
  intros Hloop. destruct (IH _ _ _ Hloop) as (cmds' & Hsent' & Hcmds').
  exists (cmds' ++ cmds). split; [by rewrite Hsent', Hsent, app_assoc |].
  by apply Forall_app.
Qed.

Lemma revOf_redisWrite (key : string) (r : redis) (v : option entry) :
  revOf key (redisWrite r (key, v)) = S (revOf key r).
Proof. unfold redisWrite, revOf. simpl. by rewrite lookup_insert_eq. Qed.

Lemma data_redisWrite (key : string) (r : redis) (e : entry) :
  data (redisWrite r (key, Some e)) !! key = Some e.
Proof. unfold redisWrite. simpl. by rewrite lookup_insert_eq. Qed.

(** The server after a call, when the others leave [key] alone. *)
Lemma walkLoop_server (fuel : nat) (b : RedisBucket) (ip key : string) (w w' : world)
    (r : option error) :
  walkLoop fuel b ip w = Some (r, w') ->
  (forall n, sparesKey key (others w n)) ->
  match r with
  | None =>
      exists val,
        data (server w') !! key
        = data (redisWrite (server w) (keyOf ip, Some (mkEntry val (dur b)))) !! key
        /\ revOf key (server w')
           = revOf key (redisWrite (server w) (keyOf ip, Some (mkEntry val (dur b))))
  | Some err =>
      (data (server w') !! key = data (server w) !! key
       /\ revOf key (server w') = revOf key (server w))
      \/ exists msg val older,
           err = StoreError msg
           /\ lost w (List.length (sent w') - 1) = true
           /\ sent w' = CmdExecSet (keyOf ip) val (dur b) :: older
           /\ data (server w') !! key
              = data (redisWrite (server w) (keyOf ip, Some (mkEntry val (dur b)))) !! key
           /\ revOf key (server w')
              = revOf key (redisWrite (server w) (keyOf ip, Some (mkEntry val (dur b))))
  end.
Proof.
  intros HW Hq.
  destruct (walkLoop_summary _ _ _ _ _ _ HW) as (_ & _ & cmds & Hsent & Hres).
  cbv zeta in Hres.
  assert (Hwrite : forall val,
    data (redisWrite (foldl redisWrite (server w)
                        (arrivals w (List.length (sent w)) (List.length cmds)))
            (keyOf ip, Some (mkEntry val (dur b)))) !! key
    = data (redisWrite (server w) (keyOf ip, Some (mkEntry val (dur b)))) !! key
    /\ revOf key (redisWrite (foldl redisWrite (server w)
                                (arrivals w (List.length (sent w)) (List.length cmds)))
                    (keyOf ip, Some (mkEntry val (dur b))))
       = revOf key (redisWrite (server w) (keyOf ip, Some (mkEntry val (dur b))))).
  { intros val.
    pose proof (foldl_spares key _ (server w)
                  (sparesKey_arrivals w key (List.length (sent w)) (List.length cmds)
                     (fun i _ => Hq i))) as [Hd Hr].
    destruct (decide (keyOf ip = key)) as [<- | Hne].
    - unfold redisWrite, revOf. simpl. rewrite !lookup_insert_eq. simpl.
      split; [done |]. f_equal. exact Hr.
    - rewrite !redisWrite_spares_data, !redisWrite_spares_rev by done. done. }
  pose proof (foldl_spares key _ (server w)
                (sparesKey_arrivals w key (List.length (sent w)) (List.length cmds)
                   (fun i _ => Hq i))) as [Hd Hr].
  destruct r as [err |].
  - destruct Hres as ([-> | (msg & val & older & -> & Hlost & -> & ->)] & _); [by left |].
    right. exists msg, val, (older ++ sent w). split; [done |]. split; [done |].
    split; [done |]. apply Hwrite.
  - destruct Hres as (tokens & t & w1 & w2 & older & _ & _ & _ & _ & ->).
    exists (encodeRecord (sub64 tokens 1) t). apply Hwrite.
Qed.

(** X3. A call of [Walk] names one key in all its commands, the key of
    the caller's address, and two addresses never have one key. So the
    record and the revision of any other address are after the call what
    they were before it, as long as no other client writes them
    meanwhile. *)
Theorem Walk_other_addresses (fuel : nat) (b : RedisBucket) (ctx : Context) (w w' : world)
    (r : option error) :
  RedisBucket_Walk fuel b ctx w = Some (r, w') ->
  (exists cmds,
      sent w' = cmds ++ sent w
      /\ Forall (fun c => commandKey c = keyOf (ClientIP ctx)) cmds)
  /\ forall ip',
       ip' <> ClientIP ctx ->
       keyOf ip' <> keyOf (ClientIP ctx)
       /\ ((forall n, sparesKey (keyOf ip') (others w n)) ->
           data (server w') !! keyOf ip' = data (server w) !! keyOf ip'
           /\ revOf (keyOf ip') (server w') = revOf (keyOf ip') (server w)).
Proof.
  intros HW.
  assert (Hkey : forall ip', ip' <> ClientIP ctx -> keyOf ip' <> keyOf (ClientIP ctx)).
  { intros ip' Hne Heq. by apply Hne, keyOf_inj. }
  destruct (core b) as [c |] eqn:Hcore.
  - rewrite RedisBucket_Walk_loop in HW by congruence. split.
    + exact (walkLoop_commands _ _ _ _ _ _ HW).
    + intros ip' Hne. split; [by apply Hkey |]. intros Hq.
      pose proof (walkLoop_server _ _ _ (keyOf ip') _ _ _ HW Hq) as Hsrv.
      assert (Hspare : forall val,
        data (redisWrite (server w) (keyOf (ClientIP ctx), Some (mkEntry val (dur b))))
          !! keyOf ip' = data (server w) !! keyOf ip'
        /\ revOf (keyOf ip')
             (redisWrite (server w) (keyOf (ClientIP ctx), Some (mkEntry val (dur b))))
           = revOf (keyOf ip') (server w)).
      { intros val.
        rewrite redisWrite_spares_data, redisWrite_spares_rev; [done | |];
          simpl; intros Heq; by apply (Hkey ip'). }
      destruct r as [err |].
      * destruct Hsrv as [Hsrv | (msg & val & older & _ & _ & _ & -> & ->)]; [exact Hsrv |].
        apply Hspare.
      * destruct Hsrv as (val & -> & ->). apply Hspare.
  - unfold RedisBucket_Walk in HW. rewrite Hcore in HW. injection HW as <- <-. split.
    + exists []. split; [done | apply Forall_nil_2].
    + intros ip' Hne. split; [by apply Hkey | done].
Qed.

Lemma Walk_other_addresses_witness :
  exists r w',
    RedisBucket_Walk 1 exampleBucket exampleContext
      (stillWorld (oneRecord (keyOf "192.0.2.8") "0|2024-02-29T12:34:56Z") exampleTime)
    = Some (r, w')
    /\ data (server w') !! keyOf "192.0.2.8"
       = Some (mkEntry "0|2024-02-29T12:34:56Z" DurationDefault).
Proof.
  destruct (RedisBucket_Walk 1 exampleBucket exampleContext
              (stillWorld (oneRecord (keyOf "192.0.2.8") "0|2024-02-29T12:34:56Z") exampleTime))
    as [[r w'] |] eqn:HW; [| vm_compute in HW; discriminate].
  exists r, w'. split; [reflexivity |].
  destruct (Walk_other_addresses 1 exampleBucket exampleContext _ w' r HW) as [_ Hother].
  destruct (Hother "192.0.2.8") as [_ Hsame]; [discriminate |].
  destruct Hsame as [-> _]; [intros n; apply Forall_nil_2 | reflexivity].
Defined.



(** The EXEC of the first call commits and its reply is lost: the call
    returns the error of the client library, and the token is taken. *)
Example Walk_lost_reply :
  outcomes (walkAll 1 exampleBucket [exampleContext]
              (lostReplyWorld emptyRedis exampleTime "i/o timeout"))
    (keyOf "192.0.2.7")
  = Some ([Some (StoreError "i/o timeout")], Some "2|2024-02-29T12:34:56Z").
Proof. vm_compute. reflexivity. Qed.

(** ** The end of the loop *)

Lemma walkRead_error_Is (b : RedisBucket) (ip : string) (w w2 : world) (err : error) :
  walkRead b ip w = (inl err, w2) -> errors_Is err TxFailedErr = false.
Proof.
  rewrite walkRead_eq.
  destruct (fault w (List.length (sent w))) as [msg |]; [by intros [= <- _] |].
  destruct (data (served w) !! keyOf ip) as [e |]; [| done].
  destruct (decodeRecord (value e)) as [err0 | [tokens t]] eqn:Hdec.
  { intros [= <- _]. by destruct (decodeRecord_error_Is _ _ Hdec) as (? & _). }
  destruct (refill_world b tokens t (afterSend (CmdGet (keyOf ip)) w))
    as (tokens' & t' & k & -> & _).
  destruct (tokens' <=? 0); [by intros [= <- _] | done].
Qed.

(** A round during which the others leave the key alone, from the WATCH
    to the EXEC, does not end on [redis.TxFailedErr]. *)
Lemma round_no_conflict (b : RedisBucket) (ip : string) (w w' : world) (err : error) :
  let n := List.length (sent w) in
  sparesKey (keyOf ip) (others w (S n)) -> sparesKey (keyOf ip) (others w (S (S n))) ->
  clientWatch (walkTx b ip) (keyOf ip) w = (inl err, w') ->
  errors_Is err TxFailedErr = false.
Proof.
  intros n H1 H2. rewrite clientWatch_eq. fold n.
  destruct (fault w n) as [msg |]; [by intros [= <- _] |].
  destruct (walkRead b ip (afterSend (CmdWatch (keyOf ip)) w)) as [[err0 | [tokens t]] w2]
    eqn:Hrd.
  { intros [= <- _]. by eapply walkRead_error_Is. }
  destruct (walkRead_ok _ _ _ _ _ _ Hrd) as (_ & [k ->] & _).
  unfold walkWrite. rewrite txPipelinedSet_eq.
  set (wg := advance k (afterSend (CmdGet (keyOf ip)) (afterSend (CmdWatch (keyOf ip)) w))).
  change (fault wg) with (fault w). destruct (fault w (List.length (sent wg))) as [msg |];
    [by intros [= <- _] |].
  assert (Hrev : revOf (keyOf ip) (served wg) = revOf (keyOf ip) (served w)).
  { unfold served at 1. change (others wg) with (others w).
    change (List.length (sent wg)) with (S (S n)).
    destruct (foldl_spares (keyOf ip) _ (server wg) H2) as [_ ->].
    change (server wg) with (served (afterSend (CmdWatch (keyOf ip)) w)).
    unfold served at 1. change (others (afterSend (CmdWatch (keyOf ip)) w)) with (others w).
    change (List.length (sent (afterSend (CmdWatch (keyOf ip)) w))) with (S n).
    by destruct (foldl_spares (keyOf ip) _ (server (afterSend (CmdWatch (keyOf ip)) w)) H1)
      as [_ ->]. }
  simpl watched. simpl seen. rewrite Hrev.
  rewrite bool_decide_eq_true_2 by done. done.
Qed.

Lemma walkLoop_returns (N : nat) (b : RedisBucket) (ip : string) :
  forall (k : nat) (w : world),
    (N <= List.length (sent w) + 1 + 3 * k)%nat ->
    (forall n, (N <= n)%nat -> sparesKey (keyOf ip) (others w n)) ->
    exists r w', walkLoop (S k) b ip w = Some (r, w').
Proof.
  induction k as [|k IH]; intros w HN Hq.
  - cbn [walkLoop].
    destruct (clientWatch (walkTx b ip) (keyOf ip) w) as [[err | u] w1] eqn:Hround;
      [| by eauto].
    rewrite (round_no_conflict b ip w w1 err); [by eauto | | | done]; apply Hq; lia.
  - change (walkLoop (S (S k)) b ip w)
      with (match clientWatch (walkTx b ip) (keyOf ip) w with
            | (inl err, w') =>
                if negb (errors_Is err TxFailedErr) then Some (Some err, w')
                else walkLoop (S k) b ip w'
            | (inr _, w') => Some (None, w')
            end).
    destruct (clientWatch (walkTx b ip) (keyOf ip) w) as [[err | u] w1] eqn:Hround;
      [| by eauto].
    destruct (errors_Is err TxFailedErr) eqn:Htx; [| by eauto]. cbn [negb].
    destruct (round_summary _ _ _ _ _ Hround) as ((_ & _ & Ho & _) & _ & cmds & Hsent & _ & Hres).
    destruct Hres as (_ & _ & Hc). destruct (Hc Htx) as (_ & val & ->).
    apply IH.
    + rewrite Hsent, length_app. simpl. lia.
    + intros n Hn. rewrite Ho. by apply Hq.
Qed.

(** X5. [Walk] returns once the others leave the key alone: when no
    other client writes the key from the caller's command number [N] on,
    the call returns within [fuel + 1] rounds, [fuel] being such that
    [N <= sent + 1 + 3 * fuel] (a round takes three commands). When
    nobody writes the key at all, one round is enough. *)
Theorem Walk_returns (fuel N : nat) (b : RedisBucket) (ctx : Context) (w : world) :
  (forall n, (N <= n)%nat -> sparesKey (keyOf (ClientIP ctx)) (others w n)) ->
  (N <= List.length (sent w) + 1 + 3 * fuel)%nat ->
  exists r w', RedisBucket_Walk (S fuel) b ctx w = Some (r, w').
Proof.
  intros Hq HN. destruct (core b) as [c |] eqn:Hcore.
  - rewrite RedisBucket_Walk_loop by congruence. by apply (walkLoop_returns N).
  - unfold RedisBucket_Walk. rewrite Hcore. by eauto.
Qed.

Lemma Walk_returns_witness :
  exists r w',
    RedisBucket_Walk 2 exampleBucket exampleContext
      (contendedWorld emptyRedis exampleTime (keyOf "192.0.2.7") "1|2024-02-29T12:34:56Z")
    = Some (r, w').
Proof.
  apply (Walk_returns 1 2 exampleBucket exampleContext
           (contendedWorld emptyRedis exampleTime (keyOf "192.0.2.7")
              "1|2024-02-29T12:34:56Z")).
  - intros n Hn. simpl. rewrite bool_decide_eq_false_2 by lia. apply Forall_nil_2.
  - simpl. lia.
Defined.

Lemma round_lost (b : RedisBucket) (ip : string) (w : world) (e0 : entry)
    (tokens : Z) (t0 : Time) :
  wfBucket b ->
  (forall i, fault w i = None) -> (forall i, others w i = [(keyOf ip, Some e0)]) ->
  value e0 = encodeRecord tokens t0 -> cap b <= tokens <= maxInt64 -> validStamp t0 ->
  exists w',
    clientWatch (walkTx b ip) (keyOf ip) w = (inl TxFailedErr, w') /\ sameEnv w w'.
Proof.
  intros Hwf Hf Ho Hval Htok Hstamp. set (key := keyOf ip).
  destruct Hwf as (Hcap & _).
  assert (Hin : inInt64 tokens) by (unfold inInt64, minInt64; lia).
  rewrite clientWatch_eq. fold key. rewrite Hf.
  set (w1 := afterSend (CmdWatch key) w).
  assert (Hs0 : served w = redisWrite (server w) (key, Some e0)).
  { unfold served. by rewrite Ho. }
  assert (Hs1 : served w1 = redisWrite (served w) (key, Some e0)).
  { unfold served at 1. change (others w1) with (others w). rewrite Ho. done. }
  rewrite walkRead_eq. fold key. change (fault w1) with (fault w). rewrite Hf.
  rewrite Hs1, data_redisWrite, Hval, decodeRecord_encodeRecord by done.
  rewrite refill_full by lia.
  destruct (Z.leb_spec tokens 0) as [? | _]; [lia |].
  unfold walkWrite. rewrite txPipelinedSet_eq. fold key.
  set (w2 := afterSend (CmdGet key) w1).
  change (fault w2) with (fault w). rewrite Hf.
  assert (Hs2 : served w2 = redisWrite (served w1) (key, Some e0)).
  { unfold served at 1. change (others w2) with (others w). rewrite Ho. done. }
  simpl watched. simpl seen. rewrite Hs2, Hs1, !revOf_redisWrite.
  rewrite bool_decide_eq_false_2 by lia.
  eexists. split; [reflexivity | done].
Qed.

(** X6. The loop of [Walk] has no bound on its rounds: when another
    client writes the key before every command (here a record with at
    least the capacity in tokens) and no command fails, every round ends
    on [redis.TxFailedErr], and the call has not returned after any
    number of rounds. *)
Theorem Walk_has_no_retry_limit (fuel : nat) (b : RedisBucket) (ctx : Context) (w : world)
    (e0 : entry) (tokens : Z) (t0 : Time) :
  wfBucket b -> core b <> None ->
  (forall i, fault w i = None) ->
  (forall i, others w i = [(keyOf (ClientIP ctx), Some e0)]) ->
  value e0 = encodeRecord tokens t0 -> cap b <= tokens <= maxInt64 -> validStamp t0 ->
  RedisBucket_Walk fuel b ctx w = None.
Proof.
  intros Hwf Hcore Hf Ho Hval Htok Hstamp. rewrite RedisBucket_Walk_loop by done.
  assert (Hf' : forall i, fault (lookedUp w) i = None) by done.
  assert (Ho' : forall i, others (lookedUp w) i = [(keyOf (ClientIP ctx), Some e0)]) by done.
  generalize dependent (lookedUp w). clear Hf Ho w.
  induction fuel as [|f IH]; intros w Hf Ho; [done |]. cbn [walkLoop].
  destruct (round_lost b (ClientIP ctx) w e0 tokens t0 Hwf Hf Ho Hval Htok Hstamp)
    as (w' & -> & Hc & Hfe & Hoe & _).
  cbn [errors_Is error_eqb_flat orb negb]. apply IH.
  - intros i. by rewrite Hfe.
  - intros i. by rewrite Hoe.
Qed.

Lemma Walk_has_no_retry_limit_witness :
  RedisBucket_Walk 5 exampleBucket exampleContext
    (besetWorld emptyRedis exampleTime (keyOf "192.0.2.7") (encodeRecord 3 exampleTime))
  = None.
Proof.
  apply (Walk_has_no_retry_limit 5 exampleBucket exampleContext
           (besetWorld emptyRedis exampleTime (keyOf "192.0.2.7") (encodeRecord 3 exampleTime))
           (mkEntry (encodeRecord 3 exampleTime) DurationDefault) 3 exampleTime).
  - exact exampleBucket_wf.
  - discriminate.
  - reflexivity.
  - reflexivity.
  - reflexivity.
  - vm_compute. split; discriminate.
  - vm_compute. repeat split; discriminate.
Defined.

(** ** The errors of a call *)

Lemma walkRead_errors (b : RedisBucket) (ip : string) (w w2 : world) (err : error) :
  walkRead b ip w = (inl err, w2) -> walkError err /\ errors_Is err RedisNil = false.
Proof.
  rewrite walkRead_eq.
  destruct (fault w (List.length (sent w))) as [msg |].
  { intros [= <- _]. split; [left; by eexists | done]. }
  destruct (data (served w) !! keyOf ip) as [e |]; [| done].
  destruct (decodeRecord (value e)) as [err0 | [tokens t]] eqn:Hdec.
  { intros [= <- _]. split; [| by destruct (decodeRecord_error_Is _ _ Hdec) as (_ & _ & ?)].
    destruct (decodeRecord_error _ _ Hdec)
      as [[_ ->] | (_ & d0 & d1 & _ & [(k & _ & -> & Hk) | (n & _ & _ & ->)])].
    - do 2 right. by left.
    - do 3 right. left. by exists d0, k.
    - do 4 right. by eexists. }
  destruct (refill_world b tokens t (afterSend (CmdGet (keyOf ip)) w))
    as (tokens' & t' & k & -> & _).
  destruct (tokens' <=? 0); [| done].
  intros [= <- _]. split; [right; by left | done].
Qed.

Lemma round_errors (b : RedisBucket) (ip : string) (w w' : world) (err : error) :
  clientWatch (walkTx b ip) (keyOf ip) w = (inl err, w') ->
  err = TxFailedErr \/ (walkError err /\ errors_Is err RedisNil = false).
Proof.
  rewrite clientWatch_eq.
  destruct (fault w (List.length (sent w))) as [msg |].
  { intros [= <- _]. right. split; [left; by eexists | done]. }
  destruct (walkRead b ip (afterSend (CmdWatch (keyOf ip)) w)) as [[err0 | [tokens t]] w2]
    eqn:Hrd.
  { intros [= <- _]. right. by eapply walkRead_errors. }
  unfold walkWrite. rewrite txPipelinedSet_eq.
  destruct (fault w2 (List.length (sent w2))) as [msg |].
  { intros [= <- _]. right. split; [left; by eexists | done]. }
  case_bool_decide; [done |]. intros [= <- _]. by left.
Qed.

(** X7. The errors that [Walk] returns. From a bucket without client:
    "redis core is nil", and nothing else. From a bucket with a client,
    never that one, but: an error of the client library,
    [ErrNoTokensAwailable], [ErrBadSyntaxInStorage], strconv's error
    about the tokens, or the time package's error about the timestamp.
    It never returns [redis.Nil] (a key that is not there is a full
    bucket, not an error) and never [redis.TxFailedErr]. *)
Theorem Walk_errors (fuel : nat) (b : RedisBucket) (ctx : Context) (w w' : world)
    (err : error) :
  RedisBucket_Walk fuel b ctx w = Some (Some err, w') ->
  match core b with
  | None => err = NewError "redis core is nil"
  | Some _ => walkError err
  end
  /\ errors_Is err RedisNil = false /\ errors_Is err TxFailedErr = false.
Proof.
  destruct (core b) as [c |] eqn:Hcore.
  - rewrite RedisBucket_Walk_loop by congruence. generalize (lookedUp w). clear w.
    induction fuel as [|f IH]; intros w; cbn [walkLoop]; [done |].
    destruct (clientWatch (walkTx b (ClientIP ctx)) (keyOf (ClientIP ctx)) w)
      as [[err0 | u] w1] eqn:Hround; [| done].
    destruct (errors_Is err0 TxFailedErr) eqn:Htx; cbn [negb]; [apply IH |].
    intros [= <- <-].
    destruct (round_errors _ _ _ _ _ Hround) as [-> | [Hw Hn]]; [done |]. done.
  - unfold RedisBucket_Walk. rewrite Hcore. by intros [= <- _].
Qed.

Lemma Walk_errors_witness :
  exists err w',
    RedisBucket_Walk 1 exampleBucket exampleContext
      (stillWorld (oneRecord (keyOf "192.0.2.7") "x|2024-02-29T12:34:56Z") exampleTime)
    = Some (Some err, w')
    /\ walkError err /\ errors_Is err RedisNil = false /\ errors_Is err TxFailedErr = false.
Proof.
  destruct (RedisBucket_Walk 1 exampleBucket exampleContext
              (stillWorld (oneRecord (keyOf "192.0.2.7") "x|2024-02-29T12:34:56Z") exampleTime))
    as [[[err |] w'] |] eqn:HW; try (vm_compute in HW; discriminate).
  exists err, w'. split; [reflexivity |].
  exact (Walk_errors 1 exampleBucket exampleContext _ w' err HW).
Defined.

(** ** The time that a refill keeps *)

(** X8. A refill that does not fill the bucket keeps the time already
    waited for the next token: when [elapsed / interval] tokens come in
    and the bucket is not full by them, the new refill time lies
    [elapsed mod interval] before the clock's reading, less than one
    interval. *)
Theorem refill_keeps_remainder (b : RedisBucket) (tokens : Z) (t : Time) (w : world) :
  let now := clock w (ticks w) in
  let elapsed := unixNano now - unixNano t in
  let add := elapsed / tokenAppendTime b in
  wfBucket b -> tokens < cap b -> cap b - tokens <= maxInt64 ->
  tokenAppendTime b <= elapsed <= maxInt64 ->
  add < cap b - tokens ->
  exists t',
    refill b tokens t w = (inr (tokens + add, t'), advance 1 w)
    /\ Since now t' = elapsed mod tokenAppendTime b
    /\ 0 <= Since now t' < tokenAppendTime b.
Proof.
  intros now elapsed add Hwf Htok Hdiff Hel Hpart.
  pose proof Hwf as (Hcap & Hta & _).
  assert (Hs : Since now t = elapsed).
  { apply Since_exact. fold elapsed. unfold minInt64. lia. }
  pose proof (refill_passed b tokens t w Hwf Htok Hdiff) as Hp. cbv zeta in Hp.
  fold now in Hp. rewrite Hs in Hp. fold add in Hp.
  destruct Hp as [Hadd Hr]; [lia |].
  rewrite Z.min_l in Hr by lia. rewrite Z.min_l in Hadd by lia.
  destruct (Z.eqb_spec (tokens + add) (cap b)) as [? | _]; [lia |].
  exists (Time_Add t (add * tokenAppendTime b)). split; [exact Hr |].
  pose proof (Z.mod_pos_bound elapsed (tokenAppendTime b) ltac:(lia)) as Hmod.
  assert (Heq : unixNano now - unixNano (Time_Add t (add * tokenAppendTime b))
                = elapsed mod tokenAppendTime b).
  { simpl. unfold add. rewrite Z.mod_eq by lia. fold elapsed. lia. }
  rewrite Since_exact by (rewrite Heq; unfold minInt64; lia).
  rewrite Heq. split; [done | lia].
Qed.

Lemma refill_keeps_remainder_witness :
  exists t',
    refill exampleBucket 0 exampleTime
      (stillWorld emptyRedis (Time_Add exampleTime (25 * Second)))
    = (inr (0 + 2, t'), advance 1 (stillWorld emptyRedis (Time_Add exampleTime (25 * Second))))
    /\ Since (Time_Add exampleTime (25 * Second)) t' = 5 * Second.
Proof.
  destruct (refill_keeps_remainder exampleBucket 0 exampleTime
              (stillWorld emptyRedis (Time_Add exampleTime (25 * Second))))
    as (t' & Hr & Hs & _).
  - exact exampleBucket_wf.
  - reflexivity.
  - vm_compute. discriminate.
  - vm_compute. split; discriminate.
  - reflexivity.
  - exists t'. split; [exact Hr | exact Hs].
Defined.

(** ** A call that nobody disturbs *)

Lemma calm_three (w : world) :
  calm 3 w ->
  let n := List.length (sent w) in
  (fault w n = None /\ others w n = [])
  /\ (fault w (S n) = None /\ others w (S n) = [])
  /\ (fault w (S (S n)) = None /\ others w (S (S n)) = []).
Proof.
  intros Hc n. pose proof (Hc 0%nat ltac:(lia)) as H0. pose proof (Hc 1%nat ltac:(lia)) as H1.
  pose proof (Hc 2%nat ltac:(lia)) as H2. fold n in H0, H1, H2.
  rewrite Nat.add_0_r in H0. rewrite Nat.add_1_r in H1.
  replace (n + 2)%nat with (S (S n)) in H2 by lia. done.
Qed.

Lemma walkRead_calm (b : RedisBucket) (ip : string) (w : world) :
  let n := List.length (sent w) in
  let w1 := afterSend (CmdGet (keyOf ip)) (afterSend (CmdWatch (keyOf ip)) w) in
  others w n = [] -> fault w (S n) = None -> others w (S n) = [] ->
  walkRead b ip (afterSend (CmdWatch (keyOf ip)) w)
  = match data (server w) !! keyOf ip with
    | None => (inr (cap b, clock w (ticks w)), advance 1 w1)
    | Some e =>
        match decodeRecord (value e) with
        | inl err => (inl err, w1)
        | inr (tokens, t) =>
            match refill b tokens t w1 with
            | (inr (tokens', t'), w') =>
                if tokens' <=? 0 then (inl ErrNoTokensAwailable, w') else (inr (tokens', t'), w')
            | (inl err, w') => (inl err, w')
            end
        end
    end.
Proof.
  intros n w1 Ho0 Hf1 Ho1. rewrite walkRead_eq.
  change (fault (afterSend (CmdWatch (keyOf ip)) w)) with (fault w).
  change (List.length (sent (afterSend (CmdWatch (keyOf ip)) w))) with (S n).
  rewrite Hf1.
  assert (Hs : served (afterSend (CmdWatch (keyOf ip)) w) = server w).
  { unfold served at 1. change (others (afterSend (CmdWatch (keyOf ip)) w)) with (others w).
    change (List.length (sent (afterSend (CmdWatch (keyOf ip)) w))) with (S n).
    rewrite Ho1. simpl. unfold served. fold n. by rewrite Ho0. }
  rewrite Hs. done.
Qed.

(** One round is the whole call: what was read is written, or the error
    of the read is returned. *)
Lemma Walk_calm (fuel : nat) (b : RedisBucket) (ctx : Context) (w : world) :
  let key := keyOf (ClientIP ctx) in
  core b <> None -> calm 3 w ->
  RedisBucket_Walk (S fuel) b ctx w
  = match walkRead b (ClientIP ctx) (afterSend (CmdWatch key) (lookedUp w)) with
    | (inl err, w2) => Some (Some err, w2)
    | (inr (tokens, t), w2) =>
        Some (None,
              setServer (afterSend (CmdExecSet key (encodeRecord (sub64 tokens 1) t) (dur b)) w2)
                (redisWrite (server w)
                   (key, Some (mkEntry (encodeRecord (sub64 tokens 1) t) (dur b)))))
    end.
Proof.
  intros key Hcore Hc. destruct (calm_three w Hc) as ((Hf0 & Ho0) & (Hf1 & Ho1) & (Hf2 & Ho2)).
  rewrite RedisBucket_Walk_loop by done. cbn [walkLoop]. rewrite clientWatch_eq. fold key.
  change (fault (lookedUp w)) with (fault w). change (sent (lookedUp w)) with (sent w).
  rewrite Hf0.
  destruct (walkRead b (ClientIP ctx) (afterSend (CmdWatch key) (lookedUp w)))
    as [[err | [tokens t]] w2] eqn:Hrd.
  { by rewrite (walkRead_error_Is _ _ _ _ _ Hrd). }
  destruct (walkRead_ok _ _ _ _ _ _ Hrd) as (_ & [k ->] & _). fold key.
  unfold walkWrite. rewrite txPipelinedSet_eq. fold key.
  set (wg := advance k (afterSend (CmdGet key) (afterSend (CmdWatch key) (lookedUp w)))).
  change (fault wg) with (fault w).
  change (List.length (sent wg)) with (S (S (List.length (sent w)))). rewrite Hf2.
  assert (Hs0 : served (lookedUp w) = server w).
  { unfold served. simpl. by rewrite Ho0. }
  assert (Hs2 : served wg = server w).
  { unfold served. simpl. rewrite Ho2. simpl. unfold served. simpl. rewrite Ho1. simpl.
    exact Hs0. }
  rewrite Hs2, Hs0. simpl watched. simpl seen.
  by rewrite bool_decide_eq_true_2.
Qed.

Lemma Walk_calm_absent (fuel : nat) (b : RedisBucket) (ctx : Context) (w : world) :
  let key := keyOf (ClientIP ctx) in
  let val := encodeRecord (sub64 (cap b) 1) (clock w (ticks w)) in
  core b <> None -> calm 3 w -> data (server w) !! key = None ->
  RedisBucket_Walk (S fuel) b ctx w
  = Some (None,
          setServer
            (afterSend (CmdExecSet key val (dur b))
               (advance 1 (afterSend (CmdGet key) (afterSend (CmdWatch key) (lookedUp w)))))
            (redisWrite (server w) (key, Some (mkEntry val (dur b))))).
Proof.
  intros key val Hcore Hc Hnone.
  destruct (calm_three w Hc) as ((Hf0 & Ho0) & (Hf1 & Ho1) & _).
  rewrite Walk_calm by done. rewrite walkRead_calm by done.
  change (server (lookedUp w)) with (server w). fold key. by rewrite Hnone.
Qed.

Lemma Walk_calm_present (fuel : nat) (b : RedisBucket) (ctx : Context) (w : world)
    (e : entry) (tokens : Z) (t : Time) :
  let key := keyOf (ClientIP ctx) in
  core b <> None -> calm 3 w -> data (server w) !! key = Some e ->
  decodeRecord (value e) = inr (tokens, t) ->
  RedisBucket_Walk (S fuel) b ctx w
  = match refill b tokens t (afterSend (CmdGet key) (afterSend (CmdWatch key) (lookedUp w))) with
    | (inr (tokens', t'), w2) =>
        if tokens' <=? 0 then Some (Some ErrNoTokensAwailable, w2)
        else
          Some (None,
                setServer
                  (afterSend (CmdExecSet key (encodeRecord (sub64 tokens' 1) t') (dur b)) w2)
                  (redisWrite (server w)
                     (key, Some (mkEntry (encodeRecord (sub64 tokens' 1) t') (dur b)))))
    | (inl err, w2) => Some (Some err, w2)
    end.
Proof.
  intros key Hcore Hc Hdata Hdec.
  destruct (calm_three w Hc) as ((Hf0 & Ho0) & (Hf1 & Ho1) & _).
  rewrite Walk_calm by done. rewrite walkRead_calm by done.
  change (server (lookedUp w)) with (server w). fold key. rewrite Hdata, Hdec.
  destruct (refill b tokens t _) as [[err | [tokens' t']] w2]; [done |].
  by destruct (tokens' <=? 0).
Qed.

Lemma sub64_one (tokens : Z) : 1 <= tokens <= maxInt64 -> sub64 tokens 1 = tokens - 1.
Proof.
  intros H. unfold sub64. apply wrap64_small. unfold inInt64, minInt64, maxInt64 in *. lia.
Qed.

Lemma calm_server (w : world) (key : string) (k : nat) :
  calm 3 w ->
  server (advance k (afterSend (CmdGet key) (afterSend (CmdWatch key) (lookedUp w))))
  = server w.
Proof.
  intros Hc. destruct (calm_three w Hc) as ((_ & Ho0) & (_ & Ho1) & _).
  simpl. unfold served. simpl. rewrite Ho1. simpl. unfold served. simpl. by rewrite Ho0.
Qed.

(** X9. A call for an address whose record holds [tokens] below the
    capacity, written at time [t0], when its three commands do not fail
    and nobody else writes meanwhile. The record's time is read back to
    the whole second. While less than a refill interval has passed since
    then: with no token the call returns [ErrNoTokensAwailable] and the
    server stays as it was; with tokens it returns nil and leaves one
    token less, the time unchanged. Once an interval has passed it
    returns nil and leaves the refilled tokens less one, the time being
    the clock's second reading when the bucket got full and the old time
    plus the intervals used otherwise. *)
Theorem Walk_on_record (fuel : nat) (b : RedisBucket) (ctx : Context) (w : world)
    (e : entry) (tokens : Z) (t0 : Time) :
  let key := keyOf (ClientIP ctx) in
  let t := truncSecond t0 in
  let elapsed := Since (clock w (ticks w)) t in
  wfBucket b -> core b <> None -> calm 3 w ->
  data (server w) !! key = Some e -> value e = encodeRecord tokens t0 -> validStamp t0 ->
  0 <= tokens < cap b ->
  (elapsed < tokenAppendTime b -> tokens = 0 ->
   exists w',
     RedisBucket_Walk (S fuel) b ctx w = Some (Some ErrNoTokensAwailable, w')
     /\ server w' = server w)
  /\ (elapsed < tokenAppendTime b -> 1 <= tokens ->
      exists w',
        RedisBucket_Walk (S fuel) b ctx w = Some (None, w')
        /\ data (server w') !! key = Some (mkEntry (encodeRecord (tokens - 1) t) (dur b)))
  /\ (tokenAppendTime b <= elapsed ->
      let add := Z.min (elapsed / tokenAppendTime b) (cap b - tokens) in
      let t' := if tokens + add =? cap b then clock w (S (ticks w))
                else Time_Add t (add * tokenAppendTime b) in
      exists w',
        RedisBucket_Walk (S fuel) b ctx w = Some (None, w')
        /\ data (server w') !! key
           = Some (mkEntry (encodeRecord (tokens + add - 1) t') (dur b))).
Proof.
  intros key t elapsed Hwf Hcore Hc Hdata Hval Hstamp Htok.
  assert (Hin : inInt64 tokens).
  { destruct Hwf as (Hcap & _). unfold inInt64, minInt64. lia. }
  assert (Hdec : decodeRecord (value e) = inr (tokens, t)).
  { rewrite Hval. by apply decodeRecord_encodeRecord. }
  pose proof (Walk_calm_present fuel b ctx w e tokens t Hcore Hc Hdata Hdec) as HW.
  fold key in HW.
  set (w1 := afterSend (CmdGet key) (afterSend (CmdWatch key) (lookedUp w))) in *.
  split; [| split].
  - intros Hearly ->. rewrite refill_early in HW by (done || lia).
    cbn [Z.leb] in HW. eexists. split; [exact HW |]. by apply calm_server.
  - intros Hearly Hone. rewrite refill_early in HW by (done || lia).
    revert HW. destruct (Z.leb_spec tokens 0) as [? | _]; [lia |]. intros HW.
    destruct Hwf as (Hcap & _). rewrite sub64_one in HW by lia.
    eexists. split; [exact HW |]. simpl. unfold redisWrite. simpl.
    by rewrite lookup_insert_eq.
  - intros Hlate add t'.
    pose proof (refill_passed b tokens t w1 Hwf) as Hp. cbv zeta in Hp.
    destruct Hp as [Hadd Hr]; [lia | | exact Hlate |].
    { destruct Hwf as (Hcap & _). lia. }
    cbv zeta in Hadd, Hr.
    change (clock w1 (ticks w1)) with (clock w (ticks w)) in Hadd, Hr.
    change (clock w1 (S (ticks w1))) with (clock w (S (ticks w))) in Hr.
    fold elapsed in Hadd, Hr. fold add in Hadd, Hr. rewrite Hr in HW.
    assert (Hle : tokens + add <= cap b) by lia.
    destruct Hwf as (Hcap & _).
    revert HW. destruct (Z.eqb_spec (tokens + add) (cap b)) as [Heq | Hne].
    + destruct (Z.leb_spec (cap b) 0) as [? | _]; [lia |]. intros HW.
      rewrite sub64_one in HW by lia.
      eexists. split; [exact HW |]. simpl. unfold redisWrite. simpl.
      rewrite lookup_insert_eq. subst t'. by rewrite Heq.
    + destruct (Z.leb_spec (tokens + add) 0) as [? | _]; [lia |]. intros HW.
      rewrite sub64_one in HW by lia.
      eexists. split; [exact HW |]. simpl. unfold redisWrite. simpl.
      by rewrite lookup_insert_eq.
Qed.

Lemma Walk_on_record_witness :
  exists w',
    RedisBucket_Walk 1 exampleBucket exampleContext
      (stillWorld (oneRecord (keyOf "192.0.2.7") (encodeRecord 0 exampleTime))
         (Time_Add exampleTime (20 * Second)))
    = Some (None, w')
    /\ data (server w') !! keyOf "192.0.2.7"
       = Some (mkEntry (encodeRecord 1 (Time_Add exampleTime (2 * (10 * Second))))
                 DurationDefault).
Proof.
  destruct (Walk_on_record 0 exampleBucket exampleContext
              (stillWorld (oneRecord (keyOf "192.0.2.7") (encodeRecord 0 exampleTime))
                 (Time_Add exampleTime (20 * Second)))
              (mkEntry (encodeRecord 0 exampleTime) DurationDefault) 0 exampleTime)
    as (_ & _ & Hlate).
  - exact exampleBucket_wf.
  - discriminate.
  - intros i _. split; reflexivity.
  - reflexivity.
  - reflexivity.
  - vm_compute. repeat split; discriminate.
  - vm_compute. split; [discriminate | reflexivity].
  - apply Hlate. vm_compute. discriminate.
Defined.

(** X10. A record with the capacity in tokens or more (one that another
    writer has put there) is not cut down to the capacity and not
    refilled: the call returns nil, leaves one token less and the
    record's time as it was, and does not read the clock. *)
Theorem Walk_full_record (fuel : nat) (b : RedisBucket) (ctx : Context) (w : world)
    (e : entry) (tokens : Z) (t0 : Time) :
  let key := keyOf (ClientIP ctx) in
  wfBucket b -> core b <> None -> calm 3 w ->
  data (server w) !! key = Some e -> value e = encodeRecord tokens t0 -> validStamp t0 ->
  cap b <= tokens <= maxInt64 ->
  exists w',
    RedisBucket_Walk (S fuel) b ctx w = Some (None, w')
    /\ data (server w') !! key
       = Some (mkEntry (encodeRecord (tokens - 1) (truncSecond t0)) (dur b))
    /\ ticks w' = ticks w.
Proof.
  intros key Hwf Hcore Hc Hdata Hval Hstamp Htok. destruct Hwf as (Hcap & _).
  assert (Hin : inInt64 tokens) by (unfold inInt64, minInt64; lia).
  assert (Hdec : decodeRecord (value e) = inr (tokens, truncSecond t0)).
  { rewrite Hval. by apply decodeRecord_encodeRecord. }
  pose proof (Walk_calm_present fuel b ctx w e tokens _ Hcore Hc Hdata Hdec) as HW.
  fold key in HW. rewrite refill_full in HW by lia.
  revert HW. destruct (Z.leb_spec tokens 0) as [? | _]; [lia |]. intros HW.
  rewrite sub64_one in HW by lia.
  eexists. split; [exact HW |]. split; [| done]. simpl. unfold redisWrite. simpl.
  by rewrite lookup_insert_eq.
Qed.

Lemma Walk_full_record_witness :
  exists w',
    RedisBucket_Walk 1 exampleBucket exampleContext
      (stillWorld (oneRecord (keyOf "192.0.2.7") (encodeRecord 5 exampleTime)) exampleTime)
    = Some (None, w')
    /\ data (server w') !! keyOf "192.0.2.7"
       = Some (mkEntry (encodeRecord (5 - 1) (truncSecond exampleTime)) DurationDefault)
    /\ ticks w' = 0%nat.
Proof.
  apply (Walk_full_record 0 exampleBucket exampleContext
           (stillWorld (oneRecord (keyOf "192.0.2.7") (encodeRecord 5 exampleTime)) exampleTime)
           (mkEntry (encodeRecord 5 exampleTime) DurationDefault) 5 exampleTime).
  - exact exampleBucket_wf.
  - discriminate.
  - intros i _. split; reflexivity.
  - reflexivity.
  - reflexivity.
  - vm_compute. repeat split; discriminate.
  - vm_compute. split; discriminate.
Defined.

(** ** Calls one after the other in one window *)

Lemma quietView_env (b : RedisBucket) (start : Z) (w w' : world) :
  sameEnv w w' -> quietView b start w -> quietView b start w'.
Proof.
  intros (Hc & Hf & Ho & _) (Hqf & Hqo & Hqc). unfold quietView. by rewrite Hc, Hf, Ho.
Qed.

Lemma quietView_calm (b : RedisBucket) (start : Z) (w : world) (k : nat) :
  quietView b start w -> calm k w.
Proof. intros (Hf & Ho & _) i _. by split. Qed.

Lemma replicate_split (n c : nat) (x y : option error) :
  (0 < c)%nat ->
  x :: (replicate (n `min` (c - 1)) x ++ replicate (n - (c - 1)) y)
  = replicate (S n `min` c) x ++ replicate (S n - c) y.
Proof.
  intros Hc. replace (S n `min` c)%nat with (S (n `min` (c - 1))) by lia.
  by replace (S n - c)%nat with (n - (c - 1))%nat by lia.
Qed.

Lemma walkAll_quiet_present (fuel : nat) (b : RedisBucket) (ctx : Context) (start : Z) :
  wfBucket b -> core b <> None -> start mod Second = 0 ->
  forall (n : nat) (w : world) (tokens : Z) (t : Time) (expiry : Duration),
    quietView b start w ->
    data (server w) !! keyOf (ClientIP ctx) = Some (mkEntry (encodeRecord tokens t) expiry) ->
    0 <= tokens < cap b -> quietTime b start t ->
    exists w' t' expiry',
      walkAll (S fuel) b (replicate n ctx) w
      = Some (replicate (n `min` Z.to_nat tokens) None
              ++ replicate (n - Z.to_nat tokens) (Some ErrNoTokensAwailable), w')
      /\ data (server w') !! keyOf (ClientIP ctx)
         = Some (mkEntry (encodeRecord (tokens - Z.of_nat (n `min` Z.to_nat tokens)) t')
                   expiry').
Proof.
  intros Hwf Hcore Hstart. set (key := keyOf (ClientIP ctx)).
  induction n as [|n IH]; intros w tokens t expiry Hq Hdata Htok Ht.
  { exists w, t, expiry. split; [done |]. simpl. by rewrite Z.sub_0_r. }
  assert (Hin : inInt64 tokens).
  { destruct Hwf as (Hcap & _). unfold inInt64, minInt64. lia. }
  assert (Hdec : decodeRecord (value (mkEntry (encodeRecord tokens t) expiry))
                 = inr (tokens, truncSecond t)).
  { simpl. apply decodeRecord_encodeRecord; [done | by destruct Ht]. }
  pose proof (Walk_calm_present fuel b ctx w _ tokens _ Hcore (quietView_calm _ _ _ 3 Hq)
                Hdata Hdec) as HW.
  fold key in HW.
  set (w1 := afterSend (CmdGet key) (afterSend (CmdWatch key) (lookedUp w))) in *.
  rewrite refill_early in HW; [| lia |]; cycle 1.
  { apply (Since_quiet b start Hwf).
    - destruct Hq as (_ & _ & Hclock). exact (Hclock (ticks w)).
    - by apply quietTime_truncSecond. }
  cbn [replicate walkAll]. rewrite HW. clear HW.
  destruct (Z.leb_spec tokens 0) as [Hzero | Hpos].
  - (* no token: turned away, the record stays *)
    assert (tokens = 0) as -> by lia.
    destruct (IH (advance 1 w1) 0 t expiry) as (w' & t' & expiry' & -> & Hrec);
      [by eapply quietView_env | | lia | done |].
    { unfold w1. rewrite calm_server; [done | by eapply quietView_calm]. }
    exists w', t', expiry'. split.
    + simpl. by rewrite !Nat.min_0_r, !Nat.sub_0_r.
    + rewrite Hrec. simpl. by rewrite !Nat.min_0_r.
  - (* a token: let through, one token less *)
    destruct Hwf as (Hcap & Hwf'). rewrite sub64_one by lia.
    match goal with |- context [walkAll _ _ _ ?w2] => set (wn := w2) end.
    destruct (IH wn (tokens - 1) (truncSecond t) (dur b)) as (w' & t' & expiry' & -> & Hrec).
    + by eapply quietView_env.
    + subst wn. simpl. unfold redisWrite. simpl. by rewrite lookup_insert_eq.
    + lia.
    + by apply quietTime_truncSecond.
    + exists w', t', expiry'.
      replace (Z.to_nat (tokens - 1)) with (Z.to_nat tokens - 1)%nat in * by lia.
      split.
      * f_equal. f_equal. apply replicate_split. lia.
      * rewrite Hrec. do 3 f_equal. lia.
Qed.

(** X11. [n] calls one after the other for an address that is not on the
    server, all within a window shorter than the refill interval that
    starts on a whole second, no command failing, nobody else writing and
    the record not expiring meanwhile: the first [capacity] calls return
    nil and all later ones [ErrNoTokensAwailable], each after one round;
    the record then holds the capacity less the calls let through. *)
Theorem Walk_sequence_limit (fuel : nat) (b : RedisBucket) (ctx : Context) (start : Z)
    (w : world) (n : nat) :
  let key := keyOf (ClientIP ctx) in
  let c := Z.to_nat (cap b) in
  wfBucket b -> core b <> None -> start mod Second = 0 ->
  quietView b start w -> data (server w) !! key = None ->
  exists w',
    walkAll (S fuel) b (replicate n ctx) w
    = Some (replicate (n `min` c) None ++ replicate (n - c) (Some ErrNoTokensAwailable), w')
    /\ ((0 < n)%nat ->
        exists t expiry,
          data (server w') !! key
          = Some (mkEntry (encodeRecord (cap b - Z.of_nat (n `min` c)) t) expiry)).
Proof.
  intros key c Hwf Hcore Hstart Hq Hnone. destruct n as [|n].
  { exists w. split; [done | lia]. }
  cbn [replicate walkAll].
  rewrite Walk_calm_absent; [| done | by eapply quietView_calm | done].
  fold key. pose proof Hwf as (Hcap & _). rewrite sub64_one by lia.
  match goal with |- context [walkAll _ _ _ ?w2] => set (wn := w2) end.
  destruct (walkAll_quiet_present fuel b ctx start Hwf Hcore Hstart n wn (cap b - 1)
              (clock w (ticks w)) (dur b)) as (w' & t' & expiry' & -> & Hrec).
  - by eapply quietView_env.
  - subst wn. simpl. unfold redisWrite. simpl. by rewrite lookup_insert_eq.
  - lia.
  - destruct Hq as (_ & _ & Hclock). exact (Hclock (ticks w)).
  - exists w'. fold key in Hrec.
    replace (Z.to_nat (cap b - 1)) with (c - 1)%nat in * by lia.
    split.
    + f_equal. f_equal. apply replicate_split. lia.
    + intros _. exists t', expiry'. rewrite Hrec. do 3 f_equal. lia.
Qed.

Lemma Walk_sequence_limit_witness :
  exists w',
    walkAll 1 exampleBucket (replicate 5 exampleContext) (stillWorld emptyRedis exampleTime)
    = Some ([None; None; None; Some ErrNoTokensAwailable; Some ErrNoTokensAwailable], w').
Proof.
  destruct (Walk_sequence_limit 0 exampleBucket exampleContext (unixNano exampleTime)
              (stillWorld emptyRedis exampleTime) 5) as (w' & Hall & _).
  - exact exampleBucket_wf.
  - discriminate.
  - reflexivity.
  - exact exampleTime_quiet.
  - reflexivity.
  - exists w'. exact Hall.
Defined.

(** ** A refill interval below a second *)

Lemma unixSec_in_second (start : Z) (t : Time) :
  start mod Second = 0 -> start <= unixNano t < start + Second ->
  unixSec t = start / Second /\ unixNano (truncSecond t) = start.
Proof.
  unfold unixSec, truncSecond, Second. simpl. intros Hs Ht.
  pose proof (Z.div_mod start 1000000000 ltac:(lia)) as Hd. rewrite Hs in Hd.
  assert (H : unixNano t / 1000000000 = start / 1000000000).
  { symmetry. apply Z.div_unique with (r := unixNano t - start); lia. }
  rewrite H. split; [done |]. unfold unixSec, Second. rewrite H. lia.
Qed.

Lemma validStamp_same_second (t t' : Time) :
  unixSec t' = unixSec t -> zoneOffset t' = zoneOffset t -> validStamp t -> validStamp t'.
Proof.
  unfold validStamp, yearOf, absSeconds. by intros -> ->.
Qed.

Lemma lateView_env (b : RedisBucket) (start : Z) (w w' : world) :
  sameEnv w w' -> lateView b start w -> lateView b start w'.
Proof.
  intros (Hc & Hf & Ho & _) (Hqf & Hqo & Hqc). unfold lateView. by rewrite Hc, Hf, Ho.
Qed.

Lemma lateView_calm (b : RedisBucket) (start : Z) (w : world) (k : nat) :
  lateView b start w -> calm k w.
Proof. intros (Hf & Ho & _) i _. by split. Qed.

Lemma walkAll_late (fuel : nat) (b : RedisBucket) (ctx : Context) (start : Z) :
  wfBucket b -> core b <> None -> start mod Second = 0 ->
  forall (n : nat) (w : world) (tokens : Z) (t : Time) (expiry : Duration),
    lateView b start w ->
    data (server w) !! keyOf (ClientIP ctx) = Some (mkEntry (encodeRecord tokens t) expiry) ->
    0 <= tokens < cap b -> start <= unixNano t < start + Second -> validStamp t ->
    exists w', walkAll (S fuel) b (replicate n ctx) w = Some (replicate n None, w').
Proof.
  intros Hwf Hcore Hstart. set (key := keyOf (ClientIP ctx)).
  induction n as [|n IH]; intros w tokens t expiry Hq Hdata Htok Ht Hstamp.
  { by exists w. }
  pose proof Hwf as (Hcap & Hta & _).
  assert (Hin : inInt64 tokens) by (unfold inInt64, minInt64; lia).
  assert (Hdec : decodeRecord (value (mkEntry (encodeRecord tokens t) expiry))
                 = inr (tokens, truncSecond t)).
  { simpl. by apply decodeRecord_encodeRecord. }
  pose proof (Walk_calm_present fuel b ctx w _ tokens _ Hcore (lateView_calm _ _ _ 3 Hq)
                Hdata Hdec) as HW.
  fold key in HW.
  set (w1 := afterSend (CmdGet key) (afterSend (CmdWatch key) (lookedUp w))) in *.
  destruct (unixSec_in_second start t Hstart Ht) as [Hsec Htrunc].
  pose proof Hq as (_ & _ & Hclock).
  destruct (Hclock (ticks w)) as [Hnow _]. destruct (Hclock (S (ticks w))) as [Hnow2 Hstamp2].
  assert (Hs : Since (clock w (ticks w)) (truncSecond t)
               = unixNano (clock w (ticks w)) - start).
  { rewrite Since_exact; rewrite Htrunc; [done |].
    unfold minInt64, maxInt64, Second in *. lia. }
  pose proof (refill_passed b tokens (truncSecond t) w1 Hwf) as Hp. cbv zeta in Hp.
  change (clock w1 (ticks w1)) with (clock w (ticks w)) in Hp.
  change (clock w1 (S (ticks w1))) with (clock w (S (ticks w))) in Hp.
  rewrite Hs in Hp.
  set (elapsed := unixNano (clock w (ticks w)) - start) in *.
  set (add := Z.min (elapsed / tokenAppendTime b) (cap b - tokens)) in *.
  destruct Hp as [Hadd Hr]; [lia | lia | lia |].
  assert (Hadd' : add * tokenAppendTime b <= elapsed).
  { assert (add <= elapsed / tokenAppendTime b) by lia.
    pose proof (Z.mul_div_le elapsed (tokenAppendTime b) ltac:(lia)). nia. }
  rewrite Hr in HW. clear Hr. cbn [replicate walkAll]. rewrite HW. clear HW.
  destruct (Z.eqb_spec (tokens + add) (cap b)) as [Hfull | Hpart].
  - destruct (Z.leb_spec (cap b) 0) as [? | _]; [lia |]. rewrite sub64_one by lia.
    match goal with |- context [walkAll _ _ _ ?w2] => set (wn := w2) end.
    destruct (IH wn (cap b - 1) (clock w (S (ticks w))) (dur b)) as (w' & ->).
    + by eapply lateView_env.
    + subst wn. simpl. unfold redisWrite. simpl. by rewrite lookup_insert_eq.
    + lia.
    + lia.
    + done.
    + by exists w'.
  - destruct (Z.leb_spec (tokens + add) 0) as [? | _]; [lia |]. rewrite sub64_one by lia.
    match goal with |- context [walkAll _ _ _ ?w2] => set (wn := w2) end.
    assert (Ht' : start <= unixNano (Time_Add (truncSecond t) (add * tokenAppendTime b))
                  < start + Second).
    { simpl. fold (unixSec t). rewrite Hsec.
      assert (start / Second * Second = start).
      { pose proof (Z.div_mod start Second ltac:(done)) as Hd. rewrite Hstart in Hd. lia. }
      nia. }
    destruct (IH wn (tokens + add - 1) (Time_Add (truncSecond t) (add * tokenAppendTime b))
                (dur b)) as (w' & ->).
    + by eapply lateView_env.
    + subst wn. simpl. unfold redisWrite. simpl. by rewrite lookup_insert_eq.
    + lia.
    + exact Ht'.
    + apply (validStamp_same_second t); [| done | done].
      destruct (unixSec_in_second start _ Hstart Ht') as [-> _]. done.
    + by exists w'.
Qed.

(** X12. With a refill interval below a second the limit does not hold,
    because the record keeps whole seconds: calls made in one second,
    each a refill interval or more after the start of that second, all
    find that an interval has passed since the recorded time and are all
    let through, however many they are and however close together (no
    command failing, nobody else writing). *)
Theorem Walk_interval_below_a_second (fuel : nat) (b : RedisBucket) (ctx : Context)
    (start : Z) (w : world) (n : nat) :
  wfBucket b -> core b <> None -> start mod Second = 0 ->
  lateView b start w -> data (server w) !! keyOf (ClientIP ctx) = None ->
  exists w', walkAll (S fuel) b (replicate n ctx) w = Some (replicate n None, w').
Proof.
  intros Hwf Hcore Hstart Hq Hnone. destruct n as [|n]; [by exists w |].
  cbn [replicate walkAll].
  rewrite Walk_calm_absent; [| done | by eapply lateView_calm | done].
  pose proof Hwf as (Hcap & Hta & _). rewrite sub64_one by lia.
  match goal with |- context [walkAll _ _ _ ?w2] => set (wn := w2) end.
  pose proof Hq as (_ & _ & Hclock). destruct (Hclock (ticks w)) as [Hnow Hstamp].
  destruct (walkAll_late fuel b ctx start Hwf Hcore Hstart n wn (cap b - 1)
              (clock w (ticks w)) (dur b)) as (w' & ->).
  - by eapply lateView_env.
  - subst wn. simpl. unfold redisWrite. simpl. by rewrite lookup_insert_eq.
  - lia.
  - lia.
  - done.
  - by exists w'.
Qed.

Lemma Walk_interval_below_a_second_witness :
  exists w',
    walkAll 1 quickBucket (replicate 5 exampleContext)
      (stillWorld emptyRedis (Time_Add exampleTime 500000000))
    = Some ([None; None; None; None; None], w').
Proof.
  apply (Walk_interval_below_a_second 0 quickBucket exampleContext (unixNano exampleTime)
           (stillWorld emptyRedis (Time_Add exampleTime 500000000)) 5).
  - apply NewRedisBucketWithClient_wf; vm_compute; split; discriminate.
  - discriminate.
  - reflexivity.
  - split; [done |]. split; [done |]. intros k. split.
    + vm_compute. split; [discriminate | reflexivity].
    + vm_compute. repeat split; discriminate.
  - reflexivity.
Defined.

(** ** The rate of the calls let through *)

Lemma daysBeforeYear_mono (y y' : Z) : y <= y' -> daysBeforeYear y <= daysBeforeYear y'.
Proof. unfold daysBeforeYear. intros H. Z.div_mod_to_equations. lia. Qed.

Lemma daysBeforeYear_next (y : Z) :
  daysBeforeYear (y + 1) = daysBeforeYear y + daysBefore (isLeap y) 13.
Proof.
  rewrite daysBefore_13. unfold daysBeforeYear, isLeap.
  replace (y + 1 - 1) with y by lia.
  destruct (Z.eqb_spec (y mod 4) 0), (Z.eqb_spec (y mod 100) 0), (Z.eqb_spec (y mod 400) 0);
    simpl; Z.div_mod_to_equations; lia.
Qed.

Lemma yearOfDay_mono (d d' : Z) : d <= d' -> fst (yearOfDay d) <= fst (yearOfDay d').
Proof.
  intros Hd. pose proof (yearOfDay_spec d) as H. pose proof (yearOfDay_spec d') as H'.
  destruct (yearOfDay d) as [y yd], (yearOfDay d') as [y' yd']. simpl.
  destruct H as [H1 H2], H' as [H1' H2'].
  destruct (Z.le_gt_cases y y') as [? | Hgt]; [done |]. exfalso.
  pose proof (daysBeforeYear_mono (y' + 1) y ltac:(lia)) as Hm.
  rewrite daysBeforeYear_next in Hm. lia.
Qed.

Lemma yearOf_mono (t t' : Time) :
  zoneOffset t = zoneOffset t' -> unixSec t <= unixSec t' -> yearOf t <= yearOf t'.
Proof.
  intros Hz Hs. unfold yearOf, absSeconds. apply yearOfDay_mono. rewrite Hz.
  apply Z.div_le_mono; [done | lia].
Qed.

Lemma validStamp_between (t1 t t2 : Time) :
  validStamp t1 -> validStamp t2 ->
  zoneOffset t = zoneOffset t1 -> zoneOffset t = zoneOffset t2 ->
  unixSec t1 <= unixSec t <= unixSec t2 -> validStamp t.
Proof.
  intros [Hy1 Hz1] [Hy2 Hz2] Hz Hz' Hs. split; [| by rewrite Hz].
  pose proof (yearOf_mono t1 t ltac:(done) ltac:(lia)).
  pose proof (yearOf_mono t t2 ltac:(done) ltac:(lia)). lia.
Qed.

Lemma truncSecond_bounds (t : Time) :
  unixNano (truncSecond t) <= unixNano t < unixNano (truncSecond t) + Second.
Proof.
  unfold truncSecond, unixSec, Second. simpl.
  pose proof (Z.div_mod (unixNano t) 1000000000 ltac:(lia)).
  pose proof (Z.mod_pos_bound (unixNano t) 1000000000 ltac:(lia)). lia.
Qed.

Lemma unixSec_le (t t' : Time) : unixNano t <= unixNano t' -> unixSec t <= unixSec t'.
Proof. unfold unixSec. intros H. apply Z.div_le_mono; [done | lia]. Qed.

Lemma truncSecond_mono (t t' : Time) :
  unixNano t <= unixNano t' -> unixNano (truncSecond t) <= unixNano (truncSecond t').
Proof.
  intros H. unfold truncSecond. simpl. apply Z.mul_le_mono_nonneg_r; [done |].
  by apply unixSec_le.
Qed.

Lemma truncSecond_twice (t : Time) : truncSecond (truncSecond t) = truncSecond t.
Proof. unfold truncSecond at 1 3. by rewrite unixSec_truncSecond. Qed.

Lemma validStamp_truncSecond (t : Time) : validStamp t -> validStamp (truncSecond t).
Proof. apply validStamp_same_second; [apply unixSec_truncSecond | done]. Qed.

Lemma steadyView_env (t0 t1 zone : Z) (w w' : world) :
  sameEnv w w' -> steadyView t0 t1 zone w -> steadyView t0 t1 zone w'.
Proof.
  intros (Hc & Hf & Ho & _) (Hqf & Hqo & Hqm & Hqc). unfold steadyView. by rewrite Hc, Hf, Ho.
Qed.

Lemma steadyView_calm (t0 t1 zone : Z) (w : world) (k : nat) :
  steadyView t0 t1 zone w -> calm k w.
Proof. intros (Hf & Ho & _) i _. by split. Qed.

Lemma walkAll_rate (fuel : nat) (b : RedisBucket) (ctx : Context) (t0 t1 zone : Z) :
  wfBucket b -> core b <> None -> t1 - t0 + Second <= maxInt64 ->
  forall (n : nat) (w : world) (x : Z) (t : Time) (expiry : Duration),
    steadyView t0 t1 zone w ->
    data (server w) !! keyOf (ClientIP ctx) = Some (mkEntry (encodeRecord x t) expiry) ->
    0 <= x < cap b -> validStamp t -> zoneOffset t = zone ->
    t0 - Second <= unixNano (truncSecond t) ->
    unixNano t <= unixNano (clock w (ticks w)) ->
    exists rs w',
      walkAll (S fuel) b (replicate n ctx) w = Some (rs, w')
      /\ Z.of_nat (admitted rs) * (tokenAppendTime b - Second)
         <= x * tokenAppendTime b + (t1 - unixNano (truncSecond t)).
Proof.
  intros Hwf Hcore Hspan. set (key := keyOf (ClientIP ctx)).
  pose proof Hwf as (Hcap & Hta & _).
  induction n as [|n IH]; intros w x t expiry Hq Hdata Hx Hstamp Hzone Hlow Hnow.
  { exists [], w. split; [done |]. change (Z.of_nat (admitted [])) with 0.
    pose proof Hq as (_ & _ & _ & Hclock). destruct (Hclock (ticks w)) as [? _].
    pose proof (truncSecond_bounds t). nia. }
  pose proof Hq as (_ & _ & Hmono & Hclock).
  destruct (Hclock (ticks w)) as (Hc1 & Hs1 & Hz1).
  destruct (Hclock (S (ticks w))) as (Hc2 & Hs2 & Hz2).
  pose proof (Hmono (ticks w) (S (ticks w)) ltac:(lia)) as H12.
  pose proof (truncSecond_bounds t) as Htr.
  assert (Hin : inInt64 x) by (unfold inInt64, minInt64; lia).
  assert (Hdec : decodeRecord (value (mkEntry (encodeRecord x t) expiry))
                 = inr (x, truncSecond t)).
  { simpl. by apply decodeRecord_encodeRecord. }
  pose proof (Walk_calm_present fuel b ctx w _ x _ Hcore (steadyView_calm _ _ _ _ 3 Hq)
                Hdata Hdec) as HW.
  fold key in HW.
  set (w1 := afterSend (CmdGet key) (afterSend (CmdWatch key) (lookedUp w))) in *.
  set (th := truncSecond t) in *.
  set (c1 := clock w (ticks w)) in *. set (c2 := clock w (S (ticks w))) in *.
  assert (Hs : Since c1 th = unixNano c1 - unixNano th).
  { apply Since_exact. unfold minInt64. lia. }
  cbn [replicate walkAll].
  destruct (Z.lt_ge_cases (Since c1 th) (tokenAppendTime b)) as [Hearly | Hlate].
  - (* no token has come in *)
    rewrite refill_early in HW by (done || lia). rewrite HW. clear HW.
    destruct (Z.leb_spec x 0) as [Hzero | Hpos].
    + destruct (IH (advance 1 w1) x t expiry) as (rs & w' & -> & Hb).
      * by eapply steadyView_env.
      * unfold w1. rewrite calm_server; [done | by eapply steadyView_calm].
      * done.
      * done.
      * done.
      * done.
      * change (clock (advance 1 w1) (ticks (advance 1 w1))) with c2. lia.
      * exists (Some ErrNoTokensAwailable :: rs), w'. split; [done |]. exact Hb.
    + rewrite sub64_one by lia.
      match goal with |- context [walkAll _ _ _ ?w2] => set (wn := w2) end.
      destruct (IH wn (x - 1) th (dur b)) as (rs & w' & -> & Hb).
      * by eapply steadyView_env.
      * subst wn. simpl. unfold redisWrite. simpl. by rewrite lookup_insert_eq.
      * lia.
      * by apply validStamp_truncSecond.
      * done.
      * unfold th. by rewrite truncSecond_twice.
      * change (clock wn (ticks wn)) with c2. lia.
      * exists (None :: rs), w'. split; [done |].
        unfold th in Hb. rewrite truncSecond_twice in Hb. fold th in Hb.
        change (admitted (None :: rs)) with (S (admitted rs)).
        rewrite Nat2Z.inj_succ, Z.mul_succ_l. unfold Second in *. nia.
  - (* tokens have come in *)
    pose proof (refill_passed b x th w1 Hwf) as Hp. cbv zeta in Hp.
    change (clock w1 (ticks w1)) with c1 in Hp.
    change (clock w1 (S (ticks w1))) with c2 in Hp.
    set (elapsed := Since c1 th) in *.
    set (add := Z.min (elapsed / tokenAppendTime b) (cap b - x)) in *.
    destruct Hp as [Hadd Hr]; [lia | lia | lia |].
    assert (Hadd' : add * tokenAppendTime b <= elapsed).
    { assert (add <= elapsed / tokenAppendTime b) by lia.
      pose proof (Z.mul_div_le elapsed (tokenAppendTime b) ltac:(lia)). nia. }
    rewrite Hr in HW. clear Hr. rewrite HW. clear HW.
    destruct (Z.eqb_spec (x + add) (cap b)) as [Hfull | Hpart].
    + destruct (Z.leb_spec (cap b) 0) as [? | _]; [lia |]. rewrite sub64_one by lia.
      match goal with |- context [walkAll _ _ _ ?w2] => set (wn := w2) end.
      pose proof (truncSecond_bounds c2) as Htr2.
      destruct (IH wn (cap b - 1) c2 (dur b)) as (rs & w' & -> & Hb).
      * by eapply steadyView_env.
      * subst wn. simpl. unfold redisWrite. simpl. by rewrite lookup_insert_eq.
      * lia.
      * done.
      * done.
      * lia.
      * change (clock wn (ticks wn)) with (clock w (S (S (ticks w)))).
        apply Hmono. lia.
      * exists (None :: rs), w'. split; [done |].
        change (admitted (None :: rs)) with (S (admitted rs)).
        rewrite Nat2Z.inj_succ, Z.mul_succ_l. unfold Second in *. nia.
    + destruct (Z.leb_spec (x + add) 0) as [? | _]; [lia |]. rewrite sub64_one by lia.
      match goal with |- context [walkAll _ _ _ ?w2] => set (wn := w2) end.
      set (t' := Time_Add th (add * tokenAppendTime b)).
      assert (Heq : unixNano t' = unixNano th + add * tokenAppendTime b) by done.
      assert (Ht' : unixNano th <= unixNano t' <= unixNano c1) by lia.
      pose proof (truncSecond_bounds t') as Htr'.
      pose proof (truncSecond_mono th t' ltac:(lia)) as Hm'.
      unfold th in Hm' at 1. rewrite truncSecond_twice in Hm'. fold th in Hm'.
      destruct (IH wn (x + add - 1) t' (dur b)) as (rs & w' & -> & Hb).
      * by eapply steadyView_env.
      * subst wn. simpl. unfold redisWrite. simpl. by rewrite lookup_insert_eq.
      * lia.
      * apply (validStamp_between th t' c1); [by apply validStamp_truncSecond | done | | |].
        -- done.
        -- simpl. by rewrite Hz1.
        -- split; apply unixSec_le; lia.
      * done.
      * lia.
      * change (clock wn (ticks wn)) with c2. lia.
      * exists (None :: rs), w'. split; [done |].
        change (admitted (None :: rs)) with (S (admitted rs)).
        rewrite Nat2Z.inj_succ, Z.mul_succ_l.
        replace ((x + add - 1) * tokenAppendTime b)
          with (x * tokenAppendTime b + add * tokenAppendTime b - tokenAppendTime b) in Hb
          by ring.
        lia.
Qed.

(** X13. The rate of the calls let through. Of [n] calls one after the
    other for an address that is not on the server, made from [t0] to
    [t1] on a clock that does not go back and stays in one zone (no
    command failing, nobody else writing, the record not expiring), each
    returns after one round, and the number [k] of those that returned
    nil satisfies
    [(k - 1) * (interval - 1s) <= (capacity - 1) * interval + (t1 - t0) + 1s]:
    the capacity at once and one more per interval after that, a second
    being lost with every record written, since records keep whole
    seconds. *)
Theorem Walk_rate_bound (fuel : nat) (b : RedisBucket) (ctx : Context) (t0 t1 zone : Z)
    (w : world) (n : nat) :
  wfBucket b -> core b <> None -> t1 - t0 + Second <= maxInt64 ->
  steadyView t0 t1 zone w -> data (server w) !! keyOf (ClientIP ctx) = None ->
  exists rs w',
    walkAll (S fuel) b (replicate n ctx) w = Some (rs, w')
    /\ (Z.of_nat (admitted rs) - 1) * (tokenAppendTime b - Second)
       <= (cap b - 1) * tokenAppendTime b + (t1 - t0) + Second.
Proof.
  intros Hwf Hcore Hspan Hq Hnone. pose proof Hwf as (Hcap & Hta & _).
  pose proof Hq as (_ & _ & Hmono & Hclock).
  destruct (Hclock (ticks w)) as (Hc1 & Hs1 & Hz1).
  destruct n as [|n].
  { exists [], w. split; [done |]. change (Z.of_nat (admitted [])) with 0.
    unfold Second in *. nia. }
  cbn [replicate walkAll].
  rewrite Walk_calm_absent; [| done | by eapply steadyView_calm | done].
  rewrite sub64_one by lia.
  match goal with |- context [walkAll _ _ _ ?w2] => set (wn := w2) end.
  pose proof (truncSecond_bounds (clock w (ticks w))) as Htr.
  destruct (walkAll_rate fuel b ctx t0 t1 zone Hwf Hcore Hspan n wn (cap b - 1)
              (clock w (ticks w)) (dur b)) as (rs & w' & -> & Hb).
  - by eapply steadyView_env.
  - subst wn. simpl. unfold redisWrite. simpl. by rewrite lookup_insert_eq.
  - lia.
  - done.
  - done.
  - lia.
  - change (clock wn (ticks wn)) with (clock w (S (ticks w))). apply Hmono. lia.
  - exists (None :: rs), w'. split; [done |].
    change (admitted (None :: rs)) with (S (admitted rs)).
    unfold Second in *. nia.
Qed.

Lemma Walk_rate_bound_witness :
  exists rs w',
    walkAll 1 exampleBucket (replicate 5 exampleContext) (stillWorld emptyRedis exampleTime)
    = Some (rs, w')
    /\ (Z.of_nat (admitted rs) - 1) * (tokenAppendTime exampleBucket - Second)
       <= (cap exampleBucket - 1) * tokenAppendTime exampleBucket
          + (unixNano exampleTime - unixNano exampleTime) + Second.
Proof.
  apply (Walk_rate_bound 0 exampleBucket exampleContext (unixNano exampleTime)
           (unixNano exampleTime) 0 (stillWorld emptyRedis exampleTime) 5).
  - exact exampleBucket_wf.
  - discriminate.
  - vm_compute. discriminate.
  - split; [done |]. split; [done |]. split; [intros i j _; simpl; lia |].
    intros k. split; [simpl; lia |]. split; [| reflexivity].
    vm_compute. repeat split; discriminate.
  - reflexivity.
Defined.

(** ** Concurrent calls within the capacity *)

Lemma machine_start_ok (b : RedisBucket) (ip : string) (start : Z) (sh0 : redis)
    (views : list world) :
  wfBucket b -> Forall (quietView b start) views -> data sh0 !! keyOf ip = None ->
  let m0 := mkMachine sh0 (List.map startProcess views) in
  let rev0 := revOf (keyOf ip) sh0 in
  machineOK b ip start rev0 m0
  /\ measure b (keyOf ip) rev0 m0
     = (3 * List.length views + 3 * List.length views * Z.to_nat (cap b))%nat.
Proof.
  intros Hwf Hviews Hnone m0 rev0.
  assert (Hc0 : commits (keyOf ip) rev0 sh0 = 0) by (unfold commits, rev0; lia).
  split.
  - split; [| split]; simpl.
    + unfold storeOK. rewrite Hnone, Hc0. destruct Hwf as (Hcap & _). lia.
    + clear -Hviews. induction Hviews as [|v l Hv Hl IH]; simpl; constructor; [| done].
      by split.
    + rewrite Hc0. unfold countReturned. simpl. clear.
      induction views as [|v l IH]; simpl; [done | exact IH].
  - unfold measure, m0. simpl. rewrite Hc0, Z.sub_0_r, length_map. f_equal.
    clear. induction views as [|v l IH]; simpl; [done |]. rewrite IH.
    unfold rank. simpl. lia.
Qed.

Lemma filter_length_lt (f : process -> bool) (l : list process) (p : process) :
  List.In p l -> f p = false -> (List.length (List.filter f l) < List.length l)%nat.
Proof.
  induction l as [|q l IH]; simpl; [done |]. intros [-> | Hin] Hp.
  - rewrite Hp. pose proof (List.filter_length_le f l). lia.
  - specialize (IH Hin Hp). destruct (f q); simpl; lia.
Qed.

(** X14. [N] processes call [Walk] at once for an address that is not on
    the server, the capacity being at least [N]; no command fails, nobody
    else writes the key, the record does not expire, and all readings of
    the clocks lie in a window shorter than the refill interval that
    starts on a whole second. Then, however the processes take their
    turns: the run is bounded; no call ever returns an error (a lost race
    is never a refusal); a machine where not all have returned can step;
    and when all have returned, all [N] returned nil and the record holds
    the capacity less [N]. *)
Theorem concurrent_walks_within_capacity (b : RedisBucket) (ip : string) (start : Z)
    (sh0 : redis) (views : list world) (n : nat) (m : machine) :
  wfBucket b -> start mod Second = 0 ->
  Forall (quietView b start) views ->
  Z.of_nat (List.length views) <= cap b ->
  data sh0 !! keyOf ip = None ->
  machineRun b ip n (mkMachine sh0 (List.map startProcess views)) m ->
  (n <= 3 * List.length views * (Z.to_nat (cap b) + 1))%nat
  /\ (forall p err, List.In p (procs m) -> at_ p <> Returned (Some err))
  /\ (forallb isReturned (procs m) = false -> exists m', machineStep b ip m m')
  /\ (forallb isReturned (procs m) = true ->
      countReturned None m = List.length views
      /\ ((0 < List.length views)%nat ->
          exists t, data (shared m) !! keyOf ip
                    = Some (mkEntry (encodeRecord (cap b - Z.of_nat (List.length views)) t)
                              (dur b)))).
Proof.
  intros Hwf Hstart Hviews HN Hnone Hrun.
  destruct (machine_start_ok b ip start sh0 views Hwf Hviews Hnone) as [Hok0 Hm0].
  set (rev0 := revOf (keyOf ip) sh0) in *.
  destruct (machineRun_ok b ip start rev0 Hwf Hstart n _ m Hrun Hok0) as (Hok & Hm & Hlen).
  simpl in Hlen. rewrite length_map in Hlen.
  destruct Hok as (Hstore & Hall & Hcount).
  assert (Hnever : forall p err, List.In p (procs m) -> at_ p <> Returned (Some err)).
  { intros p err Hin Hp.
    assert (Hpok : procOK b (keyOf ip) start rev0 (shared m) p).
    { rewrite Forall_forall in Hall. apply Hall. by apply list_elem_of_In. }
    destruct Hpok as [_ Hat]. rewrite Hp in Hat. destruct Hat as [_ Hfull].
    assert (Hno : returnedWith None p = false) by (unfold returnedWith; by rewrite Hp).
    pose proof (filter_length_lt (returnedWith None) (procs m) p Hin Hno) as Hlt.
    unfold countReturned in Hcount. lia. }
  split; [rewrite Hm0 in Hm; lia |]. split; [exact Hnever |].
  split; [by apply machine_progress |].
  intros Hret.
  assert (Hnone_all : countReturned None m = List.length views).
  { unfold countReturned. rewrite <- Hlen. clear -Hret Hnever.
    induction (procs m) as [|p l IH]; simpl in *; [done |].
    apply andb_true_iff in Hret as [Hp Hl].
    assert (Hp' : returnedWith None p = true).
    { unfold isReturned in Hp. unfold returnedWith.
      destruct (at_ p) as [| | |[err |]] eqn:Hat; try done.
      exfalso. apply (Hnever p err); [by left | done]. }
    rewrite Hp'. simpl. f_equal. apply IH; [| done].
    intros q err Hq. apply Hnever. by right. }
  split; [exact Hnone_all |]. intros Hpos.
  destruct Hstore as [Hc Hdata].
  destruct (data (shared m) !! keyOf ip) as [e |].
  - destruct Hdata as (_ & t & -> & _). exists t. by rewrite <- Hcount, Hnone_all.
  - lia.
Qed.

Lemma concurrent_walks_within_capacity_witness :
  exists m,
    runSchedule exampleBucket "192.0.2.7" [0; 1; 0; 1; 0; 1; 1; 1; 1]%nat raceStart = Some m
    /\ countReturned None m = 2%nat
    /\ exists t, data (shared m) !! keyOf "192.0.2.7"
                 = Some (mkEntry (encodeRecord (3 - 2) t) (dur exampleBucket)).
Proof.
  destruct (runSchedule exampleBucket "192.0.2.7" [0; 1; 0; 1; 0; 1; 1; 1; 1]%nat raceStart)
    as [m |] eqn:Hs; [| vm_compute in Hs; discriminate].
  exists m. split; [reflexivity |].
  destruct (concurrent_walks_within_capacity exampleBucket "192.0.2.7" (unixNano exampleTime)
              emptyRedis [stillWorld emptyRedis exampleTime; stillWorld emptyRedis exampleTime]
              9 m) as (_ & _ & _ & Hfinal).
  - exact exampleBucket_wf.
  - reflexivity.
  - apply Forall_cons. split; [exact exampleTime_quiet |].
    apply Forall_cons. split; [exact exampleTime_quiet |]. apply Forall_nil_2.
  - vm_compute. discriminate.
  - reflexivity.
  - exact (runSchedule_run _ _ _ _ _ Hs).
  - destruct Hfinal as [Hcount Hrec].
    + vm_compute in Hs. injection Hs as <-. reflexivity.
    + split; [exact Hcount |]. apply Hrec. simpl. lia.
Defined.

(** ** The middleware over the bucket *)

(** X15. The handler of [WalkThrough] over a [RedisBucket] lets a request
    through (does not abort it) only after the record of its address has
    been committed with the token taken: the last command sent is that
    EXEC, the record is on the server, and nothing is logged. When the
    server cannot be reached (the first command fails), and when the
    bucket was made without a client, the request is aborted with status
    500 and the server-error body, and the error is logged: the limiter
    fails closed. *)
Theorem WalkThrough_fails_closed (fuel : nat) (l : limiter RedisBucket) (ctx : Context)
    (w : world) :
  let key := keyOf (ClientIP ctx) in
  (forall ctx' log' w',
      WalkThrough fuel l ctx w = Some (ctx', log', w') ->
      aborted ctx = false -> aborted ctx' = false ->
      ctx' = ctx /\ log' = logger l
      /\ exists val older,
           sent w' = CmdExecSet key val (dur (bucket l)) :: CmdGet key :: CmdWatch key
                     :: older ++ sent w
           /\ data (server w') !! key = Some (mkEntry val (dur (bucket l))))
  /\ (forall msg,
        core (bucket l) <> None -> fault w (List.length (sent w)) = Some msg ->
        WalkThrough (S fuel) l ctx w
        = Some (mkContext (ClientIP ctx) true (Some 500) (Some (serverError l)),
                logger l ++ [StoreError msg], afterSend (CmdWatch key) (lookedUp w)))
  /\ (core (bucket l) = None ->
      WalkThrough fuel l ctx w
      = Some (mkContext (ClientIP ctx) true (Some 500) (Some (serverError l)),
              logger l ++ [NewError "redis core is nil"], w)).
Proof.
  intros key. split; [| split].
  - intros ctx' log' w'. unfold WalkThrough. cbn [Walk RedisBucket_Bucket].
    destruct (RedisBucket_Walk fuel (bucket l) ctx w) as [[[err |] w1] |] eqn:HW; [| | done].
    { destruct (errors_Is err ErrNoTokensAwailable); intros [= <- <- <-] _; done. }
    intros [= <- <- <-] _ _. split; [done |]. split; [done |].
    destruct (core (bucket l)) as [c |] eqn:Hcore.
    + rewrite RedisBucket_Walk_loop in HW by congruence.
      destruct (walkLoop_summary _ _ _ _ _ _ HW) as (_ & _ & cmds & Hsent & Hres).
      destruct Hres as (tokens & t & w0 & w2 & older & _ & _ & _ & -> & Hsrv).
      fold key in Hsent, Hsrv.
      exists (encodeRecord (sub64 tokens 1) t), older. split; [exact Hsent |].
      rewrite Hsrv. apply data_redisWrite.
    + unfold RedisBucket_Walk in HW. by rewrite Hcore in HW.
  - intros msg Hcore Hfault. unfold WalkThrough. cbn [Walk RedisBucket_Bucket].
    rewrite RedisBucket_Walk_loop by done. cbn [walkLoop]. rewrite clientWatch_eq.
    change (fault (lookedUp w)) with (fault w). change (sent (lookedUp w)) with (sent w).
    by rewrite Hfault.
  - intros Hcore. unfold WalkThrough. cbn [Walk RedisBucket_Bucket].
    unfold RedisBucket_Walk. by rewrite Hcore.
Qed.

Lemma WalkThrough_fails_closed_witness :
  WalkThrough 1 (NewLimiter exampleBucket [] DefaultServerError DefaultTooManyRequestsError)
    exampleContext (failingWorld emptyRedis exampleTime "connection refused")
  = Some (mkContext "192.0.2.7" true (Some 500) (Some DefaultServerError),
          [StoreError "connection refused"],
          afterSend (CmdWatch (keyOf "192.0.2.7"))
            (lookedUp (failingWorld emptyRedis exampleTime "connection refused"))).
Proof.
  destruct (WalkThrough_fails_closed 0
              (NewLimiter exampleBucket [] DefaultServerError DefaultTooManyRequestsError)
              exampleContext (failingWorld emptyRedis exampleTime "connection refused"))
    as (_ & Hdown & _).
  apply (Hdown "connection refused"); [discriminate | reflexivity].
Defined.
